(** * ImagineKeys: the voice engine of [PianoModel] and what drives it

    A shallow embedding of the [PianoModel] class (the audio engine of the
    ImagineKeys page) and the properties of its voice registry, its cleanup
    timers and its dimension-to-sound mapping; then of what drives the
    engine: the [MidiController] with its virtual keyboard, the handlers
    of [main.js], and the part of the editor [PianoUI] that produces the
    dimensions.

    Conventions of the embedding.
    - JavaScript numbers that hold dimensions, gains and times are exact
      rationals ([Q]); rounding of IEEE doubles is not modelled.  The
      equal-tempered frequency needs a real power and lives in [R].
    - [this.activeNotes] is a JavaScript object used as a map from the note
      number to the voice object: a [gmap Z Voice].  Its property names are
      the decimal strings of integer note numbers, which [parseInt] reads
      back; keys are therefore integers.
    - Object identity ([===] on voice objects) is a generation number
      [vid], allocated from a counter of the state.
    - The Web Audio backend is a log of the calls made to it.  Calls that
      take a time (gain automation and [stop]) may throw, and so may the
      assignment of a curve to a wave shaper that has one; which ones do
      is decided by an oracle [Backend] that sees the log so far.  The
      console is a second log.
    - [setTimeout] callbacks are records in a list of pending timers; the
      environment fires them one at a time between two operations.
    - The controller holds the engine it was given, so that its methods
      and the handlers of [main.js] act on one and the same engine.  The
      keys on screen are a list of key elements in document order; the
      keyboard element itself is taken to exist.  Console output of the
      controller and of [main.js] is a log of the controller. *)

From Stdlib Require Import QArith Qminmax Qround Reals Psatz Lia.
From stdpp Require Import gmap strings list fin_maps sorting.

Local Open Scope Q_scope.

(** ** Audio nodes and backend calls *)

(** The nine nodes that one call of [playNote] creates, by the name of the
    local constant that holds them. *)
Inductive Role :=
  | OscillatorN | NoteGainN | FilterN
  | Oscillator2N | HarmonicGainN
  | Oscillator3N | EffectGainN
  | Oscillator4N | ExperimentalGainN.

#[global] Instance Role_eq_dec : EqDecision Role.
Proof. solve_decision. Defined.

(** A node is known by the generation of the call that created it and by
    its role there. *)
Definition Node : Type := nat * Role.

Inductive Dest :=
  | ToNode (n : Node)
  | ToMasterGain.

Inductive Level := LogLevel | WarnLevel | ErrorLevel.

(** What the engine writes to the console. *)
Inductive Report :=
  | PianoNotBuilt
  | ErrorStoppingInStopNote
  | ErrorStoppingOscillators
  | ErrorInForceStopNote
  | ForceStopped (midiNote : Z)
  | CleanupComplete (midiNote : Z)
  | BackupCleanup (midiNote : Z)
  | EmergencyCleanup (midiNote : Z)
  | DimensionsUpdated (length width height : Q)
  | AdjustingMasterVolume (volumeFactor : Q)
  | HarmonicEnhancement
  | BuildingPiano
  | PianoBuilt.

(** Calls to the Web Audio backend, in program order.
    [SetFrequency n pitch k] is [n.frequency.value = k * frequency] for the
    [frequency] computed from [pitch]; [HoldValue n t] is
    [n.gain.setValueAtTime(n.gain.value, t)]; [SetCurveAgain amount] is
    [this.distortion.curve = this.makeDistortionCurve(amount)] on the
    wave shaper that is already in place, whose curve was set when it was
    created. *)
Inductive AudioCall :=
  | CreateNode (n : Node)
  | SetWave (n : Node) (type : string)
  | SetFrequency (n : Node) (midiNote : Z) (k : Q)
  | SetFilterType (n : Node) (type : string)
  | SetFilterFrequency (n : Node) (hz : Q)
  | SetFilterGain (n : Node) (db : Q)
  | SetFilterQ (n : Node) (q : Q)
  | SetGain (n : Node) (value : Q)
  | Connect (src : Node) (dst : Dest)
  | SetValueAtTime (n : Node) (value : Q) (t : Q)
  | CancelScheduledValues (n : Node) (t : Q)
  | HoldValue (n : Node) (t : Q)
  | LinearRamp (n : Node) (value : Q) (t : Q)
  | Start (n : Node) (t : Q)
  | Stop (n : Node) (t : Q)
  | SetCurveAgain (amount : Q).

(** The failure oracle of the backend: given the calls made so far, does
    this call throw? *)
Definition Backend : Type := list AudioCall → AudioCall → bool.

(** ** The state of a [PianoModel] *)

(** [this.dimensions], in centimetres. *)
Module Dims.
Record t := {
  length : Q;
  width : Q;
  height : Q
}.
End Dims.

(** The object literal stored in [activeNotes] by [playNote]. *)
Module Note.
Record t := {
  vid : nat;
  oscillator : Node;
  oscillator2 : Node;
  oscillator3 : Node;
  oscillator4 : option Node;
  noteGain : Node;
  filter : Node;
  harmonicGain : Node;
  effectGain : Node;
  experimentalGain : option Node;
  releaseTime : Q
}.
End Note.
Abbreviation Voice := Note.t.

(** [a === b] on voice objects. *)
Definition same_voice (a b : Voice) : bool := Nat.eqb (Note.vid a) (Note.vid b).

Inductive TimerKind := Primary | Backup | Emergency.

(** A pending [setTimeout] of [stopNote]: the closure captures [midiNote]
    and [note]. *)
Record Timer := {
  t_kind : TimerKind;
  t_midiNote : Z;
  t_note : Voice;
  t_delay : Q
}.

Record PianoModel := {
  isBuilt : bool;
  dimensions : Dims.t;
  material : string;
  masterGain : Q;
  distortion : option Q;
  activeNotes : gmap Z Voice;
  currentTime : Q;
  nextObject : nat;
  timers : list Timer;
  calls : list AudioCall;
  reports : list (Level * Report)
}.

(** [new PianoModel()] *)
Definition constructor : PianoModel := {|
  isBuilt := false;
  dimensions := {| Dims.length := 80; Dims.width := 280; Dims.height := 40 |};
  material := "wood";
  masterGain := 0.7;
  distortion := None;
  activeNotes := ∅;
  currentTime := 0;
  nextObject := 0;
  timers := [];
  calls := [];
  reports := []
|}.

(** Field updates. *)
Definition set_isBuilt (b : bool) (s : PianoModel) : PianoModel :=
  {| isBuilt := b; dimensions := dimensions s; material := material s;
     masterGain := masterGain s; distortion := distortion s;
     activeNotes := activeNotes s; currentTime := currentTime s;
     nextObject := nextObject s; timers := timers s; calls := calls s;
     reports := reports s |}.

Definition set_dimensions (d : Dims.t) (s : PianoModel) : PianoModel :=
  {| isBuilt := isBuilt s; dimensions := d; material := material s;
     masterGain := masterGain s; distortion := distortion s;
     activeNotes := activeNotes s; currentTime := currentTime s;
     nextObject := nextObject s; timers := timers s; calls := calls s;
     reports := reports s |}.

Definition set_material (m : string) (s : PianoModel) : PianoModel :=
  {| isBuilt := isBuilt s; dimensions := dimensions s; material := m;
     masterGain := masterGain s; distortion := distortion s;
     activeNotes := activeNotes s; currentTime := currentTime s;
     nextObject := nextObject s; timers := timers s; calls := calls s;
     reports := reports s |}.

Definition set_masterGain (g : Q) (s : PianoModel) : PianoModel :=
  {| isBuilt := isBuilt s; dimensions := dimensions s; material := material s;
     masterGain := g; distortion := distortion s;
     activeNotes := activeNotes s; currentTime := currentTime s;
     nextObject := nextObject s; timers := timers s; calls := calls s;
     reports := reports s |}.

Definition set_distortion (d : option Q) (s : PianoModel) : PianoModel :=
  {| isBuilt := isBuilt s; dimensions := dimensions s; material := material s;
     masterGain := masterGain s; distortion := d;
     activeNotes := activeNotes s; currentTime := currentTime s;
     nextObject := nextObject s; timers := timers s; calls := calls s;
     reports := reports s |}.

Definition set_activeNotes (m : gmap Z Voice) (s : PianoModel) : PianoModel :=
  {| isBuilt := isBuilt s; dimensions := dimensions s; material := material s;
     masterGain := masterGain s; distortion := distortion s;
     activeNotes := m; currentTime := currentTime s;
     nextObject := nextObject s; timers := timers s; calls := calls s;
     reports := reports s |}.

Definition set_currentTime (t : Q) (s : PianoModel) : PianoModel :=
  {| isBuilt := isBuilt s; dimensions := dimensions s; material := material s;
     masterGain := masterGain s; distortion := distortion s;
     activeNotes := activeNotes s; currentTime := t;
     nextObject := nextObject s; timers := timers s; calls := calls s;
     reports := reports s |}.

Definition set_nextObject (n : nat) (s : PianoModel) : PianoModel :=
  {| isBuilt := isBuilt s; dimensions := dimensions s; material := material s;
     masterGain := masterGain s; distortion := distortion s;
     activeNotes := activeNotes s; currentTime := currentTime s;
     nextObject := n; timers := timers s; calls := calls s;
     reports := reports s |}.

Definition set_timers (ts : list Timer) (s : PianoModel) : PianoModel :=
  {| isBuilt := isBuilt s; dimensions := dimensions s; material := material s;
     masterGain := masterGain s; distortion := distortion s;
     activeNotes := activeNotes s; currentTime := currentTime s;
     nextObject := nextObject s; timers := ts; calls := calls s;
     reports := reports s |}.

Definition set_calls (cs : list AudioCall) (s : PianoModel) : PianoModel :=
  {| isBuilt := isBuilt s; dimensions := dimensions s; material := material s;
     masterGain := masterGain s; distortion := distortion s;
     activeNotes := activeNotes s; currentTime := currentTime s;
     nextObject := nextObject s; timers := timers s; calls := cs;
     reports := reports s |}.

Definition set_reports (rs : list (Level * Report)) (s : PianoModel) : PianoModel :=
  {| isBuilt := isBuilt s; dimensions := dimensions s; material := material s;
     masterGain := masterGain s; distortion := distortion s;
     activeNotes := activeNotes s; currentTime := currentTime s;
     nextObject := nextObject s; timers := timers s; calls := calls s;
     reports := rs |}.

(** ** Methods as computations: state passing with exceptions *)

Inductive Outcome (A : Type) :=
  | Returned (a : A)
  | Thrown (c : AudioCall).
Arguments Returned {A} a.
Arguments Thrown {A} c.

Definition M (A : Type) : Type := PianoModel → Outcome A * PianoModel.

Definition ret {A} (a : A) : M A := λ s, (Returned a, s).

Definition bind {A B} (m : M A) (k : A → M B) : M B :=
  λ s, match m s with
       | (Returned a, s') => k a s'
       | (Thrown c, s') => (Thrown c, s')
       end.

Notation "x <- m ;; k" := (bind m (λ x, k))
  (at level 100, m at next level, right associativity).
Notation "m ;; k" := (bind m (λ _, k))
  (at level 100, right associativity).

Definition gets {A} (f : PianoModel → A) : M A := λ s, (Returned (f s), s).
Definition modify (f : PianoModel → PianoModel) : M unit := λ s, (Returned tt, f s).

(** [if (c) { m }] *)
Definition when (c : bool) (m : M unit) : M unit := if c then m else ret tt.

(** [if (o) { f(o) }] for a handle that may be [null]. *)
Definition when_some {A} (o : option A) (f : A → M unit) : M unit :=
  match o with Some a => f a | None => ret tt end.

(** [try { body } catch (e) { handler }] *)
Definition try_catch (body : M unit) (handler : M unit) : M unit :=
  λ s, match body s with
       | (Thrown _, s') => handler s'
       | r => r
       end.

(** [try { body } finally { cleanup }] *)
Definition try_finally (body : M unit) (cleanup : M unit) : M unit :=
  λ s, match body s with
       | (r, s') =>
           match cleanup s' with
           | (Returned _, s'') => (r, s'')
           | (Thrown c, s'') => (Thrown c, s'')
           end
       end.

(** A call that cannot fail: it is appended to the log. *)
Definition call (c : AudioCall) : M unit :=
  modify (λ s, set_calls (calls s ++ [c]) s).

(** A call that takes a time: it throws when the backend says so, and is
    logged otherwise. *)
Definition risky (B : Backend) (c : AudioCall) : M unit :=
  λ s, if B (calls s) c then (Thrown c, s) else call c s.

(** [console.log], [console.warn], [console.error] *)
Definition console (l : Level) (r : Report) : M unit :=
  modify (λ s, set_reports (reports s ++ [(l, r)]) s).

(** The state after a computation, whatever its outcome. *)
Definition exec {A} (m : M A) (s : PianoModel) : PianoModel := snd (m s).

(** Did the computation return normally? *)
Definition returns {A} (m : M A) (s : PianoModel) : bool :=
  match fst (m s) with Returned _ => true | Thrown _ => false end.

(** [xs.forEach(f)] *)
Fixpoint forEach {A} (xs : list A) (f : A → M unit) : M unit :=
  match xs with
  | [] => ret tt
  | x :: xs' => f x ;; forEach xs' f
  end.

(** [x > y] on numbers. *)
Definition Qgtb (x y : Q) : bool :=
  match x ?= y with Gt => true | _ => false end.

(** ** The dimension-to-sound mapping *)

(** [(length * width * height) / (180 * 150 * 40)] *)
Definition volumeFactor (length width height : Q) : Q :=
  (length * width * height) / (180 * 150 * 40).

(** [Math.min(0.7 * volumeFactor, 1.2)] *)
Definition masterGainFor (vf : Q) : Q := Qmin (0.7 * vf) 1.2.

(** [440 * Math.pow(2, (midiNote - 69) / 12)], the frequency of a note
    number, over the reals. *)
Definition frequency (midiNote : Z) : R :=
  (440 * Rpower 2 (IZR (midiNote - 69) / 12))%R.

(** The envelope constants of [playNote]. *)
Definition attackTime (d : Dims.t) : Q :=
  Qmax 0.001 (0.1 - (Dims.height d / 100) * 0.099).

Definition decayTime (d : Dims.t) : Q :=
  0.05 + (Dims.height d / 100) * 0.95.

Definition sustainLevel (d : Dims.t) : Q :=
  0.1 + (Dims.width d / 200) * 0.8.

Definition releaseTime (d : Dims.t) : Q :=
  0.1 + (Dims.length d / 200) * 0.7.

(** ** Registry primitives *)

(** [this.activeNotes[midiNote]] *)
Definition lookupNote (midiNote : Z) : M (option Voice) :=
  gets (λ s, activeNotes s !! midiNote).

(** [delete this.activeNotes[midiNote]] *)
Definition deleteNote (midiNote : Z) : M unit :=
  modify (λ s, set_activeNotes (delete midiNote (activeNotes s)) s).

(** [this.activeNotes[midiNote] = note] *)
Definition storeNote (midiNote : Z) (note : Voice) : M unit :=
  modify (λ s, set_activeNotes (<[midiNote := note]> (activeNotes s)) s).

(** [Object.keys(this.activeNotes).map(note => parseInt(note))]: the note
    numbers registered now, as an array of its own.  For the note numbers
    of the MIDI range the order of the keys is the ascending one. *)
Definition noteNumbers (s : PianoModel) : list Z :=
  merge_sort Z.le (map fst (map_to_list (activeNotes s))).

(** [setTimeout(callback, delay)] *)
Definition setTimeout (t : Timer) : M unit :=
  modify (λ s, set_timers (timers s ++ [t]) s).

(** ** Stopping a voice *)

(** The three automation calls that take a gain to zero at [t]. *)
Definition rampToZero (B : Backend) (g : Node) (now t : Q) : M unit :=
  risky B (CancelScheduledValues g now) ;;
  risky B (HoldValue g now) ;;
  risky B (LinearRamp g 0 t).

(** The four [stop] calls, the last on a handle that may be [null]. *)
Definition stopOscillators (B : Backend) (note : Voice) (stopTime : Q) : M unit :=
  risky B (Stop (Note.oscillator note) stopTime) ;;
  risky B (Stop (Note.oscillator2 note) stopTime) ;;
  risky B (Stop (Note.oscillator3 note) stopTime) ;;
  when_some (Note.oscillator4 note) (λ o, risky B (Stop o stopTime)).

(** [forceStopNote(midiNote)] *)
Definition forceStopNote (B : Backend) (midiNote : Z) : M unit :=
  o <- lookupNote midiNote ;;
  match o with
  | None => ret tt
  | Some note =>
      now <- gets currentTime ;;
      try_finally
        (try_catch
           (rampToZero B (Note.noteGain note) now (now + 0.005) ;;
            rampToZero B (Note.harmonicGain note) now (now + 0.005) ;;
            rampToZero B (Note.effectGain note) now (now + 0.005) ;;
            when_some (Note.experimentalGain note)
              (λ g, rampToZero B g now (now + 0.005)) ;;
            let stopTime := now + 0.01 in
            try_catch
              (stopOscillators B note stopTime)
              (console WarnLevel ErrorStoppingOscillators))
           (console ErrorLevel ErrorInForceStopNote))
        (deleteNote midiNote ;;
         console LogLevel (ForceStopped midiNote))
  end.

(** [stopNote(midiNote)] *)
Definition stopNote (B : Backend) (midiNote : Z) : M unit :=
  o <- lookupNote midiNote ;;
  match o with
  | None => ret tt
  | Some note =>
      now <- gets currentTime ;;
      rampToZero B (Note.noteGain note) now (now + Note.releaseTime note) ;;
      rampToZero B (Note.harmonicGain note) now (now + Note.releaseTime note) ;;
      rampToZero B (Note.effectGain note) now (now + Note.releaseTime note) ;;
      when_some (Note.experimentalGain note)
        (λ g, rampToZero B g now (now + Note.releaseTime note)) ;;
      let stopTime := now + Note.releaseTime note + 0.15 in
      try_catch
        (stopOscillators B note stopTime)
        (console WarnLevel ErrorStoppingInStopNote) ;;
      let cleanupTime := Qmin (Note.releaseTime note + 0.1) 0.5 * 1000 in
      setTimeout {| t_kind := Primary; t_midiNote := midiNote;
                    t_note := note; t_delay := cleanupTime |} ;;
      setTimeout {| t_kind := Backup; t_midiNote := midiNote;
                    t_note := note; t_delay := cleanupTime + 1000 |} ;;
      setTimeout {| t_kind := Emergency; t_midiNote := midiNote;
                    t_note := note; t_delay := 5000 |}
  end.

(** The body of the callback of a timer of [stopNote]. *)
Definition callback (t : Timer) : M unit :=
  o <- lookupNote (t_midiNote t) ;;
  match t_kind t with
  | Primary =>
      match o with
      | Some _ =>
          deleteNote (t_midiNote t) ;;
          console LogLevel (CleanupComplete (t_midiNote t))
      | None => ret tt
      end
  | Backup =>
      match o with
      | Some v =>
          when (same_voice v (t_note t))
            (console WarnLevel (BackupCleanup (t_midiNote t)) ;;
             deleteNote (t_midiNote t))
      | None => ret tt
      end
  | Emergency =>
      match o with
      | Some v =>
          when (same_voice v (t_note t))
            (console ErrorLevel (EmergencyCleanup (t_midiNote t)) ;;
             deleteNote (t_midiNote t))
      | None => ret tt
      end
  end.

(** The environment runs the [i]-th pending timer, which is then gone. *)
Definition fireTimer (i : nat) : M unit :=
  ts <- gets timers ;;
  match ts !! i with
  | None => ret tt
  | Some t =>
      modify (set_timers (take i ts ++ drop (S i) ts)) ;;
      callback t
  end.

(** [stopAllNotes(immediate)] *)
Definition stopAllNotes (B : Backend) (immediate : bool) : M unit :=
  if immediate then
    ns <- gets noteNumbers ;;
    forEach ns (λ midiNote, forceStopNote B midiNote)
  else
    ns <- gets noteNumbers ;;
    forEach ns (λ midiNote, stopNote B midiNote).

(** ** Starting a voice *)

(** The handles of the nodes created by the call of generation [id]. *)
Definition node (id : nat) (r : Role) : Node := (id, r).

(** The [switch (this.material)] of [playNote]: wave shapes, partial
    gains and filter of each material.  Any other string matches no case. *)
Definition materialRecipe (m : string) (d : Dims.t) (midiNote : Z) (id : nat) : M unit :=
  let oscillator := node id OscillatorN in
  let oscillator2 := node id Oscillator2N in
  let oscillator3 := node id Oscillator3N in
  let oscillator4 := node id Oscillator4N in
  let harmonicGain := node id HarmonicGainN in
  let effectGain := node id EffectGainN in
  let experimentalGain := node id ExperimentalGainN in
  let filter := node id FilterN in
  if String.eqb m "wood" then
    call (SetWave oscillator "triangle") ;;
    call (SetWave oscillator2 "sine") ;;
    call (SetWave oscillator3 "sine") ;;
    call (SetGain harmonicGain 0.25) ;;
    call (SetGain effectGain 0.08) ;;
    call (SetFilterType filter "lowpass") ;;
    call (SetFilterFrequency filter (3500 + Dims.length d * 20)) ;;
    call (SetFilterQ filter 0.7)
  else if String.eqb m "metal" then
    call (SetWave oscillator "triangle") ;;
    call (SetWave oscillator2 "sawtooth") ;;
    call (SetWave oscillator3 "triangle") ;;
    call (SetGain harmonicGain 0.3) ;;
    call (SetGain effectGain 0.15) ;;
    call (SetFilterType filter "highshelf") ;;
    call (SetFilterFrequency filter (2000 + Dims.length d * 30)) ;;
    call (SetFilterGain filter 3.0) ;;
    call (SetFilterQ filter 1.0)
  else if String.eqb m "glass" then
    call (SetWave oscillator "sine") ;;
    call (SetWave oscillator2 "sine") ;;
    call (SetWave oscillator3 "triangle") ;;
    call (SetGain harmonicGain 0.15) ;;
    call (SetGain effectGain 0.1) ;;
    call (SetFilterType filter "peaking") ;;
    call (SetFilterFrequency filter (4000 + Dims.length d * 40)) ;;
    call (SetFilterGain filter 6.0) ;;
    call (SetFilterQ filter 4.0)
  else if String.eqb m "plastic" then
    call (SetWave oscillator "triangle") ;;
    call (SetWave oscillator2 "sine") ;;
    call (SetWave oscillator3 "triangle") ;;
    call (SetWave oscillator4 "sine") ;;
    call (SetFrequency oscillator2 midiNote 2) ;;
    call (SetGain harmonicGain 0.2) ;;
    call (SetGain effectGain 0.1) ;;
    call (SetGain experimentalGain 0.05) ;;
    call (SetFilterType filter "lowshelf") ;;
    call (SetFilterFrequency filter (1000 + Dims.length d * 20)) ;;
    call (SetFilterGain filter (-2.0)) ;;
    call (SetFilterQ filter 0.8) ;;
    call (Connect oscillator4 (ToNode experimentalGain)) ;;
    call (Connect experimentalGain (ToNode filter))
  else ret tt.

(** The four oscillators and their gains, the per-note gain and the
    filter, with the frequencies of the partials. *)
Definition createNodes (midiNote : Z) (id : nat) : M unit :=
  call (CreateNode (node id OscillatorN)) ;;
  call (CreateNode (node id NoteGainN)) ;;
  call (CreateNode (node id FilterN)) ;;
  call (SetWave (node id OscillatorN) "triangle") ;;
  call (SetFrequency (node id OscillatorN) midiNote 1) ;;
  call (SetFilterType (node id FilterN) "lowpass") ;;
  call (CreateNode (node id Oscillator2N)) ;;
  call (CreateNode (node id HarmonicGainN)) ;;
  call (SetFrequency (node id Oscillator2N) midiNote 2) ;;
  call (CreateNode (node id Oscillator3N)) ;;
  call (CreateNode (node id EffectGainN)) ;;
  call (SetFrequency (node id Oscillator3N) midiNote 3) ;;
  call (CreateNode (node id Oscillator4N)) ;;
  call (CreateNode (node id ExperimentalGainN)) ;;
  call (SetFrequency (node id Oscillator4N) midiNote 0.5).

(** The wiring common to all materials. *)
Definition connectNodes (id : nat) : M unit :=
  call (Connect (node id Oscillator3N) (ToNode (node id EffectGainN))) ;;
  call (Connect (node id EffectGainN) (ToNode (node id FilterN))) ;;
  call (Connect (node id Oscillator2N) (ToNode (node id HarmonicGainN))) ;;
  call (Connect (node id HarmonicGainN) (ToNode (node id FilterN))) ;;
  call (SetGain (node id NoteGainN) 0) ;;
  call (Connect (node id OscillatorN) (ToNode (node id FilterN))) ;;
  call (Connect (node id FilterN) (ToNode (node id NoteGainN))) ;;
  call (Connect (node id NoteGainN) ToMasterGain).

(** Attack, then decay to the sustain level. *)
Definition scheduleEnvelope (B : Backend) (d : Dims.t) (velocity : Q)
    (id : nat) (now : Q) : M unit :=
  risky B (SetValueAtTime (node id NoteGainN) 0 now) ;;
  risky B (LinearRamp (node id NoteGainN) velocity (now + attackTime d)) ;;
  risky B (LinearRamp (node id NoteGainN) (sustainLevel d * velocity)
             (now + attackTime d + decayTime d)).

(** Three oscillators start; the fourth only for the material
    ["experimental"]. *)
Definition startOscillators (m : string) (id : nat) (now : Q) : M unit :=
  call (Start (node id OscillatorN) now) ;;
  call (Start (node id Oscillator2N) now) ;;
  call (Start (node id Oscillator3N) now) ;;
  when (String.eqb m "experimental") (call (Start (node id Oscillator4N) now)).

(** The object literal stored in [activeNotes]. *)
Definition newVoice (m : string) (d : Dims.t) (id : nat) : Voice :=
  {| Note.vid := id;
     Note.oscillator := node id OscillatorN;
     Note.oscillator2 := node id Oscillator2N;
     Note.oscillator3 := node id Oscillator3N;
     Note.oscillator4 :=
       if String.eqb m "experimental" then Some (node id Oscillator4N) else None;
     Note.noteGain := node id NoteGainN;
     Note.filter := node id FilterN;
     Note.harmonicGain := node id HarmonicGainN;
     Note.effectGain := node id EffectGainN;
     Note.experimentalGain :=
       if String.eqb m "experimental" then Some (node id ExperimentalGainN)
       else None;
     Note.releaseTime := releaseTime d |}.

(** The part of [playNote] after its guards, in the order of the source:
    create the nodes, apply the material, wire, schedule the envelope,
    start the oscillators and store the voice. *)
Definition startVoice (B : Backend) (midiNote : Z) (velocity : Q) : M unit :=
  id <- gets nextObject ;;
  modify (set_nextObject (S id)) ;;
  createNodes midiNote id ;;
  m <- gets material ;;
  d <- gets dimensions ;;
  materialRecipe m d midiNote id ;;
  connectNodes id ;;
  now <- gets currentTime ;;
  scheduleEnvelope B d velocity id now ;;
  startOscillators m id now ;;
  storeNote midiNote (newVoice m d id).

(** [playNote(midiNote, velocity)] *)
Definition playNote (B : Backend) (midiNote : Z) (velocity : Q) : M unit :=
  o <- lookupNote midiNote ;;
  when (bool_decide (is_Some o)) (forceStopNote B midiNote) ;;
  built <- gets isBuilt ;;
  if negb built then console WarnLevel PianoNotBuilt
  else
    o' <- lookupNote midiNote ;;
    when (bool_decide (is_Some o')) (stopNote B midiNote) ;;
    startVoice B midiNote velocity.

(** ** Building and reshaping the instrument *)

(** [buildPiano()].  The text of the sound description shown to the user
    is presentation only and is left out. *)
Definition buildPiano (B : Backend) : M unit :=
  modify (set_isBuilt true) ;;
  console LogLevel BuildingPiano ;;
  stopAllNotes B true ;;
  console LogLevel PianoBuilt.

(** The rest of the [if (this.isBuilt)] block of [setDimensions], after
    the sounding voices have been released: master gain, wave shaper,
    rebuild.  The wave shaper is kept as the amount its curve was made
    for.  A new wave shaper is created, given its curve and wired in by
    calls that cannot fail; when there is one already, its curve is
    assigned again, which is a call the backend may refuse, and then the
    amount stays what it was.  The master gain is a rational number here,
    hence finite, and its assignment cannot fail. *)
Definition reshape (B : Backend) (length width height : Q) : M unit :=
  let volumeFactor := volumeFactor length width height in
  console LogLevel (AdjustingMasterVolume volumeFactor) ;;
  modify (set_masterGain (masterGainFor volumeFactor)) ;;
  dist <- gets distortion ;;
  (if Qgtb volumeFactor 1.2 then
     console LogLevel HarmonicEnhancement ;;
     match dist with
     | None => modify (set_distortion (Some (volumeFactor * 30)))
     | Some _ =>
         risky B (SetCurveAgain (volumeFactor * 30)) ;;
         modify (set_distortion (Some (volumeFactor * 30)))
     end
   else
     when (bool_decide (is_Some dist)) (modify (set_distortion None))) ;;
  buildPiano B.

(** [setDimensions(length, width, height)] *)
Definition setDimensions (B : Backend) (length width height : Q) : M unit :=
  modify (set_dimensions {| Dims.length := length; Dims.width := width;
                            Dims.height := height |}) ;;
  console LogLevel (DimensionsUpdated length width height) ;;
  built <- gets isBuilt ;;
  when built (stopAllNotes B false ;; reshape B length width height).

(** [setMaterial(material)] *)
Definition setMaterial (B : Backend) (m : string) : M unit :=
  modify (set_material m) ;;
  built <- gets isBuilt ;;
  when built (buildPiano B).

(** ** Event streams *)

(** What can happen to a [PianoModel]: a call of one of its methods, a
    timer that fires, or the audio clock moving on. *)
Inductive Op :=
  | PlayNote (midiNote : Z) (velocity : Q)
  | StopNote (midiNote : Z)
  | ForceStopNote (midiNote : Z)
  | StopAllNotes (immediate : bool)
  | SetDimensions (length width height : Q)
  | SetMaterial (m : string)
  | BuildPiano
  | FireTimer (i : nat)
  | Advance (dt : Q).

Definition run_op (B : Backend) (op : Op) : M unit :=
  match op with
  | PlayNote midiNote velocity => playNote B midiNote velocity
  | StopNote midiNote => stopNote B midiNote
  | ForceStopNote midiNote => forceStopNote B midiNote
  | StopAllNotes immediate => stopAllNotes B immediate
  | SetDimensions l w h => setDimensions B l w h
  | SetMaterial m => setMaterial B m
  | BuildPiano => buildPiano B
  | FireTimer i => fireTimer i
  | Advance dt => modify (λ s, set_currentTime (currentTime s + dt) s)
  end.

(** An exception of one event reaches the event loop and the next event
    runs on the state it left. *)
Definition run (B : Backend) (ops : list Op) (s : PianoModel) : PianoModel :=
  foldl (λ s op, exec (run_op B op) s) s ops.

(** The states an instrument can be in: those that some event stream
    reaches from a new [PianoModel]. *)
Definition reachable (B : Backend) (s : PianoModel) : Prop :=
  ∃ ops, s = run B ops constructor.

(** Backends for concrete runs: one that accepts every call, one that
    refuses every call it is asked about, and the rules of Web Audio: a
    negative time is a [RangeError], and [stop] on an oscillator that was
    not started is an [InvalidStateError]. *)
Definition quiet : Backend := λ _ _, false.
Definition hostile : Backend := λ _ _, true.

Definition is_start_of (n : Node) (c : AudioCall) : bool :=
  match c with
  | Start (id, r) _ => Nat.eqb id (fst n) && bool_decide (r = snd n)
  | _ => false
  end.

Definition strict : Backend :=
  λ log c,
    match c with
    | Stop n t => negb (existsb (is_start_of n) log) || Qgtb 0 t
    | SetValueAtTime _ _ t | CancelScheduledValues _ t
    | HoldValue _ t | LinearRamp _ _ t => Qgtb 0 t
    | _ => false
    end.

(** The rules of Web Audio with the one for the wave shaper added: a
    curve that has been set cannot be set again, which is an
    [InvalidStateError]. *)
Definition webAudio : Backend :=
  λ log c,
    match c with
    | SetCurveAgain _ => true
    | _ => strict log c
    end.

(** The oscillators started so far, in order. *)
Definition started (log : list AudioCall) : list Node :=
  omap (λ c, match c with Start n _ => Some n | _ => None end) log.

(** ** The build button of [main.js] *)

(** The click on the build button in [main.js]: the dimensions of the
    editor go to [setDimensions], then the instrument is built. *)
Definition buildClick (B : Backend) (length width height : Q) : M unit :=
  setDimensions B length width height ;;
  buildPiano B.

(** * The MIDI controller and the virtual keyboard *)

(** What [MidiController] and [main.js] write to the console; the note
    names in the texts are presentation and are left out. *)
Inductive AppReport :=
  | MidiNoteOn (note : Z) (velocity : Q)
  | MidiNoteOffViaNoteOn (note : Z)
  | MidiNoteOff (note : Z)
  | OutsideKeyboardRange (note startNote endNote : Z)
  | KeyElementNotFound (note : Z)
  | KeyboardRange (pianoWidth : Q) (numWhiteKeys startNote endNote : Z)
  | SafetyCheckFound (count : nat)
  | SafetyForceStopped (midiNote : Z).

(** A key element of the virtual keyboard: [dataset.note], the colour of
    its class, whether it has the class [active], and whether
    [dataset.isPlaying] is ['true']. *)
Record KeyElement := {
  k_note : Z;
  k_black : bool;
  k_active : bool;
  k_isPlaying : bool
}.

Definition set_active (b : bool) (k : KeyElement) : KeyElement :=
  {| k_note := k_note k; k_black := k_black k; k_active := b;
     k_isPlaying := k_isPlaying k |}.

Definition set_isPlaying (b : bool) (k : KeyElement) : KeyElement :=
  {| k_note := k_note k; k_black := k_black k; k_active := k_active k;
     k_isPlaying := b |}.

(** A [MidiController].  [pianoModel] is the engine it was given, the one
    object that [main.js] drives as well; [keyboard] lists the children of
    the keyboard element in document order. *)
Record MidiController := {
  pianoModel : PianoModel;
  startNote : Z;
  endNote : Z;
  pianoWidth : Q;
  keyboard : list KeyElement;
  pressedKeys : gset string;
  consoleLog : list AppReport
}.

Definition set_pianoModel (p : PianoModel) (c : MidiController) : MidiController :=
  {| pianoModel := p; startNote := startNote c; endNote := endNote c;
     pianoWidth := pianoWidth c; keyboard := keyboard c;
     pressedKeys := pressedKeys c; consoleLog := consoleLog c |}.

Definition set_keyboardConfig (startNote' endNote' : Z) (c : MidiController) : MidiController :=
  {| pianoModel := pianoModel c; startNote := startNote'; endNote := endNote';
     pianoWidth := pianoWidth c; keyboard := keyboard c;
     pressedKeys := pressedKeys c; consoleLog := consoleLog c |}.

Definition set_pianoWidth (w : Q) (c : MidiController) : MidiController :=
  {| pianoModel := pianoModel c; startNote := startNote c; endNote := endNote c;
     pianoWidth := w; keyboard := keyboard c;
     pressedKeys := pressedKeys c; consoleLog := consoleLog c |}.

Definition set_keyboard (ks : list KeyElement) (c : MidiController) : MidiController :=
  {| pianoModel := pianoModel c; startNote := startNote c; endNote := endNote c;
     pianoWidth := pianoWidth c; keyboard := ks;
     pressedKeys := pressedKeys c; consoleLog := consoleLog c |}.

Definition set_pressedKeys (ps : gset string) (c : MidiController) : MidiController :=
  {| pianoModel := pianoModel c; startNote := startNote c; endNote := endNote c;
     pianoWidth := pianoWidth c; keyboard := keyboard c;
     pressedKeys := ps; consoleLog := consoleLog c |}.

Definition set_consoleLog (l : list AppReport) (c : MidiController) : MidiController :=
  {| pianoModel := pianoModel c; startNote := startNote c; endNote := endNote c;
     pianoWidth := pianoWidth c; keyboard := keyboard c;
     pressedKeys := pressedKeys c; consoleLog := l |}.

(** The methods of the controller: state passing over [MidiController],
    with the exceptions of the engine passing through. *)
Definition MC (A : Type) : Type := MidiController → Outcome A * MidiController.

Definition retC {A} (a : A) : MC A := λ c, (Returned a, c).

Definition bindC {A B} (m : MC A) (k : A → MC B) : MC B :=
  λ c, match m c with
       | (Returned a, c') => k a c'
       | (Thrown e, c') => (Thrown e, c')
       end.

Declare Scope controller_scope.
Notation "x <- m ;; k" := (bindC m (λ x, k))
  (at level 100, m at next level, right associativity) : controller_scope.
Notation "m ;; k" := (bindC m (λ _, k))
  (at level 100, right associativity) : controller_scope.
Local Open Scope controller_scope.

Definition getsC {A} (f : MidiController → A) : MC A := λ c, (Returned (f c), c).
Definition modifyC (f : MidiController → MidiController) : MC unit :=
  λ c, (Returned tt, f c).

(** [this.pianoModel.method(...)]: the method runs on the shared engine. *)
Definition engine {A} (m : M A) : MC A :=
  λ c, match m (pianoModel c) with
       | (r, p) => (r, set_pianoModel p c)
       end.

Definition consoleC (r : AppReport) : MC unit :=
  modifyC (λ c, set_consoleLog (consoleLog c ++ [r]) c).

Definition execC {A} (m : MC A) (c : MidiController) : MidiController := snd (m c).

Definition returnsC {A} (m : MC A) (c : MidiController) : bool :=
  match fst (m c) with Returned _ => true | Thrown _ => false end.

Fixpoint forEachC {A} (xs : list A) (f : A → MC unit) : MC unit :=
  match xs with
  | [] => retC tt
  | x :: xs' => f x ;; forEachC xs' f
  end.

(** ** The keys on screen *)

(** [![1, 3, 6, 8, 10].includes(note % 12)]; [%] is the remainder of
    JavaScript, with the sign of the dividend. *)
Definition isWhite (note : Z) : bool :=
  negb (bool_decide (Z.rem note 12 ∈ [1; 3; 6; 8; 10]%Z)).

(** The notes of the white keys, in the order of the first loop of
    [createVirtualKeyboard]. *)
Definition whiteNotes (startNote endNote : Z) : list Z :=
  List.filter isWhite (seqZ startNote (endNote - startNote + 1)).

(** The second loop: a black key between two neighbouring white keys
    that are two semitones apart. *)
Fixpoint blackNotes (whiteKeys : list Z) : list Z :=
  match whiteKeys with
  | [] => []
  | whiteNote :: rest =>
      match rest with
      | [] => []
      | nextWhiteNote :: _ =>
          (if (nextWhiteNote - whiteNote =? 2)%Z then [(whiteNote + 1)%Z] else [])
          ++ blackNotes rest
      end
  end.

Definition newKey (black : bool) (note : Z) : KeyElement :=
  {| k_note := note; k_black := black; k_active := false; k_isPlaying := false |}.

(** [createVirtualKeyboard()]: the old keys go, the white keys of the
    range are appended, then the black ones. *)
Definition createVirtualKeyboard : MC unit :=
  modifyC (λ c,
    let whiteKeys := whiteNotes (startNote c) (endNote c) in
    set_keyboard (map (newKey false) whiteKeys ++
                  map (newKey true) (blackNotes whiteKeys)) c).

(** [querySelector('[data-note=...]')]: the first key of the note, with
    its position.  The fallback [getElementById('key' + note)] finds the
    same elements, the only ones with such an id. *)
Definition findKey (note : Z) (ks : list KeyElement) : option (nat * KeyElement) :=
  list_find (λ k, k_note k = note) ks.

(** [updateKeyUI(note, isActive)] *)
Definition updateKeyUI (note : Z) (isActive : bool) : MC unit :=
  ks <- getsC keyboard ;;
  match findKey note ks with
  | Some (i, k) => modifyC (set_keyboard (<[i := set_active isActive k]> ks))
  | None => consoleC (KeyElementNotFound note)
  end.

(** ** Notes *)

(** [noteOn(note, velocity)] *)
Definition noteOn (B : Backend) (note : Z) (velocity : Q) : MC unit :=
  lo <- getsC startNote ;;
  hi <- getsC endNote ;;
  if (note <? lo)%Z || (hi <? note)%Z then
    consoleC (OutsideKeyboardRange note lo hi)
  else
    engine (forceStopNote B note) ;;
    engine (playNote B note velocity) ;;
    updateKeyUI note true.

(** [noteOff(note)] *)
Definition noteOff (B : Backend) (note : Z) : MC unit :=
  lo <- getsC startNote ;;
  hi <- getsC endNote ;;
  if (note <? lo)%Z || (hi <? note)%Z then retC tt
  else
    engine (forceStopNote B note) ;;
    engine (stopNote B note) ;;
    updateKeyUI note false.

(** [handleMIDIMessage(message)] for the three bytes of [message.data]. *)
Definition handleMIDIMessage (B : Backend) (data0 data1 data2 : Z) : MC unit :=
  let command := Z.land data0 0xF0 in
  let note := data1 in
  let velocity := inject_Z data2 / 127 in
  if (command =? 0x90)%Z then
    if Qgtb velocity 0 then
      consoleC (MidiNoteOn note velocity) ;;
      engine (forceStopNote B note) ;;
      noteOn B note velocity
    else
      consoleC (MidiNoteOffViaNoteOn note) ;;
      noteOff B note
  else if (command =? 0x80)%Z then
    consoleC (MidiNoteOff note) ;;
    engine (forceStopNote B note) ;;
    noteOff B note
  else retC tt.

(** ** Mouse and touch on a key *)



(** [clearAllPlayingFlags()]: the keys that are marked as playing when
    the method starts. *)
Definition playingKeys (ks : list KeyElement) : list nat :=
  List.filter (λ i, match ks !! i with Some k => k_isPlaying k | None => false end)
    (seq 0 (length ks)).

(** The callback of its [forEach], for the [i]-th key of the list [ks]
    that [querySelectorAll] returned. *)
Definition stopPlayingKey (B : Backend) (ks : list KeyElement) (i : nat) : MC unit :=
  match ks !! i with
  | None => retC tt
  | Some k =>
      engine (stopNote B (k_note k)) ;;
      updateKeyUI (k_note k) false ;;
      modifyC (λ c,
        match keyboard c !! i with
        | Some k' => set_keyboard (<[i := set_isPlaying false k']> (keyboard c)) c
        | None => c
        end)
  end.

Definition clearAllPlayingFlags (B : Backend) : MC unit :=
  ks <- getsC keyboard ;;
  forEachC (playingKeys ks) (stopPlayingKey B ks).

(** ** The computer keyboard *)

(** [this.keyboardMapping], in the order it is written. *)
Definition keyboardMapping : list (string * Z) :=
  [("z", 48); ("s", 49); ("x", 50); ("d", 51); ("c", 52); ("v", 53);
   ("g", 54); ("b", 55); ("h", 56); ("n", 57); ("j", 58); ("m", 59);
   ("q", 60); ("2", 61); ("w", 62); ("3", 63); ("e", 64); ("r", 65);
   ("5", 66); ("t", 67); ("6", 68); ("y", 69); ("7", 70); ("u", 71);
   ("i", 72)]%Z.

(** The note that the table itself holds for [key]: its own properties,
    which are what [Object.entries] enumerates. *)
Definition mappedNote (key : string) : option Z :=
  snd <$> List.find (λ e, String.eqb (fst e) key) keyboardMapping.

(** The table is an object literal, so that it inherits the properties
    of [Object.prototype].  Each of them is a function, or, for
    [__proto__], the prototype itself, and so passes the test
    [if (note)]. *)
Definition objectPrototype : list string :=
  ["constructor"; "hasOwnProperty"; "isPrototypeOf"; "propertyIsEnumerable";
   "toLocaleString"; "toString"; "valueOf"; "__proto__";
   "__defineGetter__"; "__defineSetter__";
   "__lookupGetter__"; "__lookupSetter__"].

(** What a property access on the table gives. *)
Inductive Property :=
  | OwnNote (note : Z)
  | InheritedValue (name : string)
  | Undefined.

(** [this.keyboardMapping[key]]: the own property if the table has one,
    else the inherited one, else [undefined]. *)
Definition keyboardMappingAt (key : string) : Property :=
  match mappedNote key with
  | Some note => OwnNote note
  | None =>
      if bool_decide (key ∈ objectPrototype) then InheritedValue key
      else Undefined
  end.

(** [Object.entries(this.keyboardMapping)]: the keys that are array
    indices come first, in ascending order (the order they are written
    in), then the others in the order of insertion. *)
Definition isIndexKey (key : string) : bool :=
  bool_decide (key ∈ ["2"; "3"; "5"; "6"; "7"]).

Definition entries : list (string * Z) :=
  List.filter (λ e, isIndexKey (fst e)) keyboardMapping ++
  List.filter (λ e, negb (isIndexKey (fst e))) keyboardMapping.

(** [getComputerKeyForNote(midiNote)] *)
Definition getComputerKeyForNote (midiNote : Z) : option string :=
  fst <$> List.find (λ e, (snd e =? midiNote)%Z) entries.

Section Keys.
(** [String.prototype.toLowerCase], left open. *)
Variable toLowerCase : string → string.

(** [noteOn] and [noteOff] when they are handed the inherited property
    of that name instead of a number, left open. *)
Variable noteOnObject : string → MC unit.
Variable noteOffObject : string → MC unit.

(** The [keydown] listener; [typing] says that the target of the event
    is an [INPUT] or a [SELECT]. *)
Definition keydown (B : Backend) (key : string) (typing : bool) : MC unit :=
  pressed <- getsC pressedKeys ;;
  if bool_decide (key ∈ pressed) || typing then retC tt
  else
    match keyboardMappingAt (toLowerCase key) with
    | OwnNote note =>
        noteOn B note 0.7 ;;
        modifyC (λ c, set_pressedKeys ({[key]} ∪ pressedKeys c) c)
    | InheritedValue name =>
        noteOnObject name ;;
        modifyC (λ c, set_pressedKeys ({[key]} ∪ pressedKeys c) c)
    | Undefined => retC tt
    end.

(** The [keyup] listener. *)
Definition keyup (B : Backend) (key : string) : MC unit :=
  match keyboardMappingAt (toLowerCase key) with
  | OwnNote note =>
      noteOff B note ;;
      modifyC (λ c, set_pressedKeys (pressedKeys c ∖ {[key]}) c)
  | InheritedValue name =>
      noteOffObject name ;;
      modifyC (λ c, set_pressedKeys (pressedKeys c ∖ {[key]}) c)
  | Undefined => retC tt
  end.
End Keys.

(** The [blur] listener of the window. *)
Definition blur (B : Backend) : MC unit :=
  modifyC (set_pressedKeys ∅) ;;
  engine (stopAllNotes B false) ;;
  clearAllPlayingFlags B.

(** ** The range of the keyboard *)

(** The range [updateKeyboardRange] computes from the number of white
    keys that fit, [Math.floor(pianoWidth / 2.3)].  That number is the
    argument here, so that what is proved of the range does not depend on
    how the division is rounded. *)
Definition keyboardRange (idealNumWhiteKeys : Z) : Z * Z * Z :=
  let numWhiteKeys := Z.max 7 (Z.min 52 idealNumWhiteKeys) in
  let octaves := (numWhiteKeys / 7)%Z in
  let startNote := (60 - (octaves / 2) * 12)%Z in
  let endNote := (startNote + (octaves * 7) * 12 / 7)%Z in
  let startNote := (startNote / 12 * 12)%Z in
  (numWhiteKeys, startNote, endNote).

(** [updateKeyboardRange(pianoWidth)] *)
Definition updateKeyboardRange (width : Q) : MC unit :=
  modifyC (set_pianoWidth width) ;;
  match keyboardRange (Qfloor (width / 2.3)) with
  | (numWhiteKeys, startNote, endNote) =>
      modifyC (set_keyboardConfig startNote endNote) ;;
      createVirtualKeyboard ;;
      consoleC (KeyboardRange width numWhiteKeys startNote endNote)
  end.

(** [new MidiController(pianoModel)].  [initMIDI] asks the browser for
    its MIDI inputs and hands their messages to [handleMIDIMessage]; it
    is left out. *)
Definition newMidiController (p : PianoModel) : MidiController :=
  execC createVirtualKeyboard
    {| pianoModel := p; startNote := 48; endNote := 72; pianoWidth := 150;
       keyboard := []; pressedKeys := ∅; consoleLog := [] |}.

(** ** [main.js] *)

(** The sweep that [main.js] runs every five seconds. *)
Definition safetySweep (B : Backend) : MC unit :=
  keys <- getsC (λ c, noteNumbers (pianoModel c)) ;;
  if (0 <? length keys)%nat then
    consoleC (SafetyCheckFound (length keys)) ;;
    forEachC keys (λ midiNote,
      engine (forceStopNote B midiNote) ;;
      consoleC (SafetyForceStopped midiNote))
  else retC tt.

Local Close Scope controller_scope.

(** * The editor of the dimensions *)

(** The part of a [PianoUI] that the dimensions depend on:
    [pianoParams] and [maxDimensions]. *)
Record PianoUI := {
  pianoParams : Dims.t;
  maxDimensions_width : Q;
  maxDimensions_length : Q
}.

(** [new PianoUI(canvasId)]: the limits that the first [resizeCanvas]
    computed are overwritten by 320 and 300. *)
Definition newPianoUI : PianoUI := {|
  pianoParams := {| Dims.length := 160; Dims.width := 220; Dims.height := 40 |};
  maxDimensions_width := 320;
  maxDimensions_length := 300
|}.

(** [resizeCanvas()], for the size of the container. *)
Definition resizeCanvas (containerWidth containerHeight : Q) (ui : PianoUI) : PianoUI :=
  let scale := Qmin (containerWidth * 0.75) (containerHeight * 0.75) / Qmax 220 160 in
  {| pianoParams := pianoParams ui;
     maxDimensions_width := Qmin (containerWidth * 0.8 / scale) 320;
     maxDimensions_length := Qmin (containerHeight * 0.8 / scale) 300 |}.

Inductive PointType := EdgePoint | CornerPoint | HeightPoint.
Inductive Dimension := WidthD | LengthD | HeightD.

#[global] Instance Dimension_eq_dec : EqDecision Dimension.
Proof. solve_decision. Defined.

(** A control point: its [type] and what it [affects]. *)
Record ControlPoint := {
  cp_type : PointType;
  cp_affects : list Dimension
}.

(** The nine control points of [updateControlPoints], without their
    positions. *)
Definition controlPoints : list ControlPoint :=
  [ {| cp_type := EdgePoint; cp_affects := [LengthD] |};
    {| cp_type := EdgePoint; cp_affects := [WidthD] |};
    {| cp_type := EdgePoint; cp_affects := [LengthD] |};
    {| cp_type := EdgePoint; cp_affects := [WidthD] |};
    {| cp_type := CornerPoint; cp_affects := [WidthD; LengthD] |};
    {| cp_type := CornerPoint; cp_affects := [WidthD; LengthD] |};
    {| cp_type := CornerPoint; cp_affects := [WidthD; LengthD] |};
    {| cp_type := CornerPoint; cp_affects := [WidthD; LengthD] |};
    {| cp_type := HeightPoint; cp_affects := [HeightD] |} ].

Definition set_width (w : Q) (ui : PianoUI) : PianoUI :=
  {| pianoParams := {| Dims.length := Dims.length (pianoParams ui);
                       Dims.width := w;
                       Dims.height := Dims.height (pianoParams ui) |};
     maxDimensions_width := maxDimensions_width ui;
     maxDimensions_length := maxDimensions_length ui |}.

Definition set_length (l : Q) (ui : PianoUI) : PianoUI :=
  {| pianoParams := {| Dims.length := l;
                       Dims.width := Dims.width (pianoParams ui);
                       Dims.height := Dims.height (pianoParams ui) |};
     maxDimensions_width := maxDimensions_width ui;
     maxDimensions_length := maxDimensions_length ui |}.

Definition set_height (h : Q) (ui : PianoUI) : PianoUI :=
  {| pianoParams := {| Dims.length := Dims.length (pianoParams ui);
                       Dims.width := Dims.width (pianoParams ui);
                       Dims.height := h |};
     maxDimensions_width := maxDimensions_width ui;
     maxDimensions_length := maxDimensions_length ui |}.

(** The dragging branch of the mouse-move handler for the active
    control point.  The three candidates are what the handler computes
    from the pointer: [|mouseX - centerX| * 2 / scale],
    [|mouseY - centerY| * 2 / scale] and [distance / scale * 2]; the
    geometry behind them is left out and they are taken as given. *)
Definition drag (activePoint : ControlPoint) (fromX fromY fromCentre : Q)
    (ui : PianoUI) : PianoUI :=
  match cp_type activePoint with
  | EdgePoint | CornerPoint =>
      let ui1 :=
        if bool_decide (WidthD ∈ cp_affects activePoint) then
          let currentWidth := Dims.width (pianoParams ui) in
          let newWidth := Qmax 120 (Qmin (maxDimensions_width ui) fromX) in
          set_width (currentWidth * 0.7 + newWidth * 0.3) ui
        else ui in
      if bool_decide (LengthD ∈ cp_affects activePoint) then
        let currentLength := Dims.length (pianoParams ui1) in
        let newLength := Qmax 120 (Qmin (maxDimensions_length ui1) fromY) in
        set_length (currentLength * 0.7 + newLength * 0.3) ui1
      else ui1
  | HeightPoint =>
      let currentHeight := Dims.height (pianoParams ui) in
      let newHeight := Qmax 30 (Qmin 70 fromCentre) in
      set_height (currentHeight * 0.7 + newHeight * 0.3) ui
  end.

(** [getPianoParams()] *)
Definition getPianoParams (ui : PianoUI) : Dims.t := pianoParams ui.

(** What happens to the editor: the window is resized, or a control
    point is dragged. *)
Inductive EditorEvent :=
  | Resize (containerWidth containerHeight : Q)
  | Drag (activePoint : ControlPoint) (fromX fromY fromCentre : Q).

Definition editor_step (ui : PianoUI) (e : EditorEvent) : PianoUI :=
  match e with
  | Resize w h => resizeCanvas w h ui
  | Drag point x y d => drag point x y d ui
  end.

Definition editor_run (events : list EditorEvent) (ui : PianoUI) : PianoUI :=
  foldl editor_step ui events.

(** * Vocabulary of the properties *)

(** A computation that never throws. *)
Definition total {A} (m : M A) : Prop := ∀ s, returns m s = true.

(** A computation whose every run relates the state before to the state
    after. *)
Definition respects (R : relation PianoModel) {A} (m : M A) : Prop :=
  ∀ s, R s (exec m s).

(** The nodes created so far, in order. *)
Definition created (log : list AudioCall) : list Node :=
  omap (λ c, match c with CreateNode n => Some n | _ => None end) log.

(** Calls that create nothing and start nothing. *)
Definition is_control (c : AudioCall) : bool :=
  match c with
  | SetValueAtTime _ _ _ | CancelScheduledValues _ _ | HoldValue _ _
  | LinearRamp _ _ _ | Stop _ _ => true
  | _ => false
  end.

(** [logs_only s s']: nothing but the two logs differs. *)
Definition logs_only (s s' : PianoModel) : Prop :=
  ∃ cs rs, s' = set_reports rs (set_calls cs s).

(** [settles s s']: what a computation that only stops voices can do.  It
    may drop registry entries, add timers, and log control calls and
    reports; it creates and starts nothing and leaves the configuration of
    the instrument alone. *)
Record settles (s s' : PianoModel) : Prop := {
  settles_isBuilt : isBuilt s' = isBuilt s;
  settles_dimensions : dimensions s' = dimensions s;
  settles_material : material s' = material s;
  settles_masterGain : masterGain s' = masterGain s;
  settles_distortion : distortion s' = distortion s;
  settles_notes : activeNotes s' ⊆ activeNotes s;
  settles_time : currentTime s' = currentTime s;
  settles_next : nextObject s' = nextObject s;
  settles_started : started (calls s') = started (calls s);
  settles_created : created (calls s') = created (calls s)
}.

(** [evolves s s']: what any event can do to the registry.  A built
    instrument stays built, the allocation counter does not go back,
    every voice registered afterwards was registered before or was
    allocated in between, and an instrument that is still not built has
    gained no voice. *)
Record evolves (s s' : PianoModel) : Prop := {
  evolves_isBuilt : isBuilt s = true → isBuilt s' = true;
  evolves_next : (nextObject s ≤ nextObject s')%nat;
  evolves_notes : ∀ p v,
    activeNotes s' !! p = Some v →
    activeNotes s !! p = Some v ∨
    (nextObject s ≤ Note.vid v < nextObject s')%nat;
  evolves_unbuilt : isBuilt s' = false → activeNotes s' ⊆ activeNotes s
}.

(** Every registered voice was allocated, and an instrument that was
    never built has no voice. *)
Definition wf (s : PianoModel) : Prop :=
  (∀ p v, activeNotes s !! p = Some v → (Note.vid v < nextObject s)%nat) ∧
  (isBuilt s = false → activeNotes s = ∅).

(** A stream in which a pitch is released and struck again before the
    timers of the release have run. *)
Definition retrigger : list Op :=
  [BuildPiano; PlayNote 60 0.7; StopNote 60; PlayNote 60 0.7].

(** The value in hertz that a call gives to [frequency.value]. *)
Definition hertz (c : AudioCall) : option R :=
  match c with
  | SetFrequency _ midiNote k => Some (Q2R k * frequency midiNote)%R
  | _ => None
  end.

(** The state in which [setDimensions] finds the instrument after it has
    stored and reported the new dimensions. *)
Definition withDimensions (l w h : Q) (s : PianoModel) : PianoModel :=
  set_reports (reports s ++ [(LogLevel, DimensionsUpdated l w h)])
    (set_dimensions {| Dims.length := l; Dims.width := w; Dims.height := h |} s).



(** A built instrument of the default shape on which pitch 60 sounds. *)
Definition sounding : PianoModel :=
  run quiet [BuildPiano; PlayNote 60 0.7] constructor.

(** A built plastic instrument, silent. *)
Definition plasticPiano : PianoModel :=
  run quiet [BuildPiano; SetMaterial "plastic"] constructor.

(** ** Vocabulary for the force stop *)

(** The three calls that take the gain [g] to zero at [t]. *)
Definition rampCalls (g : Node) (now t : Q) : list AudioCall :=
  [CancelScheduledValues g now; HoldValue g now; LinearRamp g 0 t].

(** What [forceStopNote] asks of the backend for a voice at time [now]:
    every gain of the voice is held and taken to zero within 5 ms, then
    every oscillator of the voice is told to stop after 10 ms. *)
Definition forceStopCalls (note : Voice) (now : Q) : list AudioCall :=
  rampCalls (Note.noteGain note) now (now + 0.005) ++
  rampCalls (Note.harmonicGain note) now (now + 0.005) ++
  rampCalls (Note.effectGain note) now (now + 0.005) ++
  match Note.experimentalGain note with
  | Some g => rampCalls g now (now + 0.005)
  | None => []
  end ++
  [Stop (Note.oscillator note) (now + 0.01);
   Stop (Note.oscillator2 note) (now + 0.01);
   Stop (Note.oscillator3 note) (now + 0.01)] ++
  match Note.oscillator4 note with
  | Some o => [Stop o (now + 0.01)]
  | None => []
  end.

(** The calls of a list that the backend takes when they are made one
    after the other: all of them up to the first that it refuses. *)
Fixpoint accepted (B : Backend) (log : list AudioCall) (cs : list AudioCall) :
    list AudioCall :=
  match cs with
  | [] => []
  | c :: cs' => if B log c then [] else c :: accepted B (log ++ [c]) cs'
  end.

(** Does the backend refuse one of them? *)
Fixpoint refuses (B : Backend) (log : list AudioCall) (cs : list AudioCall) : bool :=
  match cs with
  | [] => false
  | c :: cs' => B log c || refuses B (log ++ [c]) cs'
  end.

(** [tracks B cs m]: the computation [m] makes the calls [cs] in this
    order and nothing else; it stops and throws at the first call that
    the backend refuses, and returns when none is refused. *)
Definition tracks (B : Backend) (cs : list AudioCall) (m : M unit) : Prop :=
  ∀ s,
    if refuses B (calls s) cs
    then ∃ c, m s = (Thrown c, set_calls (calls s ++ accepted B (calls s) cs) s)
    else m s = (Returned tt, set_calls (calls s ++ cs) s).

(** The voices registered, by ascending note number: the snapshot that
    [stopAllNotes] takes. *)
Definition registeredVoices (s : PianoModel) : list Voice :=
  omap (λ p, activeNotes s !! p) (noteNumbers s).

(** The note numbers that the console reports as force-stopped, in the
    order of the reports. *)
Definition forceStopped (rs : list (Level * Report)) : list Z :=
  omap (λ r, match r.2 with ForceStopped p => Some p | _ => None end) rs.

(** The backend log after the voices [vs] have been force-stopped one
    after the other at time [now], each as far as the backend lets it. *)
Definition forceStopLog (B : Backend) (now : Q) (log : list AudioCall)
    (vs : list Voice) : list AudioCall :=
  foldl (λ log v, log ++ accepted B log (forceStopCalls v now)) log vs.

(** ** Vocabulary for the voices that sound *)

(** The generations whose fundamental oscillator was given the frequency
    of the pitch [p], in the order of their creation. *)
Definition fundamentals (p : Z) (log : list AudioCall) : list nat :=
  omap (λ c, match c with
             | SetFrequency (g, OscillatorN) q _ =>
                 if bool_decide (q = p) then Some g else None
             | _ => None
             end) log.

(** Has the backend been asked to silence the voice of generation [g]:
    to stop one of its nodes, or to take its gain to zero? *)
Definition silenced (g : nat) (log : list AudioCall) : bool :=
  existsb (λ c, match c with
                | Stop (g', _) _ => Nat.eqb g' g
                | LinearRamp (g', NoteGainN) value _ =>
                    Nat.eqb g' g && Qeq_bool value 0
                | _ => false
                end) log.

(** The voices of pitch [p] that sound and will go on sounding: their
    fundamental oscillator was started and the backend was never asked to
    stop a node of theirs or to take their gain to zero. *)
Definition soundingAt (p : Z) (log : list AudioCall) : list nat :=
  List.filter
    (λ g, existsb (is_start_of (g, OscillatorN)) log && negb (silenced g log))
    (fundamentals p log).

(** A pitch is released, struck again while its first voice fades, the
    primary timer of the release runs when it is due, 480 ms after the
    release, and a second later the pitch is struck once more. *)
Definition orphaning : list Op :=
  [BuildPiano; PlayNote 60 0.7; Advance 1; StopNote 60; Advance 0.2;
   PlayNote 60 0.7; Advance 0.28; FireTimer 0; Advance 1; PlayNote 60 0.7].

(** ** Vocabulary for the release, the controller and the editor *)

(** The release part of [stopNote]: the ramps of the gains to zero and
    the [stop] calls in their [try] block. *)
Definition releaseVoice (B : Backend) (note : Voice) (now : Q) : M unit :=
  rampToZero B (Note.noteGain note) now (now + Note.releaseTime note) ;;
  rampToZero B (Note.harmonicGain note) now (now + Note.releaseTime note) ;;
  rampToZero B (Note.effectGain note) now (now + Note.releaseTime note) ;;
  when_some (Note.experimentalGain note)
    (λ g, rampToZero B g now (now + Note.releaseTime note)) ;;
  try_catch
    (stopOscillators B note (now + Note.releaseTime note + 0.15))
    (console WarnLevel ErrorStoppingInStopNote).

(** The three timers that [stopNote] leaves behind. *)
Definition cleanupTimers (midiNote : Z) (note : Voice) : list Timer :=
  let cleanupTime := Qmin (Note.releaseTime note + 0.1) 0.5 * 1000 in
  [ {| t_kind := Primary; t_midiNote := midiNote; t_note := note;
       t_delay := cleanupTime |};
    {| t_kind := Backup; t_midiNote := midiNote; t_note := note;
       t_delay := cleanupTime + 1000 |};
    {| t_kind := Emergency; t_midiNote := midiNote; t_note := note;
       t_delay := 5000 |} ].

(** [note] lies in the range of the keyboard. *)
Definition inRange (note : Z) (c : MidiController) : bool :=
  negb ((note <? startNote c)%Z || (endNote c <? note)%Z).

(** What the handlers of a key look at: its note and its playing flag. *)
Definition flags (ks : list KeyElement) : list (Z * bool) :=
  (λ k, (k_note k, k_isPlaying k)) <$> ks.

(** The playing flag of a key taken down. *)
Definition cleared (nb : Z * bool) : Z * bool := (nb.1, false).

(** What nothing in the keyboard handlers changes about the engine and
    the computer keyboard: the registry and the held keys. *)
Definition sameVoices (c c' : MidiController) : Prop :=
  activeNotes (pianoModel c') = activeNotes (pianoModel c) ∧
  pressedKeys c' = pressedKeys c.

(** The container has a size. *)
Definition visible (e : EditorEvent) : Prop :=
  match e with
  | Resize w h => 0 < w ∧ 0 < h
  | Drag _ _ _ _ => True
  end.

(** The limits of the editor. *)
Definition withinLimits (ui : PianoUI) : Prop :=
  (120 <= Dims.width (pianoParams ui) <= 320 ∧
   120 <= Dims.length (pianoParams ui) <= 300 ∧
   30 <= Dims.height (pianoParams ui) <= 70) ∧
  (120 <= maxDimensions_width ui <= 320 ∧
   120 <= maxDimensions_length ui <= 300).

(** A built instrument of the default shape, silent, under the rules of
    Web Audio. *)
Definition builtPiano : PianoModel := run strict [BuildPiano] constructor.

(** The controller of a built instrument. *)
Definition stage : MidiController := newMidiController builtPiano.

(** A keyboard whose range starts and ends on black notes. *)
Definition blackEnded : MidiController := set_keyboardConfig 49 70 stage.

(** Dragging a corner far out, resizing the window, then pulling the
    height point to the centre. *)
Definition dragging : list EditorEvent :=
  [ Drag {| cp_type := CornerPoint; cp_affects := [WidthD; LengthD] |} 1000 1000 0;
    Resize 800 450;
    Drag {| cp_type := HeightPoint; cp_affects := [HeightD] |} 0 0 0 ].

(** * Properties *)

(** ** Reasoning about computations *)

Lemma bind_returned {A C} (m : M A) (k : A → M C) s a s' :
  m s = (Returned a, s') → bind m k s = k a s'.
Proof. intros H. unfold bind. by rewrite H. Qed.

Lemma bind_thrown {A C} (m : M A) (k : A → M C) s c s' :
  m s = (Thrown c, s') → bind m k s = (Thrown c, s').
Proof. intros H. unfold bind. by rewrite H. Qed.

Lemma bind_assoc {A C D} (m : M A) (k : A → M C) (k' : C → M D) s :
  bind (bind m k) k' s = bind m (λ a, bind (k a) k') s.
Proof. unfold bind. by destruct (m s) as [[a|c] s1]. Qed.

Lemma bind_ext {A C} (m : M A) (k k' : A → M C) s :
  (∀ a s1, k a s1 = k' a s1) → bind m k s = bind m k' s.
Proof. intros H. unfold bind. destruct (m s) as [[a|c] s1]; [apply H | done]. Qed.

Lemma returns_bind {A C} (m : M A) (k : A → M C) s :
  returns (bind m k) s = true →
  ∃ a s', m s = (Returned a, s') ∧ returns (k a) s' = true.
Proof.
  unfold returns, bind. destruct (m s) as [[a|c] s']; simpl; [eauto | done].
Qed.

Lemma total_ret {A} (a : A) : total (ret a).
Proof. done. Qed.

Lemma total_gets {A} (f : PianoModel → A) : total (gets f).
Proof. done. Qed.

Lemma total_modify f : total (modify f).
Proof. done. Qed.

Lemma total_call c : total (call c).
Proof. done. Qed.

Lemma total_console l r : total (console l r).
Proof. done. Qed.

Lemma total_bind {A C} (m : M A) (k : A → M C) :
  total m → (∀ a, total (k a)) → total (bind m k).
Proof.
  intros Hm Hk s. specialize (Hm s). unfold returns, bind in *.
  destruct (m s) as [[a|c] s']; simpl in *; [apply Hk | done].
Qed.

Lemma total_when c m : total m → total (when c m).
Proof. destruct c; [done | intros _; apply total_ret]. Qed.

Lemma total_try_catch body handler : total handler → total (try_catch body handler).
Proof.
  intros Hh s. unfold returns, try_catch.
  destruct (body s) as [[a|c] s']; simpl; [done | apply Hh].
Qed.

Lemma total_try_finally body cleanup :
  total body → total cleanup → total (try_finally body cleanup).
Proof.
  intros Hb Hc s. specialize (Hb s). specialize (Hc (snd (body s))).
  unfold returns, try_finally in *.
  destruct (body s) as [[a|c] s']; simpl in *; [| done].
  by destruct (cleanup s') as [[a'|c'] s''].
Qed.

Lemma total_forEach {A} (xs : list A) (f : A → M unit) :
  (∀ x, total (f x)) → total (forEach xs f).
Proof.
  intros Hf. induction xs as [|x xs IH]; simpl; [apply total_ret |].
  apply total_bind; [apply Hf | intros _; apply IH].
Qed.

Create HintDb total discriminated.
#[global] Hint Resolve total_ret total_gets total_modify total_call total_console
  total_bind total_when total_try_catch total_try_finally total_forEach : total.

(** Computations whose every run relates the state before to the state
    after, for a reflexive and transitive relation. *)
Section Respects.
Context (R : relation PianoModel) `{!PreOrder R}.

Lemma respects_ret {A} (a : A) : respects R (ret a).
Proof. intros s. unfold exec; simpl. reflexivity. Qed.

Lemma respects_gets {A} (f : PianoModel → A) : respects R (gets f).
Proof. intros s. unfold exec; simpl. reflexivity. Qed.

Lemma respects_bind {A C} (m : M A) (k : A → M C) :
  respects R m → (∀ a, respects R (k a)) → respects R (bind m k).
Proof.
  intros Hm Hk s. specialize (Hm s). unfold exec, bind in *.
  destruct (m s) as [[a|c] s'] eqn:E; simpl in *; [| done].
  etrans; [exact Hm | apply Hk].
Qed.

Lemma respects_when c m : respects R m → respects R (when c m).
Proof. destruct c; [done | intros _; apply respects_ret]. Qed.

Lemma respects_when_some {A} (o : option A) f :
  (∀ a, respects R (f a)) → respects R (when_some o f).
Proof. destruct o; simpl; [done | intros _; apply respects_ret]. Qed.

Lemma respects_try_catch body handler :
  respects R body → respects R handler → respects R (try_catch body handler).
Proof.
  intros Hb Hh s. specialize (Hb s). unfold exec, try_catch in *.
  destruct (body s) as [[a|c] s']; simpl in *; [done |].
  etrans; [exact Hb | apply Hh].
Qed.

Lemma respects_try_finally body cleanup :
  respects R body → respects R cleanup → respects R (try_finally body cleanup).
Proof.
  intros Hb Hc s. specialize (Hb s). specialize (Hc (snd (body s))).
  unfold exec, try_finally in *.
  destruct (body s) as [r s']; simpl in *.
  destruct (cleanup s') as [[a'|c'] s'']; simpl in *; by etrans.
Qed.

Lemma respects_forEach {A} (xs : list A) (f : A → M unit) :
  (∀ x, respects R (f x)) → respects R (forEach xs f).
Proof.
  intros Hf. induction xs as [|x xs IH]; simpl; [apply respects_ret |].
  apply respects_bind; [apply Hf | intros _; apply IH].
Qed.

Lemma respects_modify f : (∀ s, R s (f s)) → respects R (modify f).
Proof. intros H s. apply H. Qed.

Lemma respects_risky B c : respects R (call c) → respects R (risky B c).
Proof.
  intros H s. specialize (H s). unfold exec, risky in *.
  destruct (B (calls s) c); simpl; [reflexivity | done].
Qed.
End Respects.

#[global] Instance logs_only_preorder : PreOrder logs_only.
Proof.
  split.
  - intros s. exists (calls s), (reports s). by destruct s.
  - intros s1 s2 s3 (cs & rs & ->) (cs' & rs' & ->). by exists cs', rs'.
Qed.

#[global] Instance settles_preorder : PreOrder settles.
Proof.
  split.
  - intros s. by split.
  - intros s1 s2 s3 [] []. split; try congruence. by etrans.
Qed.

Lemma logs_only_call c : respects logs_only (call c).
Proof. intros s. exists (calls s ++ [c]), (reports s). by destruct s. Qed.

Lemma logs_only_console l r : respects logs_only (console l r).
Proof. intros s. exists (calls s), (reports s ++ [(l, r)]). by destruct s. Qed.

Lemma started_snoc log c :
  is_control c = true → started (log ++ [c]) = started log.
Proof.
  intros H. unfold started. rewrite omap_app. destruct c; try done; simpl;
    by rewrite app_nil_r.
Qed.

Lemma created_snoc log c :
  is_control c = true → created (log ++ [c]) = created log.
Proof.
  intros H. unfold created. rewrite omap_app. destruct c; try done; simpl;
    by rewrite app_nil_r.
Qed.

Lemma settles_call c : is_control c = true → respects settles (call c).
Proof.
  intros H s. split; try done; simpl.
  - by apply started_snoc.
  - by apply created_snoc.
Qed.

Lemma settles_console l r : respects settles (console l r).
Proof. intros s. by split. Qed.

Lemma settles_deleteNote p : respects settles (deleteNote p).
Proof. intros s. split; try done; simpl. apply delete_subseteq. Qed.

Lemma settles_setTimeout t : respects settles (setTimeout t).
Proof. intros s. by split. Qed.

Lemma settles_set_timers ts : respects settles (modify (set_timers ts)).
Proof. intros s. by split. Qed.

(** Structural steps of a proof that a computation respects a relation;
    [leaf] closes the primitive calls. *)
Ltac respects_step leaf :=
  lazymatch goal with
  | |- PreOrder _ => apply _
  | |- respects _ (ret _) => apply respects_ret
  | |- respects _ (gets _) => apply respects_gets
  | |- respects _ (bind _ _) => apply respects_bind; [| | intros ?]
  | |- respects _ (try_catch _ _) => apply respects_try_catch
  | |- respects _ (try_finally _ _) => apply respects_try_finally
  | |- respects _ (when _ _) => apply respects_when
  | |- respects _ (when_some _ _) => apply respects_when_some; [| intros ?]
  | |- respects _ (forEach _ _) => apply respects_forEach; [| intros ?]
  | |- respects _ (risky _ _) => apply respects_risky
  | |- _ => leaf
  end.

Ltac respects_with leaf := repeat (respects_step leaf).

Ltac logs_only_leaf :=
  first [ apply logs_only_call | apply logs_only_console ].

Ltac settles_leaf :=
  first [ apply settles_call; reflexivity
        | apply settles_console
        | apply settles_deleteNote
        | apply settles_setTimeout
        | apply settles_set_timers ].

Lemma rampToZero_logs_only B g now t : respects logs_only (rampToZero B g now t).
Proof. unfold rampToZero. respects_with logs_only_leaf. Qed.

Lemma stopOscillators_logs_only B note t :
  respects logs_only (stopOscillators B note t).
Proof. unfold stopOscillators. respects_with logs_only_leaf. Qed.

Lemma rampToZero_settles B g now t : respects settles (rampToZero B g now t).
Proof. unfold rampToZero. respects_with settles_leaf. Qed.

Lemma stopOscillators_settles B note t :
  respects settles (stopOscillators B note t).
Proof. unfold stopOscillators. respects_with settles_leaf. Qed.

Lemma forceStopNote_settles B p : respects settles (forceStopNote B p).
Proof.
  unfold forceStopNote, lookupNote.
  apply respects_bind; [apply _ | apply respects_gets; apply _ | intros [note|]].
  - respects_with ltac:(first [ apply rampToZero_settles
                              | apply stopOscillators_settles
                              | settles_leaf ]).
  - apply respects_ret; apply _.
Qed.

Lemma stopNote_settles B p : respects settles (stopNote B p).
Proof.
  unfold stopNote, lookupNote.
  apply respects_bind; [apply _ | apply respects_gets; apply _ | intros [note|]].
  - respects_with ltac:(first [ apply rampToZero_settles
                              | apply stopOscillators_settles
                              | settles_leaf ]).
  - apply respects_ret; apply _.
Qed.

(** ** [forceStopNote] *)

Lemma forceStopNote_absent B p s :
  activeNotes s !! p = None → forceStopNote B p s = (Returned tt, s).
Proof. intros H. unfold forceStopNote, lookupNote, bind, gets. by rewrite H. Qed.

Lemma stopNote_absent B p s :
  activeNotes s !! p = None → stopNote B p s = (Returned tt, s).
Proof. intros H. unfold stopNote, lookupNote, bind, gets. by rewrite H. Qed.

Lemma forceStopNote_total B p : total (forceStopNote B p).
Proof.
  unfold forceStopNote, lookupNote.
  apply total_bind; [apply total_gets | intros [note|]]; [| apply total_ret].
  apply total_bind; [apply total_gets | intros now].
  apply total_try_finally; [apply total_try_catch |]; auto with total.
  unfold deleteNote. auto with total.
Qed.

(** The [try] block of [forceStopNote] touches nothing but the logs, and
    the [finally] block deletes the entry whatever the block did. *)
Lemma forceStopNote_exec B p s :
  ∃ cs rs,
    exec (forceStopNote B p) s =
    set_reports rs (set_calls cs (set_activeNotes (delete p (activeNotes s)) s)).
Proof.
  destruct (activeNotes s !! p) as [note|] eqn:E.
  - unfold exec, forceStopNote, lookupNote, bind at 1, gets at 1. rewrite E.
    unfold bind at 1, gets at 1, try_finally.
    match goal with |- context [try_catch ?b ?h s] =>
      assert (respects logs_only (try_catch b h)) as Hb
    end.
    { respects_with ltac:(first [ apply rampToZero_logs_only
                                | apply stopOscillators_logs_only
                                | logs_only_leaf ]). }
    specialize (Hb s). unfold exec in Hb.
    match goal with |- context [try_catch ?b ?h s] =>
      destruct (try_catch b h s) as [r s']
    end.
    simpl in Hb. destruct Hb as (cs & rs & ->). simpl.
    by exists cs, (rs ++ [(LogLevel, ForceStopped p)]).
  - unfold exec. rewrite forceStopNote_absent by done. simpl.
    exists (calls s), (reports s). rewrite delete_id by done. by destruct s.
Qed.

Lemma forceStopNote_notes B p s :
  activeNotes (exec (forceStopNote B p) s) = delete p (activeNotes s).
Proof. destruct (forceStopNote_exec B p s) as (cs & rs & ->). done. Qed.

Lemma forceStopNote_returns B p s :
  forceStopNote B p s = (Returned tt, exec (forceStopNote B p) s).
Proof.
  pose proof (forceStopNote_total B p s) as H. unfold returns, exec in *.
  destruct (forceStopNote B p s) as [[[]|c] s']; done.
Qed.

(** C2: [forceStopNote(p)] returns normally and leaves no registry entry
    for [p], whatever the backend throws while the voice is stopped; a
    second call changes nothing; and [stopNote(p)] and [forceStopNote(p)]
    on a pitch without a registered voice return normally and leave the
    state as it was. *)
Theorem forceStopNote_always_removes (B : Backend) (p : Z) (s : PianoModel) :
  let s' := exec (forceStopNote B p) s in
  returns (forceStopNote B p) s = true ∧
  activeNotes s' !! p = None ∧
  (∀ q, q ≠ p → activeNotes s' !! q = activeNotes s !! q) ∧
  forceStopNote B p s' = (Returned tt, s') ∧
  (activeNotes s !! p = None →
   forceStopNote B p s = (Returned tt, s) ∧ stopNote B p s = (Returned tt, s)).
Proof.
  intros s'. subst s'. rewrite forceStopNote_notes.
  split; [apply forceStopNote_total |].
  split; [apply lookup_delete_eq |].
  split; [intros q Hq; by apply lookup_delete_ne |].
  split.
  - apply forceStopNote_absent. rewrite forceStopNote_notes.
    apply lookup_delete_eq.
  - intros H. split; [by apply forceStopNote_absent | by apply stopNote_absent].
Qed.

(** ** [stopAllNotes] *)

Lemma elem_of_noteNumbers p s :
  p ∈ noteNumbers s ↔ is_Some (activeNotes s !! p).
Proof.
  unfold noteNumbers. rewrite merge_sort_Permutation, list_elem_of_fmap. split.
  - intros ([q v] & -> & H). apply elem_of_map_to_list in H. by exists v.
  - intros [v H]. exists (p, v). split; [done | by apply elem_of_map_to_list].
Qed.

Lemma lookup_foldl_delete (ns : list Z) (m : gmap Z Voice) (k : Z) :
  foldl (λ m p, delete p m) m ns !! k =
  if decide (k ∈ ns) then None else m !! k.
Proof.
  revert m. induction ns as [|n ns IH]; intros m.
  - destruct (decide (k ∈ [])) as [H|H]; [by apply elem_of_nil in H | done].
  - change (foldl (λ m p, delete p m) (delete n m) ns !! k =
            if decide (k ∈ n :: ns) then None else m !! k).
    rewrite IH.
    destruct (decide (k ∈ ns)) as [Hin|Hin];
      destruct (decide (k ∈ n :: ns)) as [Hin'|Hin']; try done.
    + exfalso. apply Hin'. by right.
    + apply elem_of_cons in Hin' as [->|?]; [apply lookup_delete_eq | done].
    + apply lookup_delete_ne. intros ->. apply Hin'. by left.
Qed.

Lemma forEach_forceStopNote B (ns : list Z) s :
  ∃ cs rs,
    forEach ns (forceStopNote B) s =
    (Returned tt,
     set_reports rs (set_calls cs
       (set_activeNotes (foldl (λ m p, delete p m) (activeNotes s) ns) s))).
Proof.
  revert s. induction ns as [|n ns IH]; intros s; simpl.
  - exists (calls s), (reports s). unfold ret. by destruct s.
  - erewrite bind_returned by apply forceStopNote_returns.
    destruct (forceStopNote_exec B n s) as (cs & rs & ->).
    destruct (IH (set_reports rs (set_calls cs
                (set_activeNotes (delete n (activeNotes s)) s))))
      as (cs' & rs' & ->).
    by exists cs', rs'.
Qed.

Lemma stopAllNotes_immediate B s :
  ∃ cs rs,
    stopAllNotes B true s =
    (Returned tt, set_reports rs (set_calls cs (set_activeNotes ∅ s))).
Proof.
  change (stopAllNotes B true s) with (forEach (noteNumbers s) (forceStopNote B) s).
  destruct (forEach_forceStopNote B (noteNumbers s) s) as (cs & rs & ->).
  exists cs, rs. do 4 f_equal. apply map_eq. intros k.
  rewrite lookup_foldl_delete, lookup_empty. case_decide as H; [done |].
  rewrite elem_of_noteNumbers in H. by apply eq_None_not_Some.
Qed.

Lemma accepted_complete B log cs :
  refuses B log cs = false → accepted B log cs = cs.
Proof.
  revert log. induction cs as [|c cs IH]; intros log; simpl; [done |].
  intros H. apply orb_false_iff in H as [-> H]. by rewrite IH.
Qed.

Lemma refuses_app B log a b :
  refuses B log (a ++ b) = refuses B log a || refuses B (log ++ a) b.
Proof.
  revert log. induction a as [|c a IH]; intros log; simpl.
  - by rewrite app_nil_r.
  - rewrite IH, <- app_assoc. simpl. by rewrite orb_assoc.
Qed.

Lemma accepted_app B log a b :
  accepted B log (a ++ b) =
  if refuses B log a then accepted B log a
  else a ++ accepted B (log ++ a) b.
Proof.
  revert log. induction a as [|c a IH]; intros log; simpl.
  - by rewrite app_nil_r.
  - destruct (B log c); simpl; [done |].
    rewrite IH, <- app_assoc. simpl. by destruct (refuses B (log ++ [c]) a).
Qed.

Lemma accepted_all B log cs :
  (∀ log c, B log c = false) → accepted B log cs = cs.
Proof.
  intros H. revert log. induction cs as [|c cs IH]; intros log; simpl; [done |].
  by rewrite H, IH.
Qed.

Lemma tracks_nil B : tracks B [] (ret tt).
Proof. intros s. simpl. unfold ret. rewrite app_nil_r. by destruct s. Qed.

Lemma tracks_risky B c : tracks B [c] (risky B c).
Proof.
  intros s. unfold risky. simpl. destruct (B (calls s) c); simpl; [| done].
  exists c. rewrite app_nil_r. by destruct s.
Qed.

Lemma tracks_bind B a b m k :
  tracks B a m → tracks B b k → tracks B (a ++ b) (m ;; k).
Proof.
  intros Hm Hk s. rewrite refuses_app, accepted_app. unfold bind.
  specialize (Hm s). destruct (refuses B (calls s) a); simpl.
  - destruct Hm as [c ->]. by exists c.
  - rewrite Hm. specialize (Hk (set_calls (calls s ++ a) s)). simpl in Hk.
    destruct (refuses B (calls s ++ a) b).
    + destruct Hk as [c ->]. exists c. by rewrite <- app_assoc.
    + rewrite Hk. by rewrite <- app_assoc.
Qed.

Lemma tracks_rampToZero B g now t : tracks B (rampCalls g now t) (rampToZero B g now t).
Proof.
  unfold rampToZero, rampCalls.
  apply (tracks_bind B [_] [_; _]); [apply tracks_risky |].
  apply (tracks_bind B [_] [_]); apply tracks_risky.
Qed.

Lemma tracks_stopOscillators B note t :
  tracks B ([Stop (Note.oscillator note) t; Stop (Note.oscillator2 note) t;
             Stop (Note.oscillator3 note) t] ++
            match Note.oscillator4 note with
            | Some o => [Stop o t]
            | None => []
            end)
         (stopOscillators B note t).
Proof.
  unfold stopOscillators.
  apply (tracks_bind B [_] (_ :: _ :: _)); [apply tracks_risky |].
  apply (tracks_bind B [_] (_ :: _)); [apply tracks_risky |].
  apply (tracks_bind B [_] _); [apply tracks_risky |].
  destruct (Note.oscillator4 note); simpl; [apply tracks_risky | apply tracks_nil].
Qed.

(** The whole of [forceStopNote] on a registered pitch: the backend log
    grows by the calls of the force stop up to the first refusal, the
    console by at most one complaint and by the report of the pitch, and
    the entry is gone. *)
Lemma forceStopNote_log B p s note :
  activeNotes s !! p = Some note →
  ∃ rs,
    forceStopped rs = [] ∧
    forceStopNote B p s =
    (Returned tt,
     set_reports (reports s ++ rs ++ [(LogLevel, ForceStopped p)])
       (set_calls
          (calls s ++ accepted B (calls s) (forceStopCalls note (currentTime s)))
          (set_activeNotes (delete p (activeNotes s)) s))).
Proof.
  intros E. unfold forceStopNote, lookupNote, bind at 1, gets at 1. rewrite E.
  unfold bind at 1, gets at 1.
  set (now := currentTime s).
  set (ramps := rampCalls (Note.noteGain note) now (now + 0.005) ++
                rampCalls (Note.harmonicGain note) now (now + 0.005) ++
                rampCalls (Note.effectGain note) now (now + 0.005) ++
                match Note.experimentalGain note with
                | Some g => rampCalls g now (now + 0.005)
                | None => []
                end).
  set (stops := [Stop (Note.oscillator note) (now + 0.01);
                 Stop (Note.oscillator2 note) (now + 0.01);
                 Stop (Note.oscillator3 note) (now + 0.01)] ++
                match Note.oscillator4 note with
                | Some o => [Stop o (now + 0.01)]
                | None => []
                end).
  assert (forceStopCalls note now = ramps ++ stops) as ->
    by (unfold forceStopCalls, ramps, stops; by rewrite <- !app_assoc).
  set (rampAll := rampToZero B (Note.noteGain note) now (now + 0.005) ;;
                  rampToZero B (Note.harmonicGain note) now (now + 0.005) ;;
                  rampToZero B (Note.effectGain note) now (now + 0.005) ;;
                  when_some (Note.experimentalGain note)
                    (λ g, rampToZero B g now (now + 0.005))).
  assert (tracks B ramps rampAll) as Hr.
  { unfold ramps, rampAll.
    apply tracks_bind; [apply tracks_rampToZero |].
    apply tracks_bind; [apply tracks_rampToZero |].
    apply tracks_bind; [apply tracks_rampToZero |].
    destruct (Note.experimentalGain note); simpl;
      [apply tracks_rampToZero | apply tracks_nil]. }
  pose proof (tracks_stopOscillators B note (now + 0.01)) as Hs.
  fold stops in Hs.
  unfold try_finally, try_catch at 1.
  match goal with |- context [bind ?m ?k s] =>
    assert (bind m k s =
            bind rampAll
              (λ _, try_catch (stopOscillators B note (now + 0.01))
                      (console WarnLevel ErrorStoppingOscillators)) s) as ->
  end.
  { symmetry. unfold rampAll.
    repeat (rewrite bind_assoc; apply bind_ext; intros ? ?). reflexivity. }
  rewrite accepted_app. unfold bind at 1.
  specialize (Hr s). destruct (refuses B (calls s) ramps).
  - destruct Hr as [c ->]. simpl.
    exists [(ErrorLevel, ErrorInForceStopNote)]. split; [done |].
    by rewrite <- app_assoc.
  - rewrite Hr. unfold try_catch.
    specialize (Hs (set_calls (calls s ++ ramps) s)).
    change (calls (set_calls (calls s ++ ramps) s)) with (calls s ++ ramps) in Hs.
    destruct (refuses B (calls s ++ ramps) stops) eqn:Es.
    + destruct Hs as [c ->]. simpl.
      exists [(WarnLevel, ErrorStoppingOscillators)]. split; [done |].
      by rewrite <- !app_assoc.
    + rewrite Hs. cbv iota. rewrite (accepted_complete B _ stops) by done.
      simpl. exists []. split; [done |].
      by rewrite <- !app_assoc.
Qed.

Lemma forceStopLog_all B now log vs :
  (∀ log c, B log c = false) →
  forceStopLog B now log vs =
  log ++ concat (map (λ v, forceStopCalls v now) vs).
Proof.
  intros H. unfold forceStopLog. revert log.
  induction vs as [|v vs IH]; intros log; cbn [foldl map concat].
  - by rewrite app_nil_r.
  - rewrite IH, accepted_all by done. symmetry. apply app_assoc.
Qed.

Lemma forceStopped_app rs rs' :
  forceStopped (rs ++ rs') = forceStopped rs ++ forceStopped rs'.
Proof. apply omap_app. Qed.

Lemma Forall2_impl_elem {A C} (P Q : A → C → Prop) xs ys :
  Forall2 P xs ys →
  (∀ x y, x ∈ xs → P x y → Q x y) →
  Forall2 Q xs ys.
Proof.
  induction 1 as [|x y xs ys Hxy _ IH]; intros H; constructor.
  - apply H; [by left | done].
  - apply IH. intros x' y' Hin. apply H. by right.
Qed.

(** A loop of force stops over distinct registered pitches: each voice
    gets the calls of its force stop, in the order of the list. *)
Lemma forEach_forceStopNote_log B (ns : list Z) (vs : list Voice) s :
  NoDup ns →
  Forall2 (λ p v, activeNotes s !! p = Some v) ns vs →
  ∃ rs,
    forceStopped rs = ns ∧
    forEach ns (forceStopNote B) s =
    (Returned tt,
     set_reports (reports s ++ rs)
       (set_calls (forceStopLog B (currentTime s) (calls s) vs)
          (set_activeNotes (foldl (λ m p, delete p m) (activeNotes s) ns) s))).
Proof.
  intros Hnd. revert vs s.
  induction Hnd as [|n ns Hn Hnd IH]; intros vs s Hvs.
  - apply Forall2_nil_inv_l in Hvs as ->. exists []. split; [done |].
    simpl. unfold ret. rewrite app_nil_r. by destruct s.
  - apply Forall2_cons_inv_l in Hvs as (v & vs' & Hv & Hvs & ->).
    destruct (forceStopNote_log B n s v Hv) as (rs & Hrs & E).
    simpl. unfold bind at 1. rewrite E.
    match goal with |- context [forEach ns _ ?s1] =>
      destruct (IH vs' s1) as (rs' & Hrs' & ->)
    end.
    + simpl. eapply Forall2_impl_elem; [exact Hvs |].
      intros p w Hin Hp. rewrite lookup_delete_ne; [done |].
      intros ->. by apply Hn.
    + exists (rs ++ [(LogLevel, ForceStopped n)] ++ rs'). split.
      * rewrite !forceStopped_app, Hrs, Hrs'. done.
      * simpl. by rewrite <- !app_assoc.
Qed.

Lemma NoDup_noteNumbers s : NoDup (noteNumbers s).
Proof.
  unfold noteNumbers. rewrite merge_sort_Permutation.
  apply NoDup_fst_map_to_list.
Qed.

Lemma Forall2_registered (m : gmap Z Voice) (ns : list Z) :
  (∀ p, p ∈ ns → is_Some (m !! p)) →
  Forall2 (λ p v, m !! p = Some v) ns (omap (λ p, m !! p) ns).
Proof.
  induction ns as [|n ns IH]; intros H; [constructor |].
  destruct (H n) as [v Hv]; [by left |].
  cbn [omap list_omap]. rewrite Hv. constructor; [done |].
  apply IH. intros p Hp. apply H. by right.
Qed.

Lemma elem_of_registeredVoices v s :
  v ∈ registeredVoices s ↔ ∃ p, activeNotes s !! p = Some v.
Proof.
  unfold registeredVoices. rewrite list_elem_of_omap. split.
  - intros (p & _ & H). by exists p.
  - intros (p & H). exists p. split; [| done].
    apply elem_of_noteNumbers. by exists v.
Qed.

Lemma stopAllNotes_immediate_log B s :
  ∃ rs,
    forceStopped rs = noteNumbers s ∧
    stopAllNotes B true s =
    (Returned tt,
     set_reports (reports s ++ rs)
       (set_calls (forceStopLog B (currentTime s) (calls s) (registeredVoices s))
          (set_activeNotes ∅ s))).
Proof.
  change (stopAllNotes B true s) with (forEach (noteNumbers s) (forceStopNote B) s).
  destruct (forEach_forceStopNote_log B (noteNumbers s) (registeredVoices s) s)
    as (rs & Hrs & ->).
  - apply NoDup_noteNumbers.
  - apply Forall2_registered. intros p. apply elem_of_noteNumbers.
  - exists rs. split; [done |]. do 4 f_equal. apply map_eq. intros k.
    rewrite lookup_foldl_delete, lookup_empty. case_decide as H; [done |].
    rewrite elem_of_noteNumbers in H. by apply eq_None_not_Some.
Qed.

(** C7: [stopAllNotes(true)] reads the registered note numbers once, at
    entry, and force-stops the voice that each of them had then, in
    ascending order.  For each voice in turn the backend is asked to hold
    every gain of the voice and take it to zero within 5 ms, and then to
    stop every oscillator of the voice after 10 ms; a voice for which the
    backend refuses a call loses only the rest of its own calls.  The
    console reports the note numbers of the snapshot, and no other, as
    force stopped.  The call always returns, the registry is empty then,
    and nothing but the registry, the backend log and the console has
    changed. *)
Theorem stopAllNotes_immediate_empties (B : Backend) (s : PianoModel) :
  let s' := exec (stopAllNotes B true) s in
  let now := currentTime s in
  returns (stopAllNotes B true) s = true ∧
  activeNotes s' = ∅ ∧
  (∀ p, p ∈ noteNumbers s ↔ is_Some (activeNotes s !! p)) ∧
  (∀ v, v ∈ registeredVoices s ↔ ∃ p, activeNotes s !! p = Some v) ∧
  calls s' = forceStopLog B now (calls s) (registeredVoices s) ∧
  ((∀ log c, B log c = false) →
   calls s' =
   calls s ++ concat (map (λ v, forceStopCalls v now) (registeredVoices s))) ∧
  ∃ rs,
    forceStopped rs = noteNumbers s ∧
    s' = set_reports (reports s ++ rs)
           (set_calls (calls s') (set_activeNotes ∅ s)).
Proof.
  intros s' now. subst s' now. unfold returns, exec.
  destruct (stopAllNotes_immediate_log B s) as (rs & Hrs & ->).
  cbn [fst snd]. split; [done |]. split; [done |].
  split; [intros p; apply elem_of_noteNumbers |].
  split; [intros v; apply elem_of_registeredVoices |].
  split; [done |].
  split; [intros H; by apply forceStopLog_all |].
  exists rs. split; done.
Qed.

(** ** Starting a voice *)

(** A run of calls that cannot fail appends them to the log. *)
Lemma call_bind (c : AudioCall) (k : M unit) s :
  (call c ;; k) s = k (set_calls (calls s ++ [c]) s).
Proof. done. Qed.

Lemma set_calls_app cs added s :
  set_calls (calls (set_calls cs s) ++ added) (set_calls cs s) =
  set_calls (cs ++ added) s.
Proof. done. Qed.

Lemma set_calls_set_calls cs cs' s :
  set_calls cs (set_calls cs' s) = set_calls cs s.
Proof. done. Qed.

Lemma createNodes_exec p id s :
  createNodes p id s =
  (Returned tt,
   set_calls (calls s ++
     [CreateNode (node id OscillatorN); CreateNode (node id NoteGainN);
      CreateNode (node id FilterN); SetWave (node id OscillatorN) "triangle";
      SetFrequency (node id OscillatorN) p 1;
      SetFilterType (node id FilterN) "lowpass";
      CreateNode (node id Oscillator2N); CreateNode (node id HarmonicGainN);
      SetFrequency (node id Oscillator2N) p 2;
      CreateNode (node id Oscillator3N); CreateNode (node id EffectGainN);
      SetFrequency (node id Oscillator3N) p 3;
      CreateNode (node id Oscillator4N); CreateNode (node id ExperimentalGainN);
      SetFrequency (node id Oscillator4N) p 0.5]) s).
Proof.
  unfold createNodes. rewrite !call_bind. unfold call, modify. simpl.
  by rewrite <- !app_assoc.
Qed.

Lemma connectNodes_exec id s :
  connectNodes id s =
  (Returned tt,
   set_calls (calls s ++
     [Connect (node id Oscillator3N) (ToNode (node id EffectGainN));
      Connect (node id EffectGainN) (ToNode (node id FilterN));
      Connect (node id Oscillator2N) (ToNode (node id HarmonicGainN));
      Connect (node id HarmonicGainN) (ToNode (node id FilterN));
      SetGain (node id NoteGainN) 0;
      Connect (node id OscillatorN) (ToNode (node id FilterN));
      Connect (node id FilterN) (ToNode (node id NoteGainN));
      Connect (node id NoteGainN) ToMasterGain]) s).
Proof.
  unfold connectNodes. rewrite !call_bind. unfold call, modify. simpl.
  by rewrite <- !app_assoc.
Qed.

Lemma startOscillators_exec m id now s :
  startOscillators m id now s =
  (Returned tt,
   set_calls (calls s ++
     [Start (node id OscillatorN) now; Start (node id Oscillator2N) now;
      Start (node id Oscillator3N) now] ++
     (if String.eqb m "experimental"
      then [Start (node id Oscillator4N) now] else [])) s).
Proof.
  unfold startOscillators. rewrite !call_bind.
  destruct (String.eqb m "experimental"); unfold when, call, modify, ret; simpl;
    by rewrite <- !app_assoc.
Qed.

(** What a material adds to the log: settings and, for plastic, the
    wiring of the fourth oscillator; it creates and starts nothing. *)
Lemma materialRecipe_exec m d p id s :
  ∃ added,
    materialRecipe m d p id s = (Returned tt, set_calls (calls s ++ added) s) ∧
    started added = [] ∧ created added = [] ∧
    (m = "plastic" →
     Connect (node id Oscillator4N) (ToNode (node id ExperimentalGainN)) ∈ added ∧
     Connect (node id ExperimentalGainN) (ToNode (node id FilterN)) ∈ added).
Proof.
  unfold materialRecipe.
  destruct (String.eqb m "wood") eqn:Ew;
    [| destruct (String.eqb m "metal") eqn:Em;
       [| destruct (String.eqb m "glass") eqn:Eg;
          [| destruct (String.eqb m "plastic") eqn:Ep]]].
  all: try (rewrite !call_bind; unfold call, modify; simpl;
            rewrite <- !app_assoc; simpl;
            eexists; split; [reflexivity |]; split; [done |]; split; [done |]).
  - apply String.eqb_eq in Ew as ->. done.
  - apply String.eqb_eq in Em as ->. done.
  - apply String.eqb_eq in Eg as ->. done.
  - intros _. split; set_solver.
  - exists []. rewrite app_nil_r. split; [by destruct s |].
    split; [done |]. split; [done |]. intros ->. done.
Qed.

Lemma scheduleEnvelope_exec B d v id now s :
  scheduleEnvelope B d v id now s =
    (Returned tt,
     set_calls (calls s ++
       [SetValueAtTime (node id NoteGainN) 0 now;
        LinearRamp (node id NoteGainN) v (now + attackTime d);
        LinearRamp (node id NoteGainN) (sustainLevel d * v)
          (now + attackTime d + decayTime d)]) s) ∨
  ∃ c part,
    scheduleEnvelope B d v id now s = (Thrown c, set_calls (calls s ++ part) s) ∧
    started part = [] ∧ created part = [].
Proof.
  unfold scheduleEnvelope, bind, risky.
  destruct (B (calls s) _); simpl.
  { right. eexists _, []. rewrite app_nil_r. split; [| done]. by destruct s. }
  destruct (B (calls s ++ _) _); simpl.
  { right. do 2 eexists. split; [reflexivity | done]. }
  destruct (B ((calls s ++ _) ++ _) _); simpl.
  { right. rewrite <- !app_assoc. do 2 eexists. split; [reflexivity | done]. }
  left. unfold call, modify. simpl. by rewrite <- !app_assoc.
Qed.

(** The whole of [startVoice]: the log grows by the setup of the nine
    nodes; then either the envelope is refused and nothing is started or
    stored, or the oscillators start and the voice is stored under its
    note number. *)
Lemma startVoice_exec B p v s :
  let id := nextObject s in
  let m := material s in
  let d := dimensions s in
  let now := currentTime s in
  ∃ setup,
    created setup =
      [node id OscillatorN; node id NoteGainN; node id FilterN;
       node id Oscillator2N; node id HarmonicGainN;
       node id Oscillator3N; node id EffectGainN;
       node id Oscillator4N; node id ExperimentalGainN] ∧
    started setup = [] ∧
    (SetFrequency (node id OscillatorN) p 1 ∈ setup ∧
     SetFrequency (node id Oscillator4N) p 0.5 ∈ setup) ∧
    (m = "plastic" →
     Connect (node id Oscillator4N) (ToNode (node id ExperimentalGainN)) ∈ setup ∧
     Connect (node id ExperimentalGainN) (ToNode (node id FilterN)) ∈ setup) ∧
    match startVoice B p v s with
    | (Returned _, s') =>
        s' = set_activeNotes (<[p := newVoice m d id]> (activeNotes s))
               (set_calls
                  (calls s ++ setup ++
                   [SetValueAtTime (node id NoteGainN) 0 now;
                    LinearRamp (node id NoteGainN) v (now + attackTime d);
                    LinearRamp (node id NoteGainN) (sustainLevel d * v)
                      (now + attackTime d + decayTime d)] ++
                   [Start (node id OscillatorN) now;
                    Start (node id Oscillator2N) now;
                    Start (node id Oscillator3N) now] ++
                   (if String.eqb m "experimental"
                    then [Start (node id Oscillator4N) now] else []))
                  (set_nextObject (S id) s))
    | (Thrown _, s') =>
        ∃ part, s' = set_calls (calls s ++ setup ++ part)
                       (set_nextObject (S id) s) ∧
                started part = [] ∧ created part = []
    end.
Proof.
  intros id m d now. unfold startVoice.
  erewrite bind_returned by reflexivity.
  erewrite bind_returned by reflexivity.
  erewrite bind_returned by apply createNodes_exec.
  erewrite bind_returned by reflexivity.
  erewrite bind_returned by reflexivity.
  cbn [material dimensions calls set_calls set_nextObject]. fold id m d.
  match goal with |- context [bind (materialRecipe m d p id) _ ?s0] =>
    destruct (materialRecipe_exec m d p id s0) as (added & Hrec & Hs & Hc & Hpl)
  end.
  rewrite set_calls_app in Hrec.
  erewrite bind_returned by exact Hrec. clear Hrec.
  erewrite bind_returned
    by (rewrite connectNodes_exec, set_calls_app; reflexivity).
  erewrite bind_returned by reflexivity.
  cbn [currentTime calls set_calls set_nextObject]. fold id now.
  rewrite <- ?app_assoc.
  match goal with |- context [bind (scheduleEnvelope B d v id now) _ ?s0] =>
    destruct (scheduleEnvelope_exec B d v id now s0)
      as [He | (c & part & He & Hps & Hpc)]
  end.
  - rewrite set_calls_app in He.
    erewrite bind_returned by exact He. clear He.
    erewrite bind_returned
      by (rewrite startOscillators_exec, set_calls_app; reflexivity).
    unfold storeNote, modify.
    cbn [fst snd calls activeNotes set_calls set_nextObject set_activeNotes].
    rewrite <- ?app_assoc.
    match goal with
    | |- context [set_calls (calls s ++ ?L1 ++ added ++ ?L2 ++ _ ++ _ ++ _) _] =>
        exists (L1 ++ added ++ L2)
    end.
    rewrite <- ?app_assoc.
    split; [| split; [| split; [| split]]]; [| | | | reflexivity].
    + unfold created in *. rewrite !omap_app, Hc. reflexivity.
    + unfold started in *. rewrite !omap_app, Hs. reflexivity.
    + split; apply elem_of_app; left; apply list_elem_of_In; simpl; tauto.
    + intros Hm. destruct (Hpl Hm).
      split; apply elem_of_app; right; apply elem_of_app; by left.
  - rewrite set_calls_app in He.
    erewrite bind_thrown by exact He. clear He.
    rewrite <- ?app_assoc.
    match goal with
    | |- context [set_calls (calls s ++ ?L1 ++ added ++ ?L2 ++ part) _] =>
        exists (L1 ++ added ++ L2)
    end.
    rewrite <- ?app_assoc.
    split; [| split; [| split; [| split]]].
    + unfold created in *. rewrite !omap_app, Hc. reflexivity.
    + unfold started in *. rewrite !omap_app, Hs. reflexivity.
    + split; apply elem_of_app; left; apply list_elem_of_In; simpl; tauto.
    + intros Hm. destruct (Hpl Hm).
      split; apply elem_of_app; right; apply elem_of_app; by left.
    + cbv beta iota. exists part. by rewrite <- ?app_assoc.
Qed.

(** ** [playNote] *)

(** The guards of [playNote] come down to this: the voice registered for
    the note, if any, is force-stopped; then an instrument that is not
    built only reports, and a built one starts a voice.  The second guard
    never fires, since the first has already removed the entry. *)
Lemma playNote_unfold B p v s :
  playNote B p v s =
  if isBuilt s
  then startVoice B p v (exec (forceStopNote B p) s)
  else console WarnLevel PianoNotBuilt (exec (forceStopNote B p) s).
Proof.
  assert (isBuilt (exec (forceStopNote B p) s) = isBuilt s) as Hb
    by apply forceStopNote_settles.
  assert (activeNotes (exec (forceStopNote B p) s) !! p = None) as Hn
    by (rewrite forceStopNote_notes; apply lookup_delete_eq).
  unfold playNote, lookupNote.
  erewrite bind_returned by reflexivity.
  assert ((when (bool_decide (is_Some (activeNotes s !! p))) (forceStopNote B p)) s
          = (Returned tt, exec (forceStopNote B p) s)) as Hw.
  { destruct (activeNotes s !! p) as [old|] eqn:E.
    - rewrite bool_decide_eq_true_2 by eauto. apply forceStopNote_returns.
    - rewrite bool_decide_eq_false_2 by (by intros [? ?]).
      unfold exec. by rewrite forceStopNote_absent. }
  erewrite bind_returned by exact Hw.
  erewrite bind_returned by reflexivity.
  rewrite Hb. destruct (isBuilt s); simpl; [| done].
  erewrite bind_returned by reflexivity.
  rewrite Hn. rewrite bool_decide_eq_false_2 by (by intros [? ?]).
  done.
Qed.

(** ** Invariants of the event streams *)

#[global] Instance evolves_preorder : PreOrder evolves.
Proof.
  split.
  - intros s. split; auto.
  - intros s1 s2 s3 [b1 n1 v1 u1] [b2 n2 v2 u2]. split.
    + auto.
    + lia.
    + intros p v H. destruct (v2 p v H) as [H'|H']; [| lia].
      destruct (v1 p v H') as [?|?]; [auto | lia].
    + intros H3. assert (isBuilt s2 = false) as H2.
      { destruct (isBuilt s2) eqn:E; [| done]. rewrite b2 in H3; done. }
      etrans; [by apply u2 | by apply u1].
Qed.

Lemma settles_evolves s s' : settles s s' → evolves s s'.
Proof.
  intros []. split.
  - congruence.
  - lia.
  - intros p v H. left. by eapply lookup_weaken.
  - done.
Qed.

Lemma respects_settles_evolves {A} (m : M A) :
  respects settles m → respects evolves m.
Proof. intros H s. apply settles_evolves, H. Qed.

Lemma evolves_logs_only s s' : logs_only s s' → evolves s s'.
Proof. intros (cs & rs & ->). split; auto. Qed.

Lemma wf_constructor : wf constructor.
Proof.
  split; [| done]. intros p v H.
  change (activeNotes constructor) with (∅ : gmap Z Voice) in H.
  by rewrite lookup_empty in H.
Qed.

Lemma wf_evolves s s' : wf s → evolves s s' → wf s'.
Proof.
  intros [Hv Hu] [b n v u]. split.
  - intros p w H. destruct (v p w H) as [H'|H']; [| lia].
    specialize (Hv p w H'). lia.
  - intros H'. assert (isBuilt s = false) as Hs.
    { destruct (isBuilt s) eqn:E; [| done]. rewrite b in H'; done. }
    specialize (u H'). rewrite (Hu Hs) in u.
    apply map_eq. intros k. rewrite lookup_empty.
    destruct (activeNotes s' !! k) as [w|] eqn:E; [| done].
    eapply lookup_weaken in E; [| exact u]. by rewrite lookup_empty in E.
Qed.

Lemma callback_settles t : respects settles (callback t).
Proof.
  unfold callback, lookupNote.
  apply respects_bind; [apply _ | apply respects_gets; apply _ | intros o].
  destruct (t_kind t), o as [w|]; respects_with settles_leaf.
Qed.

Lemma fireTimer_settles i : respects settles (fireTimer i).
Proof.
  unfold fireTimer.
  apply respects_bind; [apply _ | apply respects_gets; apply _ | intros ts].
  destruct (ts !! i) as [t|];
    respects_with ltac:(first [apply callback_settles | settles_leaf]).
Qed.

Lemma stopAllNotes_settles B immediate : respects settles (stopAllNotes B immediate).
Proof.
  unfold stopAllNotes. destruct immediate;
    respects_with ltac:(first [ apply forceStopNote_settles
                              | apply stopNote_settles ]).
Qed.

Lemma evolves_console l r : respects evolves (console l r).
Proof. intros s. apply settles_evolves, settles_console. Qed.

Lemma evolves_set_isBuilt : respects evolves (modify (set_isBuilt true)).
Proof. intros s. split; auto. Qed.

Lemma evolves_set_dimensions d : respects evolves (modify (set_dimensions d)).
Proof. intros s. split; auto. Qed.

Lemma evolves_set_material m : respects evolves (modify (set_material m)).
Proof. intros s. split; auto. Qed.

Lemma evolves_set_masterGain g : respects evolves (modify (set_masterGain g)).
Proof. intros s. split; auto. Qed.

Lemma evolves_set_distortion d : respects evolves (modify (set_distortion d)).
Proof. intros s. split; auto. Qed.

Lemma evolves_call c : respects evolves (call c).
Proof. intros s. split; simpl; auto. Qed.

Ltac evolves_leaf :=
  first [ apply evolves_console
        | apply evolves_call
        | apply evolves_set_isBuilt
        | apply evolves_set_dimensions
        | apply evolves_set_material
        | apply evolves_set_masterGain
        | apply evolves_set_distortion
        | apply respects_settles_evolves, stopAllNotes_settles ].

Lemma buildPiano_evolves B : respects evolves (buildPiano B).
Proof. unfold buildPiano. respects_with evolves_leaf. Qed.

Lemma setDimensions_evolves B l w h : respects evolves (setDimensions B l w h).
Proof.
  unfold setDimensions, reshape.
  respects_with ltac:(first [apply buildPiano_evolves | evolves_leaf]).
  destruct (Qgtb _ _);
    respects_with ltac:(first [apply buildPiano_evolves | evolves_leaf]).
  match goal with |- respects _ (match ?d with _ => _ end) => destruct d end;
    respects_with ltac:(first [apply buildPiano_evolves | evolves_leaf]).
Qed.

Lemma setMaterial_evolves B m : respects evolves (setMaterial B m).
Proof.
  unfold setMaterial.
  respects_with ltac:(first [apply buildPiano_evolves | evolves_leaf]).
Qed.

Lemma startVoice_evolves B p v s :
  isBuilt s = true → evolves s (exec (startVoice B p v) s).
Proof.
  intros Hb. destruct (startVoice_exec B p v s) as (setup & _ & _ & _ & _ & H).
  unfold exec. destruct (startVoice B p v s) as [[[]|c] s']; simpl.
  - subst s'. split; simpl; auto.
    + intros q w. destruct (decide (q = p)) as [->|Hne].
      * rewrite lookup_insert_eq. intros [= <-]. right. simpl. lia.
      * rewrite lookup_insert_ne by done. auto.
    + rewrite Hb. done.
  - destruct H as (part & -> & _). split; simpl; auto.
Qed.

Lemma playNote_exec B p v s :
  exec (playNote B p v) s =
  if isBuilt s
  then exec (startVoice B p v) (exec (forceStopNote B p) s)
  else exec (console WarnLevel PianoNotBuilt) (exec (forceStopNote B p) s).
Proof.
  unfold exec at 1. rewrite playNote_unfold. unfold exec.
  destruct (isBuilt s); reflexivity.
Qed.

Lemma playNote_evolves B p v : respects evolves (playNote B p v).
Proof.
  intros s. rewrite playNote_exec.
  pose proof (forceStopNote_settles B p s) as Hs.
  transitivity (exec (forceStopNote B p) s); [by apply settles_evolves |].
  destruct (isBuilt s) eqn:Hb.
  - apply (startVoice_evolves B p v (exec (forceStopNote B p) s)).
    destruct Hs. congruence.
  - apply (evolves_console WarnLevel PianoNotBuilt (exec (forceStopNote B p) s)).
Qed.

Lemma run_op_evolves B op : respects evolves (run_op B op).
Proof.
  destruct op; simpl.
  - apply playNote_evolves.
  - apply respects_settles_evolves, stopNote_settles.
  - apply respects_settles_evolves, forceStopNote_settles.
  - apply respects_settles_evolves, stopAllNotes_settles.
  - apply setDimensions_evolves.
  - apply setMaterial_evolves.
  - apply buildPiano_evolves.
  - apply respects_settles_evolves, fireTimer_settles.
  - intros s. split; auto.
Qed.

Lemma run_snoc B ops op s :
  run B (ops ++ [op]) s = exec (run_op B op) (run B ops s).
Proof. unfold run. by rewrite foldl_app. Qed.

Lemma run_evolves B ops s : evolves s (run B ops s).
Proof.
  induction ops as [|op ops IH] using rev_ind; [reflexivity |].
  rewrite run_snoc. etrans; [exact IH | apply run_op_evolves].
Qed.

Lemma reachable_wf B s : reachable B s → wf s.
Proof.
  intros [ops ->]. eapply wf_evolves; [apply wf_constructor | apply run_evolves].
Qed.

(** ** The registry *)

(** [playNote] on a registered pitch: the force stop of the registered
    voice comes first, and the new voice is created in the state that it
    leaves. *)
Lemma playNote_force_stops_first B p v s old :
  activeNotes s !! p = Some old →
  ∃ rs,
    forceStopped rs = [] ∧
    let s1 :=
      set_reports (reports s ++ rs ++ [(LogLevel, ForceStopped p)])
        (set_calls
           (calls s ++ accepted B (calls s) (forceStopCalls old (currentTime s)))
           (set_activeNotes (delete p (activeNotes s)) s)) in
    playNote B p v s =
    if isBuilt s then startVoice B p v s1 else console WarnLevel PianoNotBuilt s1.
Proof.
  intros Hold. destruct (forceStopNote_log B p s old Hold) as (rs & Hrs & E).
  exists rs. split; [done |]. intros s1.
  rewrite playNote_unfold. unfold exec. rewrite E. done.
Qed.

(** C1: [playNote] on a registered pitch does force-stop the registered
    voice first: the backend is asked to take its gains to zero and to
    stop its oscillators, its entry is removed, and only then is the new
    voice created.  But the registry does not know every voice that
    sounds.  After a release, a new strike and the primary timer of the
    release, the second voice of pitch 60 has no entry and was never
    asked to stop; the next strike of 60 finds nothing to force-stop and
    starts a third voice beside it.  Both sound, one entry is registered,
    and [stopAllNotes(true)] empties the registry and leaves the second
    voice sounding. *)
Theorem orphaned_voice_sounds_beside_new_voice :
  (∀ (B : Backend) (p : Z) (v : Q) (s : PianoModel) (old : Voice),
     activeNotes s !! p = Some old →
     ∃ rs,
       forceStopped rs = [] ∧
       let s1 :=
         set_reports (reports s ++ rs ++ [(LogLevel, ForceStopped p)])
           (set_calls
              (calls s ++
               accepted B (calls s) (forceStopCalls old (currentTime s)))
              (set_activeNotes (delete p (activeNotes s)) s)) in
       playNote B p v s =
       if isBuilt s then startVoice B p v s1
       else console WarnLevel PianoNotBuilt s1) ∧
  let s0 := run strict (take 9 orphaning) constructor in
  let s := run strict orphaning constructor in
  let s' := exec (stopAllNotes strict true) s in
  s = exec (playNote strict 60 0.7) s0 ∧
  activeNotes s0 !! 60%Z = None ∧
  soundingAt 60 (calls s0) = [1%nat] ∧
  dom (activeNotes s) = {[ 60%Z ]} ∧
  (Note.vid <$> activeNotes s !! 60%Z) = Some 2%nat ∧
  soundingAt 60 (calls s) = [1%nat; 2%nat] ∧
  activeNotes s' = ∅ ∧
  soundingAt 60 (calls s') = [1%nat].
Proof.
  split; [intros B p v s old; apply playNote_force_stops_first |].
  vm_compute. repeat split; reflexivity.
Qed.

(** C6: on an instrument that is not built, [playNote] returns normally,
    allocates nothing, creates and starts no node and registers no voice;
    in a state that events have reached it only adds the warning to the
    console. *)
Theorem playNote_not_built (B : Backend) (p : Z) (v : Q) (s : PianoModel) :
  isBuilt s = false →
  let s' := exec (playNote B p v) s in
  returns (playNote B p v) s = true ∧
  nextObject s' = nextObject s ∧
  created (calls s') = created (calls s) ∧
  started (calls s') = started (calls s) ∧
  activeNotes s' = delete p (activeNotes s) ∧
  (reachable B s →
   playNote B p v s =
   (Returned tt, set_reports (reports s ++ [(WarnLevel, PianoNotBuilt)]) s)).
Proof.
  intros Hb s'.
  assert (s' = exec (console WarnLevel PianoNotBuilt) (exec (forceStopNote B p) s))
    as Hs' by (subst s'; rewrite playNote_exec, Hb; done).
  pose proof (forceStopNote_settles B p s) as [].
  split; [| split; [| split; [| split; [| split]]]].
  - unfold returns. rewrite playNote_unfold, Hb. done.
  - rewrite Hs'. done.
  - rewrite Hs'. done.
  - rewrite Hs'. done.
  - rewrite Hs'. simpl. apply forceStopNote_notes.
  - intros Hr. apply reachable_wf in Hr as [_ Hu]. specialize (Hu Hb).
    rewrite playNote_unfold, Hb. unfold exec.
    rewrite forceStopNote_absent by (by rewrite Hu, lookup_empty). done.
Qed.

(** ** Cleanup timers *)

(** The backup and emergency callbacks compare the registered voice with
    the one they were scheduled for, and leave another voice alone. *)
Lemma callback_guarded t s w :
  t_kind t ≠ Primary →
  activeNotes s !! t_midiNote t = Some w →
  same_voice w (t_note t) = false →
  callback t s = (Returned tt, s).
Proof.
  intros Hk Hw Hne. unfold callback, lookupNote, bind, gets. rewrite Hw.
  destruct (t_kind t); [done | |]; by rewrite Hne.
Qed.

(** The primary callback only asks whether the pitch has an entry. *)
Lemma callback_primary t s :
  t_kind t = Primary →
  activeNotes (exec (callback t) s) !! t_midiNote t = None.
Proof.
  intros Hk. unfold exec, callback, lookupNote, bind, gets. rewrite Hk.
  destruct (activeNotes s !! t_midiNote t) eqn:E; simpl; [| done].
  apply lookup_delete_eq.
Qed.

(** C3: after a release and a new strike of pitch 60, the three timers of
    the release are pending for the first voice while the registry holds
    the second.  The primary timer deletes the entry of the second voice;
    the backup and the emergency timer leave it in place. *)
Theorem primary_timer_removes_newer_voice :
  let s := run quiet retrigger constructor in
  (t_kind <$> timers s !! 0%nat) = Some Primary ∧
  (t_midiNote <$> timers s !! 0%nat) = Some 60%Z ∧
  (Note.vid ∘ t_note <$> timers s !! 0%nat) = Some 0%nat ∧
  (Note.vid <$> activeNotes s !! 60%Z) = Some 1%nat ∧
  activeNotes (exec (fireTimer 0) s) !! 60%Z = None ∧
  activeNotes (exec (fireTimer 1) s) !! 60%Z = activeNotes s !! 60%Z ∧
  activeNotes (exec (fireTimer 2) s) !! 60%Z = activeNotes s !! 60%Z.
Proof. vm_compute. repeat split; reflexivity. Qed.

(** ** The fourth oscillator *)

(** C10: when [playNote] returns on a built instrument, the fourth
    oscillator has been created and set to half the frequency of the
    pitch, and for plastic it has been wired to the filter through its
    gain; the oscillators started are the first three,
    and the fourth only for the material ["experimental"].  For wood,
    metal, glass and plastic exactly three oscillators start and the
    stored voice records neither the fourth oscillator nor its gain. *)
Theorem fourth_oscillator_never_starts (B : Backend) (p : Z) (v : Q) (s : PianoModel) :
  isBuilt s = true →
  returns (playNote B p v) s = true →
  let s' := exec (playNote B p v) s in
  let id := nextObject s in
  node id Oscillator4N ∈ created (calls s') ∧
  SetFrequency (node id Oscillator4N) p 0.5 ∈ calls s' ∧
  (material s = "plastic" →
   Connect (node id Oscillator4N) (ToNode (node id ExperimentalGainN)) ∈ calls s' ∧
   Connect (node id ExperimentalGainN) (ToNode (node id FilterN)) ∈ calls s') ∧
  started (calls s') =
    started (calls s) ++
    [node id OscillatorN; node id Oscillator2N; node id Oscillator3N] ++
    (if String.eqb (material s) "experimental" then [node id Oscillator4N] else []) ∧
  (material s ∈ ["wood"; "metal"; "glass"; "plastic"] →
   started (calls s') =
     started (calls s) ++
     [node id OscillatorN; node id Oscillator2N; node id Oscillator3N] ∧
   ∃ note, activeNotes s' !! p = Some note ∧
           Note.oscillator4 note = None ∧ Note.experimentalGain note = None).
Proof.
  intros Hb Hret s' id. subst s'.
  unfold returns, exec in *. rewrite playNote_unfold, Hb in *.
  pose proof (forceStopNote_settles B p s) as [_ _ Hm _ _ _ _ Hn Hst Hcr].
  fold (exec (forceStopNote B p) s) in *.
  set (s1 := exec (forceStopNote B p) s) in *.
  destruct (startVoice_exec B p v s1) as (setup & Hc & Hs & [_ Hsub] & Hpl & H).
  destruct (startVoice B p v s1) as [[[]|c] s']; [| done]. subst s'.
  rewrite Hn, Hm in *. fold id in Hsub. fold id. cbn [fst snd calls activeNotes set_activeNotes set_calls].
  assert (started (calls s1 ++ setup ++
            [SetValueAtTime (node id NoteGainN) 0 (currentTime s1);
             LinearRamp (node id NoteGainN) v (currentTime s1 + attackTime (dimensions s1));
             LinearRamp (node id NoteGainN) (sustainLevel (dimensions s1) * v)
               (currentTime s1 + attackTime (dimensions s1) + decayTime (dimensions s1))] ++
            [Start (node id OscillatorN) (currentTime s1);
             Start (node id Oscillator2N) (currentTime s1);
             Start (node id Oscillator3N) (currentTime s1)] ++
            (if String.eqb (material s) "experimental"
             then [Start (node id Oscillator4N) (currentTime s1)] else [])) =
          started (calls s) ++
          [node id OscillatorN; node id Oscillator2N; node id Oscillator3N] ++
          (if String.eqb (material s) "experimental"
           then [node id Oscillator4N] else [])) as Hstarted.
  { unfold started in *. rewrite !omap_app, Hst, Hs.
    by destruct (String.eqb (material s) "experimental"). }
  split; [| split; [| split; [| split]]].
  - unfold created in *. rewrite !omap_app, Hc.
    apply elem_of_app. right. apply elem_of_app. left.
    apply list_elem_of_In. simpl. tauto.
  - apply elem_of_app. right. apply elem_of_app. by left.
  - intros Hp. destruct (Hpl Hp).
    split; apply elem_of_app; right; apply elem_of_app; by left.
  - exact Hstarted.
  - intros Hin. assert (String.eqb (material s) "experimental" = false) as Hexp.
    { apply String.eqb_neq. intros E. rewrite E in Hin.
      apply list_elem_of_In in Hin. simpl in Hin.
      destruct Hin as [?|[?|[?|[?|[]]]]]; discriminate. }
    rewrite Hstarted, Hexp. split; [done |].
    eexists. rewrite lookup_insert_eq. split; [reflexivity |].
    unfold newVoice; simpl. by rewrite Hexp.
Qed.

(** ** Frequencies *)

Lemma frequency_69 : frequency 69 = 440%R.
Proof.
  unfold frequency. change (IZR (69 - 69)) with 0%R.
  replace (0 / 12)%R with 0%R by lra.
  rewrite Rpower_O by lra. lra.
Qed.

(** The fourth power of [2^(-9/12)] is one eighth. *)
Lemma semitones_down_9 : (Rpower 2 (IZR (60 - 69) / 12) ^ 4 = / 8)%R.
Proof.
  change (IZR (60 - 69)) with (-9)%R.
  rewrite <- Rpower_pow by apply exp_pos. rewrite Rpower_mult.
  replace (-9 / 12 * INR 4)%R with (- INR 3)%R by (simpl; lra).
  rewrite Rpower_Ropp, Rpower_pow by lra. f_equal. lra.
Qed.

Lemma frequency_60 : (Rabs (frequency 60 - 261.63) <= 0.01)%R.
Proof.
  unfold frequency. set (x := Rpower 2 (IZR (60 - 69) / 12)).
  assert (0 < x)%R as Hpos by apply exp_pos.
  assert (x ^ 4 = / 8)%R as Hx by apply semitones_down_9.
  assert (26162 / 44000 <= x)%R as Hlo.
  { destruct (Rle_lt_dec (26162 / 44000) x) as [?|Hlt]; [done |].
    assert (x ^ 4 <= (26162 / 44000) ^ 4)%R by (apply pow_incr; lra). lra. }
  assert (x <= 26164 / 44000)%R as Hhi.
  { destruct (Rle_lt_dec x (26164 / 44000)) as [?|Hlt]; [done |].
    assert ((26164 / 44000) ^ 4 <= x ^ 4)%R by (apply pow_incr; lra). lra. }
  apply Rabs_le. lra.
Qed.

(** C9: on a built instrument [playNote] gives the primary oscillator the
    frequency [440 * 2^((pitch - 69) / 12)]; this is 440 Hz for pitch 69
    and within 0.01 Hz of 261.63 Hz for pitch 60.  Numbers are real
    numbers here. *)
Theorem equal_tempered_frequency :
  (∀ (B : Backend) (p : Z) (v : Q) (s : PianoModel),
     isBuilt s = true →
     let c := SetFrequency (node (nextObject s) OscillatorN) p 1 in
     c ∈ calls (exec (playNote B p v) s) ∧
     hertz c = Some (440 * Rpower 2 ((IZR p - 69) / 12))%R) ∧
  frequency 69 = 440%R ∧
  (Rabs (frequency 60 - 261.63) <= 0.01)%R.
Proof.
  split; [| split; [apply frequency_69 | apply frequency_60]].
  intros B p v s Hb c. split.
  - rewrite playNote_exec, Hb.
    pose proof (forceStopNote_settles B p s) as [_ _ _ _ _ _ _ Hn _ _].
    set (s1 := exec (forceStopNote B p) s) in *.
    destruct (startVoice_exec B p v s1) as (setup & _ & _ & [Hf _] & _ & H).
    rewrite Hn in Hf. fold c in Hf.
    unfold exec. destruct (startVoice B p v s1) as [[[]|e] s'].
    + subst s'. simpl. apply elem_of_app. right. apply elem_of_app. by left.
    + destruct H as (part & -> & _). simpl.
      apply elem_of_app. right. apply elem_of_app. by left.
  - unfold c, hertz, frequency. f_equal. rewrite minus_IZR.
    unfold Q2R. simpl. lra.
Qed.

(** ** Dimensions *)

Lemma buildPiano_exec B s :
  ∃ cs rs,
    buildPiano B s =
    (Returned tt,
     set_reports rs (set_calls cs (set_activeNotes ∅ (set_isBuilt true s)))).
Proof.
  unfold buildPiano.
  erewrite bind_returned by reflexivity.
  erewrite bind_returned by reflexivity.
  match goal with |- context [bind (stopAllNotes B true) _ ?s0] =>
    destruct (stopAllNotes_immediate B s0) as (cs & rs & H)
  end.
  erewrite bind_returned by exact H.
  by exists cs, (rs ++ [(LogLevel, PianoBuilt)]).
Qed.

Lemma buildPiano_total B : total (buildPiano B).
Proof.
  intros s. destruct (buildPiano_exec B s) as (cs & rs & H).
  unfold returns. by rewrite H.
Qed.

Lemma setDimensions_unfold B l w h s :
  setDimensions B l w h s =
  if isBuilt s
  then (stopAllNotes B false ;; reshape B l w h) (withDimensions l w h s)
  else (Returned tt, withDimensions l w h s).
Proof.
  unfold setDimensions.
  erewrite bind_returned by reflexivity.
  erewrite bind_returned by reflexivity.
  erewrite bind_returned by reflexivity.
  cbn [isBuilt set_reports set_dimensions].
  by destruct (isBuilt s).
Qed.

(** [reshape] returns with the new gain and wave shaper and the
    instrument rebuilt, unless the backend refuses to take a curve for the
    wave shaper that is in place; then only the gain has changed. *)
Lemma reshape_exec B l w h s :
  (∃ cs rs,
     reshape B l w h s =
     (Returned tt,
      set_reports rs (set_calls cs (set_activeNotes ∅ (set_isBuilt true
        (set_distortion
           (if Qgtb (volumeFactor l w h) 1.2
            then Some (volumeFactor l w h * 30) else None)
           (set_masterGain (masterGainFor (volumeFactor l w h)) s))))))) ∨
  (∃ rs,
     reshape B l w h s =
     (Thrown (SetCurveAgain (volumeFactor l w h * 30)),
      set_reports rs (set_masterGain (masterGainFor (volumeFactor l w h)) s)) ∧
     Qgtb (volumeFactor l w h) 1.2 = true ∧ is_Some (distortion s) ∧
     B (calls s) (SetCurveAgain (volumeFactor l w h * 30)) = true).
Proof.
  unfold reshape.
  erewrite bind_returned by reflexivity.
  erewrite bind_returned by reflexivity.
  erewrite bind_returned by reflexivity.
  cbn [distortion set_masterGain set_reports].
  destruct (Qgtb (volumeFactor l w h) 1.2).
  - destruct (distortion s) as [a|] eqn:E.
    + destruct (B (calls s) (SetCurveAgain (volumeFactor l w h * 30))) eqn:EB.
      * right. eexists. split; [| by eauto].
        erewrite bind_thrown; [reflexivity |].
        erewrite bind_returned by reflexivity.
        erewrite bind_thrown; [reflexivity |].
        unfold risky. cbn [calls set_reports set_masterGain]. by rewrite EB.
      * left.
        erewrite bind_returned; cycle 1.
        { erewrite bind_returned by reflexivity.
          erewrite bind_returned; [reflexivity |].
          unfold risky. cbn [calls set_reports set_masterGain]. rewrite EB.
          reflexivity. }
        match goal with |- context [buildPiano B ?s0] =>
          destruct (buildPiano_exec B s0) as (cs & rs & ->)
        end.
        by exists cs, rs.
    + left. erewrite bind_returned by reflexivity.
      match goal with |- context [buildPiano B ?s0] =>
        destruct (buildPiano_exec B s0) as (cs & rs & ->)
      end.
      by exists cs, rs.
  - left. destruct (distortion s) as [a|] eqn:E.
    + erewrite bind_returned by reflexivity.
      match goal with |- context [buildPiano B ?s0] =>
        destruct (buildPiano_exec B s0) as (cs & rs & ->)
      end.
      by exists cs, rs.
    + erewrite bind_returned by reflexivity.
      match goal with |- context [buildPiano B ?s0] =>
        destruct (buildPiano_exec B s0) as (cs & rs & ->)
      end.
      exists cs, rs. f_equal.
      unfold set_reports, set_calls, set_activeNotes, set_isBuilt,
        set_distortion, set_masterGain. simpl. by rewrite E.
Qed.

Lemma setDimensions_built B l w h s :
  isBuilt s = true →
  returns (setDimensions B l w h) s = true →
  ∃ s1 cs rs,
    settles (withDimensions l w h s) s1 ∧
    exec (setDimensions B l w h) s =
    set_reports rs (set_calls cs (set_activeNotes ∅ (set_isBuilt true
      (set_distortion
         (if Qgtb (volumeFactor l w h) 1.2
          then Some (volumeFactor l w h * 30) else None)
         (set_masterGain (masterGainFor (volumeFactor l w h)) s1))))).
Proof.
  intros Hb Hret. unfold returns, exec in *.
  rewrite setDimensions_unfold, Hb in *.
  pose proof (stopAllNotes_settles B false (withDimensions l w h s)) as Hs.
  unfold exec in Hs. unfold bind in *.
  destruct (stopAllNotes B false (withDimensions l w h s)) as [[[]|c] s1];
    [| done].
  destruct (reshape_exec B l w h s1) as [(cs & rs & E) | (rs & E & _)];
    rewrite E in *; [| done].
  by exists s1, cs, rs.
Qed.

(** C4: when [setDimensions] returns on a built instrument, the master
    gain is [min(0.7 * volumeFactor, 1.2)] with [volumeFactor] the volume
    over that of 180 x 150 x 40.  At the default dimensions 80 x 280 x 40
    the volume factor is 112/135 and that gain is 392/675; the factor is 1
    and the gain 0.7 at the reference dimensions, and 0.7 is also the gain
    a new instrument starts with. *)
Theorem setDimensions_master_gain (B : Backend) (l w h : Q) (s : PianoModel) :
  (isBuilt s = true →
   returns (setDimensions B l w h) s = true →
   masterGain (exec (setDimensions B l w h) s) =
     Qmin (0.7 * ((l * w * h) / (180 * 150 * 40))) 1.2) ∧
  volumeFactor 80 280 40 == 112 # 135 ∧
  masterGainFor (volumeFactor 80 280 40) == 392 # 675 ∧
  volumeFactor 180 150 40 == 1 ∧
  masterGainFor (volumeFactor 180 150 40) == 0.7 ∧
  dimensions constructor =
    {| Dims.length := 80; Dims.width := 280; Dims.height := 40 |} ∧
  masterGain constructor = 0.7.
Proof.
  split; [| by repeat split].
  intros Hb Hret.
  destruct (setDimensions_built B l w h s Hb Hret) as (s1 & cs & rs & _ & ->).
  reflexivity.
Qed.

(** At the default dimensions the volume factor is not 1, and
    [setDimensions] does not leave the master gain at 0.7. *)
Lemma default_volume_factor_is_not_one :
  ¬ volumeFactor 80 280 40 == 1 ∧
  ¬ masterGain (exec (setDimensions quiet 80 280 40)
                  (exec (buildPiano quiet) constructor)) == 0.7.
Proof. split; vm_compute; discriminate. Qed.

(** ** The envelope *)

Ltac qdiv :=
  unfold Qdiv; change (/ 100) with (1 # 100); change (/ 200) with (1 # 200).

Lemma decayTime_increasing d d' :
  Dims.height d < Dims.height d' → decayTime d < decayTime d'.
Proof. unfold decayTime. intros. qdiv. lra. Qed.

Lemma sustainLevel_increasing d d' :
  Dims.width d < Dims.width d' → sustainLevel d < sustainLevel d'.
Proof. unfold sustainLevel. intros. qdiv. lra. Qed.

Lemma releaseTime_increasing d d' :
  Dims.length d < Dims.length d' → releaseTime d < releaseTime d'.
Proof. unfold releaseTime. intros. qdiv. lra. Qed.

Lemma attackTime_floor d : 0.001 <= attackTime d.
Proof. unfold attackTime. apply Q.le_max_l. Qed.

Lemma attackTime_ceiling d : 0 <= Dims.height d → attackTime d <= 0.1.
Proof. unfold attackTime. intros. apply Q.max_lub; qdiv; lra. Qed.

(** The values of the envelope are those of the ramps that [playNote]
    schedules, and the release time is stored with the voice. *)
Lemma playNote_schedules_envelope B p v s :
  isBuilt s = true →
  returns (playNote B p v) s = true →
  let d := dimensions s in
  let s' := exec (playNote B p v) s in
  let g := node (nextObject s) NoteGainN in
  let now := currentTime s in
  LinearRamp g v (now + attackTime d) ∈ calls s' ∧
  LinearRamp g (sustainLevel d * v) (now + attackTime d + decayTime d) ∈ calls s' ∧
  (Note.releaseTime <$> activeNotes s' !! p) = Some (releaseTime d).
Proof.
  intros Hb Hret d s' g now. subst d s' g now.
  unfold returns, exec in *. rewrite playNote_unfold, Hb in *.
  pose proof (forceStopNote_settles B p s) as [_ Hdim _ _ _ _ Ht Hn _ _].
  fold (exec (forceStopNote B p) s) in *.
  set (s1 := exec (forceStopNote B p) s) in *.
  destruct (startVoice_exec B p v s1) as (setup & _ & _ & _ & _ & H).
  destruct (startVoice B p v s1) as [[[]|c] s']; [| done]. subst s'.
  rewrite Hn, Ht, Hdim.
  cbn [fst snd calls activeNotes set_activeNotes set_calls].
  split; [| split].
  - apply elem_of_app. right. apply elem_of_app. right.
    apply list_elem_of_In. simpl. tauto.
  - apply elem_of_app. right. apply elem_of_app. right.
    apply list_elem_of_In. simpl. tauto.
  - by rewrite lookup_insert_eq.
Qed.

(** The attack of a taller instrument is the shorter one, strictly so up
    to the height 100, where the floor of 0.001 is reached. *)
Lemma attackTime_decreasing d d' :
  Dims.height d < Dims.height d' → Dims.height d' <= 100 →
  attackTime d' < attackTime d.
Proof.
  unfold attackTime. intros H H'.
  apply Q.max_lub_lt.
  - eapply Qlt_le_trans; [| apply Q.le_max_r]. qdiv. lra.
  - eapply Qlt_le_trans; [| apply Q.le_max_r]. qdiv. lra.
Qed.

(** C5: the envelope that [playNote] computes leaves the ranges that
    the comments beside the formulas give, and its attack runs against
    them.  The sustain level is [0.1 + 0.8 * width / 200] with no clamp:
    above 0.9 for every width above 200 and above 1 for every width
    above 225, so that at the default width 280 it is 1.22 and the
    ramp that [playNote] schedules as the decay of a note of velocity
    0.7 rises to 0.854.  The release time is [0.1 + 0.7 * length / 200]
    with no clamp: above 0.8 s for every length above 200, which the
    editor allows up to 300.  The attack time has its floor of 0.001 s
    and, for a height that is not negative, its ceiling of 0.1 s, but it
    falls as the height grows: the taller instrument has the faster
    attack.  Decay time grows with the height. *)
Theorem envelope_leaves_commented_ranges :
  (∀ d, 200 < Dims.width d → 0.9 < sustainLevel d) ∧
  (∀ d, 225 < Dims.width d → 1 < sustainLevel d) ∧
  (∀ d, 200 < Dims.length d → 0.8 < releaseTime d) ∧
  (∀ d d', Dims.height d < Dims.height d' → Dims.height d' <= 100 →
           attackTime d' < attackTime d) ∧
  (∀ d d', Dims.height d < Dims.height d' → decayTime d < decayTime d') ∧
  (∀ d, 0.001 <= attackTime d ∧ (0 <= Dims.height d → attackTime d <= 0.1)) ∧
  let d := dimensions constructor in
  let s := run strict [BuildPiano; PlayNote 60 0.7] constructor in
  let g := node 0 NoteGainN in
  sustainLevel d == 1.22 ∧
  LinearRamp g 0.7 (0 + attackTime d) ∈ calls s ∧
  LinearRamp g (sustainLevel d * 0.7) (0 + attackTime d + decayTime d) ∈ calls s ∧
  sustainLevel d * 0.7 == 0.854 ∧
  releaseTime {| Dims.length := maxDimensions_length newPianoUI;
                 Dims.width := 220; Dims.height := 40 |} == 1.15 ∧
  attackTime {| Dims.length := 80; Dims.width := 280; Dims.height := 60 |} <
  attackTime {| Dims.length := 80; Dims.width := 280; Dims.height := 40 |}.
Proof.
  split; [intros d H; unfold sustainLevel; qdiv; lra |].
  split; [intros d H; unfold sustainLevel; qdiv; lra |].
  split; [intros d H; unfold releaseTime; qdiv; lra |].
  split; [apply attackTime_decreasing |].
  split; [apply decayTime_increasing |].
  split; [intros d; split; [apply attackTime_floor | apply attackTime_ceiling] |].
  intros d s g.
  split; [reflexivity |].
  split; [apply list_elem_of_In; vm_compute; tauto |].
  split; [apply list_elem_of_In; vm_compute; tauto |].
  split; [reflexivity |]. split; reflexivity.
Qed.

(** ** Releasing voices does not look at the dimensions *)














(** An instrument that is not built takes the values and does nothing
    else; a built one without voices and without a curve to assign again
    returns as well. *)
Lemma setDimensions_returns B l w h s :
  isBuilt s = false ∨
  (activeNotes s = ∅ ∧
   (distortion s = None ∨ Qgtb (volumeFactor l w h) 1.2 = false)) →
  returns (setDimensions B l w h) s = true.
Proof.
  intros H. unfold returns. rewrite setDimensions_unfold.
  destruct (isBuilt s); [| done].
  destruct H as [? | [Hn Hd]]; [done |].
  erewrite bind_returned; cycle 1.
  { unfold stopAllNotes, noteNumbers. erewrite bind_returned by reflexivity.
    cbn [activeNotes withDimensions set_reports set_dimensions].
    rewrite Hn, map_to_list_empty. reflexivity. }
  destruct (reshape_exec B l w h (withDimensions l w h s))
    as [(cs & rs & ->) | (rs & _ & Hv & [a Ha] & _)]; [done |].
  simpl in Ha. destruct Hd; congruence.
Qed.

Lemma setDimensions_throws_built B l w h s :
  returns (setDimensions B l w h) s = false → isBuilt s = true.
Proof.
  intros H. destruct (isBuilt s) eqn:Hb; [done |].
  rewrite setDimensions_returns in H by auto. done.
Qed.

Lemma setDimensions_dimensions B l w h s :
  dimensions (exec (setDimensions B l w h) s) =
  {| Dims.length := l; Dims.width := w; Dims.height := h |}.
Proof.
  unfold exec. rewrite setDimensions_unfold.
  destruct (isBuilt s); [| done].
  pose proof (stopAllNotes_settles B false (withDimensions l w h s)) as Hs.
  unfold exec in Hs. unfold bind.
  destruct (stopAllNotes B false (withDimensions l w h s)) as [[[]|c] s1];
    simpl in *; [| by destruct Hs].
  destruct (reshape_exec B l w h s1) as [(cs & rs & ->) | (rs & -> & _)];
    simpl; by destruct Hs.
Qed.




(** ** A height below zero *)

(** The values that [setDimensions] stores reach the envelope as they
    are.  With a height of -20 the decay ends before time zero; Web Audio
    refuses the ramp, [playNote] throws after it has created its nodes,
    and no oscillator starts and no voice is stored. *)
Example negative_height_refused :
  let s := run strict [SetDimensions 80 280 (-20); BuildPiano] constructor in
  returns (playNote strict 60 0.7) s = false ∧
  activeNotes (exec (playNote strict 60 0.7) s) !! 60%Z = None ∧
  started (calls (exec (playNote strict 60 0.7) s)) = [] ∧
  length (created (calls (exec (playNote strict 60 0.7) s))) = 9%nat.
Proof. vm_compute. repeat split; reflexivity. Qed.

(** A backend that accepts every call never makes [playNote] throw. *)
Lemma total_risky_quiet c : total (risky quiet c).
Proof. done. Qed.

Lemma total_of_exec {A} (m : M A) :
  (∀ s, ∃ a s', m s = (Returned a, s')) → total m.
Proof. intros H s. destruct (H s) as (a & s' & E). unfold returns. by rewrite E. Qed.

Lemma createNodes_total p id : total (createNodes p id).
Proof. apply total_of_exec. intros s. eexists _, _. apply createNodes_exec. Qed.

Lemma connectNodes_total id : total (connectNodes id).
Proof. apply total_of_exec. intros s. eexists _, _. apply connectNodes_exec. Qed.

Lemma startOscillators_total m id now : total (startOscillators m id now).
Proof.
  apply total_of_exec. intros s. eexists _, _. apply startOscillators_exec.
Qed.

Lemma materialRecipe_total m d p id : total (materialRecipe m d p id).
Proof.
  apply total_of_exec. intros s.
  destruct (materialRecipe_exec m d p id s) as (added & H & _). eauto.
Qed.

Lemma startVoice_quiet_total p v : total (startVoice quiet p v).
Proof.
  unfold startVoice, scheduleEnvelope, storeNote.
  repeat lazymatch goal with
    | |- total (bind _ _) => apply total_bind; [| intros ?]
    | |- total (gets _) => apply total_gets
    | |- total (modify _) => apply total_modify
    | |- total (risky quiet _) => apply total_risky_quiet
    | |- total (createNodes _ _) => apply createNodes_total
    | |- total (connectNodes _) => apply connectNodes_total
    | |- total (startOscillators _ _ _) => apply startOscillators_total
    | |- total (materialRecipe _ _ _ _) => apply materialRecipe_total
    end.
Qed.

Lemma returns_playNote B p v s :
  returns (playNote B p v) s =
  if isBuilt s then returns (startVoice B p v) (exec (forceStopNote B p) s)
  else true.
Proof.
  unfold returns. rewrite playNote_unfold.
  generalize (exec (forceStopNote B p) s). intros s1.
  destruct (isBuilt s); reflexivity.
Qed.

Lemma playNote_quiet_returns p v s : returns (playNote quiet p v) s = true.
Proof.
  rewrite returns_playNote. destruct (isBuilt s); [| done].
  apply startVoice_quiet_total.
Qed.

(** * Properties of the rest of the application *)

(** ** Releasing a voice *)

Lemma releaseVoice_logs_only B note now : respects logs_only (releaseVoice B note now).
Proof.
  unfold releaseVoice.
  respects_with ltac:(first [ apply rampToZero_logs_only
                            | apply stopOscillators_logs_only
                            | logs_only_leaf ]).
Qed.

(** [stopNote] on a registered pitch is the release of the voice followed
    by the scheduling of its three timers. *)
Lemma stopNote_split B p s note :
  activeNotes s !! p = Some note →
  stopNote B p s =
  bind (releaseVoice B note (currentTime s))
    (λ _, modify (λ s1, set_timers (timers s1 ++ cleanupTimers p note) s1)) s.
Proof.
  intros Hn. unfold stopNote, lookupNote.
  erewrite bind_returned by reflexivity. rewrite Hn.
  erewrite bind_returned by reflexivity.
  unfold releaseVoice.
  symmetry. repeat (rewrite bind_assoc; apply bind_ext; intros ? ?).
  unfold try_catch, bind.
  match goal with |- context [stopOscillators B note ?t ?s0] =>
    destruct (stopOscillators B note t s0) as [[[]|c] sx]
  end.
  - unfold setTimeout, modify, cleanupTimers; simpl. by rewrite <- !app_assoc.
  - unfold console, setTimeout, modify, cleanupTimers; simpl.
    by rewrite <- !app_assoc.
Qed.

Lemma stopNote_cases B p s note :
  activeNotes s !! p = Some note →
  (∃ cs rs,
     stopNote B p s =
     (Returned tt,
      set_timers (timers s ++ cleanupTimers p note)
        (set_reports rs (set_calls cs s)))) ∨
  (∃ c cs rs, stopNote B p s = (Thrown c, set_reports rs (set_calls cs s))).
Proof.
  intros Hn. rewrite (stopNote_split B p s note Hn).
  pose proof (releaseVoice_logs_only B note (currentTime s) s) as Hl.
  unfold exec in Hl. unfold bind.
  destruct (releaseVoice B note (currentTime s) s) as [[[]|c] s1];
    simpl in Hl; destruct Hl as (cs & rs & ->); [left | right]; eauto.
Qed.

(** X1: when [stopNote] returns on a registered pitch, the voice is still
    registered and exactly three timers have been added for it, primary,
    backup and emergency, with delays in that order and the first at most
    half a second; when the backend refuses a ramp of the release,
    [stopNote] throws and neither the registry nor the timers change. *)
Theorem stopNote_schedules_cleanup (B : Backend) (p : Z) (s : PianoModel) (note : Voice) :
  activeNotes s !! p = Some note →
  let s' := exec (stopNote B p) s in
  let cleanupTime := Qmin (Note.releaseTime note + 0.1) 0.5 * 1000 in
  activeNotes s' = activeNotes s ∧
  (returns (stopNote B p) s = true →
   timers s' = timers s ++
     [ {| t_kind := Primary; t_midiNote := p; t_note := note;
          t_delay := cleanupTime |};
       {| t_kind := Backup; t_midiNote := p; t_note := note;
          t_delay := cleanupTime + 1000 |};
       {| t_kind := Emergency; t_midiNote := p; t_note := note;
          t_delay := 5000 |} ]) ∧
  (returns (stopNote B p) s = false → timers s' = timers s) ∧
  cleanupTime <= 500 ∧ cleanupTime < cleanupTime + 1000 ∧
  cleanupTime + 1000 < 5000.
Proof.
  intros Hn s' c. subst s'. unfold returns, exec.
  destruct (stopNote_cases B p s note Hn) as [(cs & rs & ->) | (e & cs & rs & ->)];
    simpl.
  - repeat split; try done.
    + apply (Qle_trans _ (0.5 * 1000)); [| done].
      apply Qmult_le_compat_r; [apply Q.le_min_r | done].
    + subst c. lra.
    + assert (c <= 500); [| lra].
      apply (Qle_trans _ (0.5 * 1000)); [| done].
      apply Qmult_le_compat_r; [apply Q.le_min_r | done].
  - repeat split; try done.
    + apply (Qle_trans _ (0.5 * 1000)); [| done].
      apply Qmult_le_compat_r; [apply Q.le_min_r | done].
    + subst c. lra.
    + assert (c <= 500); [| lra].
      apply (Qle_trans _ (0.5 * 1000)); [| done].
      apply Qmult_le_compat_r; [apply Q.le_min_r | done].
Qed.

(** ** The callbacks of the timers *)

Lemma callback_absent t s :
  activeNotes s !! t_midiNote t = None → callback t s = (Returned tt, s).
Proof.
  intros H. unfold callback, lookupNote, bind, gets. rewrite H.
  by destruct (t_kind t).
Qed.

Lemma callback_same_voice t s v :
  activeNotes s !! t_midiNote t = Some v →
  same_voice v (t_note t) = true →
  ∃ rs, callback t s =
        (Returned tt,
         set_reports rs
           (set_activeNotes (delete (t_midiNote t) (activeNotes s)) s)).
Proof.
  intros Hv Hs. unfold callback, lookupNote, bind, gets. rewrite Hv.
  destruct (t_kind t); simpl; rewrite ?Hs; simpl; eauto.
Qed.

Lemma fireTimer_lookup i t s :
  timers s !! i = Some t →
  fireTimer i s = callback t (set_timers (take i (timers s) ++ drop (S i) (timers s)) s).
Proof. intros H. unfold fireTimer, bind, gets, modify. by rewrite H. Qed.

Lemma remove_at_app {A} (ts : list A) x rest :
  take (length ts) (ts ++ x :: rest) ++ drop (S (length ts)) (ts ++ x :: rest)
  = ts ++ rest.
Proof.
  rewrite take_app_length.
  replace (S (length ts)) with (length (ts ++ [x])) by (rewrite length_app; simpl; lia).
  by rewrite (cons_middle x ts rest), app_assoc, drop_app_length.
Qed.

Lemma lookup_at_app {A} (ts : list A) x rest :
  (ts ++ x :: rest) !! length ts = Some x.
Proof. by rewrite list_lookup_middle. Qed.

(** X2: after a release that returned, whichever of its three timers
    fires first removes the entry of the released voice; fired one after
    the other with nothing in between, the first removes the entry, the
    other two change nothing, and no timer of the release stays pending. *)
Theorem release_timers_remove_entry (B : Backend) (p : Z) (s : PianoModel) (note : Voice) :
  activeNotes s !! p = Some note →
  returns (stopNote B p) s = true →
  let n := length (timers s) in
  let s' := exec (stopNote B p) s in
  let s1 := exec (fireTimer n) s' in
  let s2 := exec (fireTimer n) s1 in
  let s3 := exec (fireTimer n) s2 in
  (∀ i, (i < 3)%nat →
     activeNotes (exec (fireTimer (n + i)) s') = delete p (activeNotes s)) ∧
  activeNotes s1 = delete p (activeNotes s) ∧
  activeNotes s2 = delete p (activeNotes s) ∧
  activeNotes s3 = delete p (activeNotes s) ∧
  timers s3 = timers s.
Proof.
  intros Hn Hret n s' s1 s2 s3. subst s1 s2 s3 s' n.
  unfold returns, exec in *.
  destruct (stopNote_cases B p s note Hn) as [(cs & rs & E) | (e & cs & rs & E)];
    rewrite E in *; [clear Hret E | done]. simpl.
  set (s0 := set_reports rs (set_calls cs s)).
  assert (same_voice note note = true) as Hsame by apply Nat.eqb_refl.
  split.
  - intros i Hi.
    assert (∃ t, cleanupTimers p note !! i = Some t ∧ t_midiNote t = p ∧ t_note t = note)
      as (t & Ht & Hp & Hv).
    { destruct i as [|[|[|i]]]; [eauto .. | lia]. }
    erewrite fireTimer_lookup
      by (simpl; rewrite lookup_app_r by lia;
          replace (length (timers s) + i - length (timers s))%nat with i by lia;
          exact Ht).
    edestruct (callback_same_voice t) as (rs' & ->);
      [rewrite Hp; simpl; exact Hn | by rewrite Hv |].
    simpl. by rewrite Hp.
  - unfold cleanupTimers.
    erewrite fireTimer_lookup by (simpl; apply lookup_at_app).
    cbn [timers set_timers]. rewrite remove_at_app.
    edestruct (callback_same_voice
      {| t_kind := Primary; t_midiNote := p; t_note := note;
         t_delay := Qmin (Note.releaseTime note + 0.1) 0.5 * 1000 |})
      as (rs1 & ->); [simpl; exact Hn | done |]. simpl.
    erewrite fireTimer_lookup by (simpl; apply lookup_at_app).
    cbn [timers set_timers set_reports set_activeNotes]. rewrite remove_at_app.
    rewrite callback_absent by (simpl; apply lookup_delete_eq). simpl.
    erewrite fireTimer_lookup by (simpl; apply lookup_at_app).
    cbn [timers set_timers set_reports set_activeNotes]. rewrite remove_at_app.
    rewrite callback_absent by (simpl; apply lookup_delete_eq). simpl.
    by rewrite app_nil_r.
Qed.

(** ** Releasing all voices *)

Lemma stopNote_notes B p s : activeNotes (exec (stopNote B p) s) = activeNotes s.
Proof.
  unfold exec. destruct (activeNotes s !! p) as [note|] eqn:E.
  - by destruct (stopNote_cases B p s note E)
      as [(cs & rs & ->) | (e & cs & rs & ->)].
  - by rewrite stopNote_absent.
Qed.

Lemma forEach_stopNote B (ns : list Z) s :
  activeNotes (exec (forEach ns (stopNote B)) s) = activeNotes s ∧
  ((∀ p, p ∈ ns → is_Some (activeNotes s !! p)) →
   returns (forEach ns (stopNote B)) s = true →
   length (timers (exec (forEach ns (stopNote B)) s)) =
   (length (timers s) + 3 * length ns)%nat).
Proof.
  revert s. induction ns as [|p ns IH]; intros s.
  { split; [done |]. intros _ _. unfold exec. simpl. lia. }
  cbn [forEach]. pose proof (stopNote_notes B p s) as Hk.
  unfold exec, returns in *. unfold bind.
  destruct (activeNotes s !! p) as [note|] eqn:E.
  - destruct (stopNote_cases B p s note E)
      as [(cs & rs & Es) | (e & cs & rs & Es)]; rewrite Es in *; simpl in *.
    + destruct (IH (set_timers (timers s ++ cleanupTimers p note)
                     (set_reports rs (set_calls cs s)))) as [IH1 IH2].
      split; [by rewrite IH1 |]. intros Hall Hret.
      rewrite IH2; [| intros q Hq; simpl; apply Hall; by right | done].
      simpl. rewrite length_app. simpl. lia.
    + split; [done | by intros _ ?].
  - rewrite stopNote_absent in * by done. destruct (IH s) as [IH1 IH2].
    split; [done |]. intros Hall. destruct (Hall p) as [? ?]; [by left | congruence].
Qed.

Lemma length_noteNumbers s : length (noteNumbers s) = size (activeNotes s).
Proof.
  unfold noteNumbers. rewrite merge_sort_Permutation, length_fmap.
  apply length_map_to_list.
Qed.

Lemma stopAllNotes_release_empty B s :
  activeNotes s = ∅ → stopAllNotes B false s = (Returned tt, s).
Proof.
  intros He.
  change (stopAllNotes B false s) with (forEach (noteNumbers s) (stopNote B) s).
  assert (noteNumbers s = []) as ->; [| done].
  apply length_zero_iff_nil. rewrite length_noteNumbers, He.
  apply map_size_empty.
Qed.

Lemma stopAllNotes_release_notes B s :
  activeNotes (exec (stopAllNotes B false) s) = activeNotes s.
Proof.
  change (stopAllNotes B false) with
    (bind (gets noteNumbers) (λ ns, forEach ns (stopNote B))).
  unfold exec. erewrite bind_returned by reflexivity.
  apply (forEach_stopNote B (noteNumbers s) s).
Qed.

(** X3: [stopAllNotes()] without the immediate flag removes no entry of
    the registry, whatever the backend does; when it returns it has added
    three timers for every registered pitch; on an empty registry it does
    nothing. *)
Theorem stopAllNotes_release_keeps_registry (B : Backend) (s : PianoModel) :
  let s' := exec (stopAllNotes B false) s in
  activeNotes s' = activeNotes s ∧
  (returns (stopAllNotes B false) s = true →
   length (timers s') = (length (timers s) + 3 * size (activeNotes s))%nat) ∧
  (activeNotes s = ∅ → stopAllNotes B false s = (Returned tt, s)).
Proof.
  intros s'. subst s'.
  change (stopAllNotes B false s) with (forEach (noteNumbers s) (stopNote B) s).
  unfold exec, returns.
  change (stopAllNotes B false s) with (forEach (noteNumbers s) (stopNote B) s).
  destruct (forEach_stopNote B (noteNumbers s) s) as [H1 H2].
  split; [exact H1 |]. split.
  - intros Hret. rewrite <- length_noteNumbers. apply H2; [| exact Hret].
    intros p. apply elem_of_noteNumbers.
  - intros He. unfold noteNumbers. by rewrite He, map_to_list_empty.
Qed.

(** ** Building and rebuilding *)

Lemma buildPiano_state B s :
  ∃ cs rs,
    buildPiano B s =
    (Returned tt,
     set_reports rs (set_calls cs (set_activeNotes ∅ (set_isBuilt true s)))) ∧
    started cs = started (calls s) ∧ created cs = created (calls s).
Proof.
  unfold buildPiano.
  erewrite bind_returned by reflexivity.
  erewrite bind_returned by reflexivity.
  match goal with |- context [bind (stopAllNotes B true) _ ?s0] =>
    destruct (stopAllNotes_immediate B s0) as (cs & rs & H);
    pose proof (stopAllNotes_settles B true s0) as Hs
  end.
  unfold exec in Hs. rewrite H in Hs. destruct Hs as [_ _ _ _ _ _ _ _ Hst Hcr].
  erewrite bind_returned by exact H.
  exists cs, (rs ++ [(LogLevel, PianoBuilt)]). done.
Qed.

(** X4: [buildPiano] always returns; it marks the instrument built and
    empties the registry, and it leaves the dimensions, the material, the
    master gain, the wave shaper and the pending timers as they were; it
    creates and starts no node. *)
Theorem buildPiano_resets_voices_only (B : Backend) (s : PianoModel) :
  let s' := exec (buildPiano B) s in
  returns (buildPiano B) s = true ∧
  isBuilt s' = true ∧ activeNotes s' = ∅ ∧
  dimensions s' = dimensions s ∧ material s' = material s ∧
  masterGain s' = masterGain s ∧ distortion s' = distortion s ∧
  timers s' = timers s ∧ nextObject s' = nextObject s ∧
  started (calls s') = started (calls s) ∧
  created (calls s') = created (calls s).
Proof.
  intros s'. subst s'. unfold returns, exec.
  destruct (buildPiano_state B s) as (cs & rs & -> & Hst & Hcr). by repeat split.
Qed.

(** X5: [setMaterial] always returns and stores the string it is given;
    on an instrument that is not built nothing else changes, and on a
    built one the instrument is rebuilt: it stays built and its registry
    is emptied, with dimensions, master gain and wave shaper untouched. *)
Theorem setMaterial_rebuilds (B : Backend) (m : string) (s : PianoModel) :
  let s' := exec (setMaterial B m) s in
  returns (setMaterial B m) s = true ∧
  material s' = m ∧
  (isBuilt s = false → setMaterial B m s = (Returned tt, set_material m s)) ∧
  (isBuilt s = true →
   isBuilt s' = true ∧ activeNotes s' = ∅ ∧ dimensions s' = dimensions s ∧
   masterGain s' = masterGain s ∧ distortion s' = distortion s).
Proof.
  intros s'. subst s'. unfold returns, exec, setMaterial.
  erewrite bind_returned by reflexivity.
  erewrite bind_returned by reflexivity.
  cbn [isBuilt set_material]. destruct (isBuilt s); simpl.
  - destruct (buildPiano_state B (set_material m s)) as (cs & rs & -> & _).
    by repeat split.
  - by repeat split.
Qed.

(** X6: the first click on the build button of a new instrument stores
    the dimensions and builds, but leaves the master gain and the wave
    shaper as they were, since [setDimensions] adjusts them on a built
    instrument only; a second click with the same dimensions sets the
    master gain to [min(0.7 * volumeFactor, 1.2)], and it returns when
    the instrument had no wave shaper to begin with, as a new one has
    none. *)
Theorem first_build_keeps_master_gain (B : Backend) (l w h : Q) (s : PianoModel) :
  isBuilt s = false →
  let s1 := exec (buildClick B l w h) s in
  let s2 := exec (buildClick B l w h) s1 in
  returns (buildClick B l w h) s = true ∧
  isBuilt s1 = true ∧
  dimensions s1 = {| Dims.length := l; Dims.width := w; Dims.height := h |} ∧
  masterGain s1 = masterGain s ∧ distortion s1 = distortion s ∧
  (distortion s = None → returns (buildClick B l w h) s1 = true) ∧
  masterGain s2 = masterGainFor (volumeFactor l w h).
Proof.
  intros Hb s1 s2.
  assert (buildClick B l w h s = buildPiano B (withDimensions l w h s)) as E1.
  { unfold buildClick. erewrite bind_returned; [reflexivity |].
    by rewrite setDimensions_unfold, Hb. }
  destruct (buildPiano_state B (withDimensions l w h s)) as (cs & rs & E2 & _).
  assert (s1 = set_reports rs (set_calls cs (set_activeNotes ∅
            (set_isBuilt true (withDimensions l w h s))))) as Hs1
    by (subst s1; unfold exec; by rewrite E1, E2).
  assert (isBuilt s1 = true) as Hb1 by (by rewrite Hs1).
  assert (activeNotes s1 = ∅) as Hn1 by (by rewrite Hs1).
  assert (distortion s1 = distortion s) as Hd1 by (by rewrite Hs1).
  assert (setDimensions B l w h s1 =
          reshape B l w h (withDimensions l w h s1)) as E3.
  { rewrite setDimensions_unfold, Hb1.
    erewrite bind_returned; [reflexivity |].
    by apply stopAllNotes_release_empty. }
  split; [unfold returns; by rewrite E1, E2 |].
  split; [done |]. split; [by rewrite Hs1 |]. split; [by rewrite Hs1 |].
  split; [done |].
  subst s2. unfold returns, exec, buildClick, bind. rewrite E3.
  destruct (reshape_exec B l w h (withDimensions l w h s1))
    as [(cs' & rs' & ->) | (rs' & -> & _ & [a Ha] & _)].
  - match goal with |- context [buildPiano B ?s0] =>
      destruct (buildPiano_state B s0) as (cs'' & rs'' & -> & _)
    end.
    done.
  - simpl in *. split; [| done]. intros Hn. congruence.
Qed.

(** X7: when [setDimensions] returns on a built instrument, the wave
    shaper is present exactly when the volume factor is above 1.2, with
    the amount [volumeFactor * 30], whatever was there before. *)
Theorem wave_shaper_follows_volume (B : Backend) (l w h : Q) (s : PianoModel) :
  isBuilt s = true →
  returns (setDimensions B l w h) s = true →
  let s' := exec (setDimensions B l w h) s in
  (1.2 < volumeFactor l w h → distortion s' = Some (volumeFactor l w h * 30)) ∧
  (volumeFactor l w h <= 1.2 → distortion s' = None).
Proof.
  intros Hb Hret s'. subst s'.
  destruct (setDimensions_built B l w h s Hb Hret) as (sx & cs & rs & _ & ->).
  simpl. unfold Qgtb.
  destruct (volumeFactor l w h ?= 1.2) eqn:E; split; intros H;
    try reflexivity;
    first [ apply Qgt_alt in H; congruence
          | exfalso; exact (proj1 (Qle_alt _ _) H E) ].
Qed.

(** ** When [playNote] throws *)

(** Of all the calls of [startVoice] only the three of the envelope can
    throw. *)
Lemma returns_startVoice B p v s :
  ∃ cs,
    returns (startVoice B p v) s =
    returns (scheduleEnvelope B (dimensions s) v (nextObject s) (currentTime s))
      (set_calls cs (set_nextObject (S (nextObject s)) s)).
Proof.
  unfold returns at 1. unfold startVoice.
  erewrite bind_returned by reflexivity.
  erewrite bind_returned by reflexivity.
  erewrite bind_returned by apply createNodes_exec.
  erewrite bind_returned by reflexivity.
  erewrite bind_returned by reflexivity.
  cbn [material dimensions calls set_calls set_nextObject].
  match goal with |- context [bind (materialRecipe ?m ?d p ?id) _ ?s0] =>
    destruct (materialRecipe_exec m d p id s0) as (added & Hrec & _)
  end.
  rewrite set_calls_app in Hrec.
  erewrite bind_returned by exact Hrec. clear Hrec.
  erewrite bind_returned
    by (rewrite connectNodes_exec, set_calls_app; reflexivity).
  erewrite bind_returned by reflexivity.
  cbn [currentTime calls set_calls set_nextObject dimensions nextObject].
  match goal with |- context [bind (scheduleEnvelope B ?d v ?id ?now) _ ?s0] =>
    match s0 with set_calls ?cs _ => exists cs end;
    destruct (scheduleEnvelope_exec B d v id now s0)
      as [He | (c & part & He & _)]
  end.
  - unfold returns. rewrite He.
    erewrite bind_returned by exact He.
    erewrite bind_returned
      by (rewrite startOscillators_exec; reflexivity).
    reflexivity.
  - unfold returns. rewrite He.
    erewrite bind_thrown by exact He. reflexivity.
Qed.

Lemma Qgtb_0_false t : Qgtb 0 t = false ↔ 0 <= t.
Proof.
  unfold Qgtb. split.
  - intros H. apply Qle_alt. intros E. by rewrite E in H.
  - intros H. destruct (0 ?= t) eqn:E; try reflexivity.
    exfalso. exact (proj1 (Qle_alt _ _) H E).
Qed.

Lemma returns_scheduleEnvelope_strict d v id now s :
  returns (scheduleEnvelope strict d v id now) s =
  negb (Qgtb 0 now) && negb (Qgtb 0 (now + attackTime d))
  && negb (Qgtb 0 (now + attackTime d + decayTime d)).
Proof.
  unfold returns, scheduleEnvelope, bind, risky. simpl.
  destruct (Qgtb 0 now); simpl; [done |].
  destruct (Qgtb 0 (now + attackTime d)); simpl; [done |].
  destruct (Qgtb 0 (now + attackTime d + decayTime d)); simpl; done.
Qed.

Lemma returns_playNote_strict p v s :
  returns (playNote strict p v) s =
  if isBuilt s
  then negb (Qgtb 0 (currentTime s))
       && negb (Qgtb 0 (currentTime s + attackTime (dimensions s)))
       && negb (Qgtb 0 (currentTime s + attackTime (dimensions s)
                        + decayTime (dimensions s)))
  else true.
Proof.
  rewrite returns_playNote. destruct (isBuilt s); [| done].
  pose proof (forceStopNote_settles strict p s) as Hs.
  destruct Hs as [_ Hd _ _ _ _ Ht _ _ _].
  destruct (returns_startVoice strict p v (exec (forceStopNote strict p) s))
    as (cs & ->).
  by rewrite returns_scheduleEnvelope_strict, Hd, Ht.
Qed.

(** X8: with a backend that follows the rules of Web Audio (a negative
    time is refused, as is stopping an oscillator that was not started),
    [playNote] on a built instrument returns exactly when the clock is not
    negative and the end of the decay, [now + attack + decay], is not
    negative either; the voice that was registered for the pitch plays no
    part in it. *)
Theorem playNote_throws_on_negative_time_only (p : Z) (v : Q) (s : PianoModel) :
  isBuilt s = true →
  (returns (playNote strict p v) s = true ↔
   0 <= currentTime s ∧
   0 <= currentTime s + attackTime (dimensions s) + decayTime (dimensions s)).
Proof.
  intros Hb. rewrite returns_playNote_strict, Hb.
  rewrite !andb_true_iff, !negb_true_iff, !Qgtb_0_false.
  pose proof (attackTime_floor (dimensions s)) as Ha.
  split.
  - intros [[H1 H2] H3]. done.
  - intros [H1 H3]. repeat split; try done. lra.
Qed.

(** ** The controller *)

Lemma bindC_returned {A C} (m : MC A) (k : A → MC C) c a c' :
  m c = (Returned a, c') → bindC m k c = k a c'.
Proof. intros H. unfold bindC. by rewrite H. Qed.

Lemma bindC_thrown {A C} (m : MC A) (k : A → MC C) c e c' :
  m c = (Thrown e, c') → bindC m k c = (Thrown e, c').
Proof. intros H. unfold bindC. by rewrite H. Qed.

Lemma engine_returned {A} (m : M A) c a p :
  m (pianoModel c) = (Returned a, p) →
  engine m c = (Returned a, set_pianoModel p c).
Proof. intros H. unfold engine. by rewrite H. Qed.

Lemma set_pianoModel_id c : set_pianoModel (pianoModel c) c = c.
Proof. by destruct c. Qed.

(** A second [forceStopNote] finds no entry. *)
Lemma forceStopNote_twice B p s :
  forceStopNote B p (exec (forceStopNote B p) s) =
  (Returned tt, exec (forceStopNote B p) s).
Proof.
  apply forceStopNote_absent. rewrite forceStopNote_notes. apply lookup_delete_eq.
Qed.

Lemma stopNote_after_force B p s :
  stopNote B p (exec (forceStopNote B p) s) =
  (Returned tt, exec (forceStopNote B p) s).
Proof.
  apply stopNote_absent. rewrite forceStopNote_notes. apply lookup_delete_eq.
Qed.

(** [playNote] stops the registered voice itself. *)
Lemma playNote_after_force B p v s :
  playNote B p v (exec (forceStopNote B p) s) = playNote B p v s.
Proof.
  rewrite !playNote_unfold.
  assert (exec (forceStopNote B p) (exec (forceStopNote B p) s) =
          exec (forceStopNote B p) s) as ->
    by (unfold exec at 1; by rewrite forceStopNote_twice).
  assert (isBuilt (exec (forceStopNote B p) s) = isBuilt s) as ->
    by apply forceStopNote_settles.
  done.
Qed.

Lemma forceStopNote_timers B p s :
  timers (exec (forceStopNote B p) s) = timers s.
Proof. destruct (forceStopNote_exec B p s) as (cs & rs & ->). done. Qed.

Lemma updateKeyUI_cases note b c :
  match findKey note (keyboard c) with
  | Some (i, k) =>
      updateKeyUI note b c =
      (Returned tt, set_keyboard (<[i := set_active b k]> (keyboard c)) c)
  | None =>
      updateKeyUI note b c =
      (Returned tt, set_consoleLog (consoleLog c ++ [KeyElementNotFound note]) c)
  end.
Proof.
  unfold updateKeyUI, bindC, getsC.
  destruct (findKey note (keyboard c)) as [[i k]|]; done.
Qed.

Lemma updateKeyUI_exec note b c :
  ∃ c', updateKeyUI note b c = (Returned tt, c') ∧
        pianoModel c' = pianoModel c ∧ startNote c' = startNote c ∧
        endNote c' = endNote c ∧ pressedKeys c' = pressedKeys c.
Proof.
  pose proof (updateKeyUI_cases note b c) as H.
  destruct (findKey note (keyboard c)) as [[i k]|]; rewrite H;
    (eexists; split; [reflexivity | done]).
Qed.

Lemma inRange_spec note c :
  inRange note c = true ↔ (startNote c ≤ note ≤ endNote c)%Z.
Proof. unfold inRange. rewrite negb_true_iff, orb_false_iff, !Z.ltb_ge. lia. Qed.

Lemma noteOff_unfold B note c :
  noteOff B note c =
  if inRange note c
  then updateKeyUI note false
         (set_pianoModel (exec (forceStopNote B note) (pianoModel c)) c)
  else (Returned tt, c).
Proof.
  unfold noteOff, inRange.
  erewrite bindC_returned by reflexivity.
  erewrite bindC_returned by reflexivity.
  destruct ((note <? startNote c)%Z || (endNote c <? note)%Z); simpl; [done |].
  erewrite bindC_returned
    by (apply engine_returned, forceStopNote_returns).
  erewrite bindC_returned
    by (apply engine_returned; simpl; apply stopNote_after_force).
  done.
Qed.

Lemma noteOn_unfold B note v c :
  noteOn B note v c =
  if inRange note c
  then bindC (engine (playNote B note v)) (λ _, updateKeyUI note true) c
  else (Returned tt,
        set_consoleLog
          (consoleLog c ++ [OutsideKeyboardRange note (startNote c) (endNote c)]) c).
Proof.
  unfold noteOn, inRange.
  erewrite bindC_returned by reflexivity.
  erewrite bindC_returned by reflexivity.
  destruct ((note <? startNote c)%Z || (endNote c <? note)%Z); simpl; [done |].
  erewrite bindC_returned
    by (apply engine_returned, forceStopNote_returns).
  unfold bindC, engine. simpl. rewrite playNote_after_force.
  destruct (playNote B note v (pianoModel c)) as [[[]|e] p]; simpl; [| done].
  by destruct c.
Qed.


(** X9: [noteOff] always returns and never leaves a cleanup timer: in
    the range of the keyboard the engine ends in the state
    [forceStopNote] alone leaves, with no entry for the note, since the
    [stopNote] that follows finds nothing to release; outside the range
    nothing changes at all. *)
Theorem noteOff_cuts_the_voice (B : Backend) (note : Z) (c : MidiController) :
  let c' := execC (noteOff B note) c in
  returnsC (noteOff B note) c = true ∧
  timers (pianoModel c') = timers (pianoModel c) ∧
  ((startNote c ≤ note ≤ endNote c)%Z →
   pianoModel c' = exec (forceStopNote B note) (pianoModel c) ∧
   activeNotes (pianoModel c') !! note = None) ∧
  (¬ (startNote c ≤ note ≤ endNote c)%Z → c' = c).
Proof.
  intros c'. subst c'. unfold returnsC, execC. rewrite noteOff_unfold.
  destruct (inRange note c) eqn:E.
  - destruct (updateKeyUI_exec note false
      (set_pianoModel (exec (forceStopNote B note) (pianoModel c)) c))
      as (c' & -> & Hp & _).
    simpl. rewrite Hp. simpl.
    split; [done |]. split; [apply forceStopNote_timers |].
    split; [| by rewrite <- inRange_spec, E].
    intros _. split; [done |].
    rewrite forceStopNote_notes. apply lookup_delete_eq.
  - simpl. split; [done |]. split; [done |]. split; [| done].
    intros Hr. apply inRange_spec in Hr. congruence.
Qed.

(** X10: in the range of the keyboard [noteOn] does to the engine what
    [playNote] alone does, the [forceStopNote] before it being what
    [playNote] starts with; it returns when [playNote] returns and then
    marks the first key of the note, and when [playNote] throws the keys
    and the console are left as they were.  Outside the range the engine
    and the keys are left alone. *)
Theorem noteOn_is_playNote (B : Backend) (note : Z) (v : Q) (c : MidiController) :
  let c' := execC (noteOn B note v) c in
  ((startNote c ≤ note ≤ endNote c)%Z →
   pianoModel c' = exec (playNote B note v) (pianoModel c) ∧
   returnsC (noteOn B note v) c = returns (playNote B note v) (pianoModel c) ∧
   (returns (playNote B note v) (pianoModel c) = false →
    keyboard c' = keyboard c ∧ consoleLog c' = consoleLog c) ∧
   (returns (playNote B note v) (pianoModel c) = true →
    ∀ i k, findKey note (keyboard c) = Some (i, k) →
           keyboard c' = <[i := set_active true k]> (keyboard c))) ∧
  (¬ (startNote c ≤ note ≤ endNote c)%Z →
   returnsC (noteOn B note v) c = true ∧
   pianoModel c' = pianoModel c ∧ keyboard c' = keyboard c).
Proof.
  intros c'. subst c'. unfold returnsC, execC. rewrite noteOn_unfold.
  destruct (inRange note c) eqn:E.
  - split; [intros _ | by rewrite <- inRange_spec, E].
    unfold bindC, engine, returns, exec.
    destruct (playNote B note v (pianoModel c)) as [[[]|e] p]; simpl.
    + pose proof (updateKeyUI_cases note true (set_pianoModel p c)) as H.
      simpl in H.
      destruct (findKey note (keyboard c)) as [[i k]|]; rewrite H; simpl.
      * repeat split; try done. by intros _ i' k' [= <- <-].
      * repeat split; done.
    + repeat split; done.
  - split; [intros Hr; apply inRange_spec in Hr; congruence |].
    intros _. done.
Qed.

(** ** MIDI messages *)

Lemma command_of_status hi ch :
  (0 ≤ hi < 16)%Z → (0 ≤ ch < 16)%Z → Z.land (16 * hi + ch) 0xF0 = (16 * hi)%Z.
Proof.
  intros Hhi Hch.
  assert (hi ∈ seqZ 0 16) as Ih by (apply elem_of_seqZ; lia).
  assert (ch ∈ seqZ 0 16) as Ic by (apply elem_of_seqZ; lia).
  cbv in Ih, Ic.
  repeat (apply elem_of_cons in Ih as [->|Ih]);
    try (by apply elem_of_nil in Ih);
    repeat (apply elem_of_cons in Ic as [->|Ic]);
    try (by apply elem_of_nil in Ic);
    reflexivity.
Qed.

Lemma velocity_positive (data2 : Z) :
  Qgtb (inject_Z data2 / 127) 0 = true ↔ (0 < data2)%Z.
Proof.
  unfold Qgtb, Qcompare, Qdiv, inject_Z. simpl.
  rewrite Z.mul_1_r. destruct data2; simpl; split; (done || lia).
Qed.

(** X11: [handleMIDIMessage] looks at the upper four bits of the status
    byte only: a message on any of the sixteen channels is handled as the
    one on the first channel, and a status byte that is neither a
    note-on nor a note-off leaves the controller and the engine as they
    were. *)
Theorem handleMIDIMessage_ignores_channel
    (B : Backend) (hi ch data1 data2 : Z) (c : MidiController) :
  (0 ≤ hi < 16)%Z → (0 ≤ ch < 16)%Z →
  handleMIDIMessage B (16 * hi + ch) data1 data2 c =
    handleMIDIMessage B (16 * hi) data1 data2 c ∧
  (hi ≠ 8%Z → hi ≠ 9%Z →
   handleMIDIMessage B (16 * hi + ch) data1 data2 c = (Returned tt, c)).
Proof.
  intros Hhi Hch.
  pose proof (command_of_status hi ch Hhi Hch) as E1.
  assert (Z.land (16 * hi) 0xF0 = (16 * hi)%Z) as E2.
  { rewrite <- (Z.add_0_r (16 * hi)) at 1. apply command_of_status; lia. }
  unfold handleMIDIMessage. cbv zeta. rewrite E1, E2.
  split; [done |]. intros H8 H9.
  destruct (Z.eqb_spec (16 * hi) 0x90) as [E|_]; [lia |].
  destruct (Z.eqb_spec (16 * hi) 0x80) as [E|_]; [lia |].
  done.
Qed.

Lemma consoleC_bind r (k : MC unit) c :
  bindC (consoleC r) (λ _, k) c = k (set_consoleLog (consoleLog c ++ [r]) c).
Proof. done. Qed.

(** X12: what the MIDI messages do to the engine.  A note-off leaves the
    engine as [forceStopNote] leaves it, whatever the range of the
    keyboard, so the note has no entry afterwards and no cleanup timer is
    added.  A note-on with velocity zero acts as [noteOff] and so does
    nothing outside the range.  A note-on with a positive velocity acts as
    [playNote] in the range and as [forceStopNote] outside of it. *)
Theorem midi_messages_on_the_engine
    (B : Backend) (status note data2 : Z) (c : MidiController) :
  let c' := execC (handleMIDIMessage B status note data2) c in
  (Z.land status 0xF0 = 0x80%Z →
   returnsC (handleMIDIMessage B status note data2) c = true ∧
   pianoModel c' = exec (forceStopNote B note) (pianoModel c) ∧
   activeNotes (pianoModel c') !! note = None ∧
   timers (pianoModel c') = timers (pianoModel c)) ∧
  (Z.land status 0xF0 = 0x90%Z → (data2 ≤ 0)%Z →
   returnsC (handleMIDIMessage B status note data2) c = true ∧
   pianoModel c' = pianoModel (execC (noteOff B note) c)) ∧
  (Z.land status 0xF0 = 0x90%Z → (0 < data2)%Z →
   pianoModel c' =
   if inRange note c
   then exec (playNote B note (inject_Z data2 / 127)) (pianoModel c)
   else exec (forceStopNote B note) (pianoModel c)).
Proof.
  intros c'. subst c'. unfold returnsC, execC, handleMIDIMessage.
  split; [| split].
  - intros ->. simpl. rewrite consoleC_bind.
    erewrite bindC_returned
      by (apply engine_returned, forceStopNote_returns).
    rewrite noteOff_unfold.
    match goal with |- context [inRange note ?c0] =>
      change (inRange note c0) with (inRange note c)
    end.
    destruct (inRange note c).
    + match goal with |- context [updateKeyUI note false ?c0] =>
        destruct (updateKeyUI_exec note false c0) as (c' & -> & Hp & _)
      end.
      simpl in *. rewrite Hp.
      assert (exec (forceStopNote B note) (exec (forceStopNote B note) (pianoModel c))
              = exec (forceStopNote B note) (pianoModel c)) as ->
        by (unfold exec at 1; by rewrite forceStopNote_twice).
      split; [done |]. split; [done |].
      split; [rewrite forceStopNote_notes; apply lookup_delete_eq |].
      apply forceStopNote_timers.
    + simpl. split; [done |]. split; [done |].
      split; [rewrite forceStopNote_notes; apply lookup_delete_eq |].
      apply forceStopNote_timers.
  - intros -> Hv. simpl.
    destruct (Qgtb (inject_Z data2 / 127) 0) eqn:E;
      [apply velocity_positive in E; lia |].
    rewrite consoleC_bind, !noteOff_unfold.
    match goal with |- context [inRange note ?c0] =>
      change (inRange note c0) with (inRange note c)
    end.
    destruct (inRange note c); [| done].
    match goal with |- context [updateKeyUI note false ?c0] =>
      destruct (updateKeyUI_exec note false c0) as (c1 & -> & Hp1 & _)
    end.
    match goal with |- context [updateKeyUI note false ?c0] =>
      destruct (updateKeyUI_exec note false c0) as (c2 & -> & Hp2 & _)
    end.
    simpl in *. by rewrite Hp1, Hp2.
  - intros -> Hv. simpl.
    destruct (Qgtb (inject_Z data2 / 127) 0) eqn:E;
      [| apply not_true_iff_false in E; rewrite velocity_positive in E; lia].
    rewrite consoleC_bind.
    erewrite bindC_returned
      by (apply engine_returned, forceStopNote_returns).
    rewrite noteOn_unfold.
    match goal with |- context [inRange note ?c0] =>
      change (inRange note c0) with (inRange note c)
    end.
    destruct (inRange note c); [| done].
    unfold bindC, engine. simpl. rewrite playNote_after_force.
    unfold exec.
    destruct (playNote B note (inject_Z data2 / 127) (pianoModel c))
      as [[[]|e] p]; simpl; [| done].
    match goal with |- context [updateKeyUI note true ?c0] =>
      destruct (updateKeyUI_exec note true c0) as (c1 & -> & Hp1 & _)
    end.
    done.
Qed.

(** ** The computer keyboard *)

Lemma computer_key_range note :
  is_Some (getComputerKeyForNote note) ↔ (48 ≤ note ≤ 72)%Z.
Proof.
  split.
  - unfold getComputerKeyForNote.
    let e := eval vm_compute in entries in change entries with e.
    cbn [List.find fst snd].
    repeat match goal with
    | |- context [Z.eqb ?n note] =>
        destruct (Z.eqb_spec n note) as [<-|_]; [intros _; lia |]
    end.
    by intros [? ?].
  - intros Hr.
    assert (note ∈ seqZ 48 25) as Hn by (apply elem_of_seqZ; lia).
    cbv in Hn.
    repeat (apply elem_of_cons in Hn as [->|Hn]);
      try (by apply elem_of_nil in Hn); by eexists.
Qed.

(** X13: the table of the computer keyboard is one-to-one onto the notes
    48 to 72: [getComputerKeyForNote] is the inverse of the lookup in
    [keyboardMapping] whatever the order of [Object.entries], a note has
    a key exactly when it lies in 48..72, and no mapped note is 0, the
    one number that the test [if (note)] would take for a missing key. *)
Theorem keyboardMapping_one_to_one (key : string) (note : Z) :
  (mappedNote key = Some note ↔ getComputerKeyForNote note = Some key) ∧
  (is_Some (getComputerKeyForNote note) ↔ (48 ≤ note ≤ 72)%Z) ∧
  (mappedNote key = Some note → note ≠ 0%Z).
Proof.
  assert (mappedNote key = Some note → getComputerKeyForNote note = Some key) as H1.
  { unfold mappedNote, keyboardMapping. cbn [List.find fst snd].
    repeat match goal with
    | |- context [String.eqb ?k key] =>
        destruct (String.eqb_spec k key) as [<-|_];
          [intros [= <-]; reflexivity |]
    end.
    done. }
  assert (getComputerKeyForNote note = Some key → mappedNote key = Some note) as H2.
  { unfold getComputerKeyForNote.
    let e := eval vm_compute in entries in change entries with e.
    cbn [List.find fst snd].
    repeat match goal with
    | |- context [Z.eqb ?n note] =>
        destruct (Z.eqb_spec n note) as [<-|_];
          [intros [= <-]; reflexivity |]
    end.
    done. }
  split; [split; done |]. split; [apply computer_key_range |].
  intros Hm. apply H1 in Hm.
  assert (is_Some (getComputerKeyForNote note)) as Hs by eauto.
  apply computer_key_range in Hs. lia.
Qed.

(** ** The range of the keyboard *)

Lemma keyboardRange_octaves idealNumWhiteKeys :
  ∃ n o : Z,
    (7 ≤ n ≤ 52)%Z ∧ o = (n / 7)%Z ∧ o ∈ [1; 2; 3; 4; 5; 6; 7]%Z ∧
    keyboardRange idealNumWhiteKeys =
    (n, (60 - (o / 2) * 12)%Z, (60 - (o / 2) * 12 + o * 12)%Z).
Proof.
  unfold keyboardRange. cbv zeta.
  set (n := Z.max 7 (Z.min 52 idealNumWhiteKeys)).
  assert (7 ≤ n ≤ 52)%Z as Hn by lia.
  clearbody n. exists n, (n / 7)%Z.
  set (o := (n / 7)%Z).
  assert (1 ≤ o ≤ 7)%Z as Ho by (subst o; Z.div_mod_to_equations; lia).
  assert (o ∈ seqZ 1 7) as Io by (apply elem_of_seqZ; lia).
  split; [done |]. split; [done |]. split; [exact Io |].
  clearbody o. clear Ho. cbv in Io.
  repeat (apply elem_of_cons in Io as [->|Io]);
    try (by apply elem_of_nil in Io); reflexivity.
Qed.

(** X14: whatever number of white keys [updateKeyboardRange] starts
    from, it keeps between one and seven octaves, the range starts on a C
    and ends on a C, middle C is in it, and it stays within 24..108; the
    final rounding of the start to a multiple of 12 changes nothing. *)
Theorem keyboardRange_octaves_around_middle_C (idealNumWhiteKeys : Z) :
  match keyboardRange idealNumWhiteKeys with
  | (numWhiteKeys, startNote, endNote) =>
      let octaves := (numWhiteKeys / 7)%Z in
      (7 ≤ numWhiteKeys ≤ 52 ∧ 1 ≤ octaves ≤ 7)%Z ∧
      startNote = (60 - (octaves / 2) * 12)%Z ∧
      endNote = (startNote + octaves * 12)%Z ∧
      (startNote mod 12 = 0 ∧ endNote mod 12 = 0)%Z ∧
      (24 ≤ startNote ≤ 60 ∧ 72 ≤ endNote ≤ 108)%Z ∧
      isWhite startNote = true ∧ isWhite endNote = true
  end.
Proof.
  destruct (keyboardRange_octaves idealNumWhiteKeys)
    as (n & o & Hn & Ho & Io & ->).
  cbv zeta. rewrite <- Ho. clear Ho.
  repeat (apply elem_of_cons in Io as [->|Io]);
    try (by apply elem_of_nil in Io);
    (split; [split; [done | lia] |]); vm_compute; done.
Qed.

(** ** The keys of the virtual keyboard *)

Lemma isWhite_false n :
  isWhite n = false ↔
  (Z.rem n 12 = 1 ∨ Z.rem n 12 = 3 ∨ Z.rem n 12 = 6 ∨
   Z.rem n 12 = 8 ∨ Z.rem n 12 = 10)%Z.
Proof.
  unfold isWhite. rewrite negb_false_iff, bool_decide_eq_true.
  rewrite !elem_of_cons, elem_of_nil. tauto.
Qed.

Lemma isWhite_true n :
  isWhite n = true ↔
  (Z.rem n 12 ≠ 1 ∧ Z.rem n 12 ≠ 3 ∧ Z.rem n 12 ≠ 6 ∧
   Z.rem n 12 ≠ 8 ∧ Z.rem n 12 ≠ 10)%Z.
Proof.
  rewrite <- not_false_iff_true, isWhite_false. tauto.
Qed.

(** No two black keys are neighbours. *)
Lemma white_after_black n :
  (0 ≤ n)%Z → isWhite n = false → isWhite (n + 1) = true.
Proof.
  rewrite isWhite_false, isWhite_true. intros Hn H.
  Z.to_euclidean_division_equations. lia.
Qed.

Lemma seqZ_succ s (n : nat) :
  seqZ s (Z.of_nat (S n)) = s :: seqZ (s + 1) (Z.of_nat n).
Proof.
  rewrite seqZ_cons by lia. f_equal. f_equal. lia.
Qed.

Lemma blackNotes_between (n : nat) (s : Z) :
  (0 ≤ s)%Z →
  NoDup (blackNotes (List.filter isWhite (seqZ s (Z.of_nat n)))) ∧
  ∀ x, x ∈ blackNotes (List.filter isWhite (seqZ s (Z.of_nat n))) ↔
       isWhite x = false ∧ (s < x)%Z ∧ (x + 1 < s + Z.of_nat n)%Z.
Proof.
  revert s. induction n as [|n IH]; intros s Hs.
  { simpl. split; [constructor |]. intros x. rewrite elem_of_nil. lia. }
  destruct (IH (s + 1)%Z ltac:(lia)) as [IHd IHx].
  rewrite seqZ_succ. cbn [List.filter].
  destruct (isWhite s) eqn:Ws.
  2: { split; [done |]. intros x. rewrite IHx.
       pose proof (white_after_black s Hs Ws) as W1.
       split; intros (Hx & H1 & H2); (split; [done |]); [lia |].
       assert (x ≠ s + 1)%Z by congruence. lia. }
  destruct n as [|n].
  { simpl. split; [constructor |]. intros x. rewrite elem_of_nil. lia. }
  revert IHd IHx. rewrite seqZ_succ. cbn [List.filter].
  destruct (isWhite (s + 1)) eqn:W1.
  { intros IHd IHx. cbn [blackNotes].
    replace (s + 1 - s =? 2)%Z with false by (symmetry; apply Z.eqb_neq; lia).
    cbn [app]. split; [done |]. intros x. rewrite IHx.
    split; intros (Hx & H1 & H2); (split; [done |]); [lia |].
    assert (x ≠ s + 1)%Z by congruence. lia. }
  destruct n as [|n].
  { intros _ _. simpl. split; [constructor |]. intros x. rewrite elem_of_nil.
    lia. }
  replace (s + 1 + 1)%Z with (s + 2)%Z by lia.
  rewrite seqZ_succ. cbn [List.filter].
  assert (isWhite (s + 2) = true) as W2.
  { replace (s + 2)%Z with (s + 1 + 1)%Z by lia.
    apply white_after_black; [lia | done]. }
  rewrite W2. intros IHd IHx. cbn [blackNotes].
  replace (s + 2 - s =? 2)%Z with true by (symmetry; apply Z.eqb_eq; lia).
  cbn [app]. split.
  - constructor; [| done]. rewrite IHx. lia.
  - intros x. rewrite elem_of_cons, IHx. split.
    + intros [-> | (Hx & H1 & H2)]; [split; [done | lia] |].
      split; [done | lia].
    + intros (Hx & H1 & H2).
      destruct (decide (x = s + 1)%Z) as [->|Hne]; [by left | right].
      split; [done | lia].
Qed.

Lemma elem_of_whiteNotes lo hi x :
  x ∈ whiteNotes lo hi ↔ isWhite x = true ∧ (lo ≤ x ≤ hi)%Z.
Proof.
  unfold whiteNotes. rewrite list_elem_of_In, List.filter_In, <- list_elem_of_In.
  rewrite elem_of_seqZ. split; intros [? ?]; (split; [done || lia | done || lia]).
Qed.

Lemma NoDup_whiteNotes lo hi : NoDup (whiteNotes lo hi).
Proof.
  unfold whiteNotes.
  apply NoDup_ListNoDup, List.NoDup_filter, NoDup_ListNoDup, NoDup_seqZ.
Qed.

Lemma elem_of_blackNotes lo hi x :
  (0 ≤ lo)%Z →
  x ∈ blackNotes (whiteNotes lo hi) ↔
  isWhite x = false ∧ (lo < x < hi)%Z.
Proof.
  intros Hlo. unfold whiteNotes.
  destruct (decide (hi - lo + 1 ≤ 0)%Z) as [Hn|Hn].
  - rewrite seqZ_nil by done.
    simpl. rewrite elem_of_nil. lia.
  - rewrite <- (Z2Nat.id (hi - lo + 1)) by lia.
    rewrite (proj2 (blackNotes_between _ lo Hlo)).
    rewrite Z2Nat.id by lia.
    split; intros (? & ? & ?); (split; [done | lia]).
Qed.

Lemma NoDup_blackNotes lo hi :
  (0 ≤ lo)%Z → NoDup (blackNotes (whiteNotes lo hi)).
Proof.
  intros Hlo. unfold whiteNotes.
  destruct (decide (hi - lo + 1 ≤ 0)%Z) as [Hn|Hn].
  - rewrite seqZ_nil by done. constructor.
  - rewrite <- (Z2Nat.id (hi - lo + 1)) by lia.
    apply (blackNotes_between _ lo Hlo).
Qed.

Lemma k_note_keys ws bs :
  k_note <$> (map (newKey false) ws ++ map (newKey true) bs) = ws ++ bs.
Proof.
  rewrite fmap_app. f_equal.
  - induction ws as [|w ws IH]; [done | simpl; by f_equal].
  - induction bs as [|b bs IH]; [done | simpl; by f_equal].
Qed.

Lemma findKey_is_Some note ks :
  is_Some (findKey note ks) ↔ note ∈ k_note <$> ks.
Proof.
  unfold findKey. rewrite list_elem_of_fmap. split.
  - intros [[i k] H]. apply list_find_Some in H as (Hi & Hk & _).
    exists k. split; [done |]. by eapply list_elem_of_lookup_2.
  - intros (k & -> & Hk). by eapply list_find_elem_of.
Qed.

Lemma keys_of_range lo hi note :
  (0 ≤ lo)%Z →
  NoDup (whiteNotes lo hi ++ blackNotes (whiteNotes lo hi)) ∧
  (note ∈ whiteNotes lo hi ++ blackNotes (whiteNotes lo hi) ↔
   (lo ≤ note ≤ hi)%Z ∧ (isWhite note = true ∨ (lo < note < hi)%Z)).
Proof.
  intros Hlo. split.
  - apply NoDup_app. split; [apply NoDup_whiteNotes |].
    split; [| by apply NoDup_blackNotes].
    intros x Hw Hb. apply elem_of_whiteNotes in Hw as [Hw _].
    apply elem_of_blackNotes in Hb as [Hb _]; [congruence | done].
  - rewrite elem_of_app, elem_of_whiteNotes, elem_of_blackNotes by done.
    destruct (isWhite note) eqn:W; split.
    + intros [[_ ?]|[? _]]; [| done]. split; [lia | by left].
    + intros [? _]. by left.
    + intros [[? _]|[_ ?]]; [done |]. split; [lia | right; lia].
    + intros [_ [?|?]]; [done |]. by right.
Qed.

(** A range between two white notes has a key for each of its notes. *)
Lemma keys_of_white_range lo hi note :
  (0 ≤ lo)%Z → isWhite lo = true → isWhite hi = true →
  note ∈ whiteNotes lo hi ++ blackNotes (whiteNotes lo hi) ↔ (lo ≤ note ≤ hi)%Z.
Proof.
  intros Hlo Wl Wh. rewrite (proj2 (keys_of_range lo hi note Hlo)).
  split; [by intros [? _] |]. intros Hr. split; [done |].
  destruct (decide (note = lo)) as [->|?]; [by left |].
  destruct (decide (note = hi)) as [->|?]; [by left |].
  right. lia.
Qed.

(** X15: the keys that [createVirtualKeyboard] puts on screen, for a
    range that does not start below note 0.  No two keys have the same
    note; a note has a key exactly when it is a white note of the range
    or lies strictly inside the range, so a black note at either end of
    the range has none; every key is black or white as its note is, and
    is neither active nor playing.  When the range starts and ends on
    white notes, every note of the range has its key.  The engine is not
    touched. *)
Theorem createVirtualKeyboard_keys (c : MidiController) (note : Z) :
  (0 ≤ startNote c)%Z →
  let c' := execC createVirtualKeyboard c in
  NoDup (k_note <$> keyboard c') ∧
  (is_Some (findKey note (keyboard c')) ↔
   (startNote c ≤ note ≤ endNote c)%Z ∧
   (isWhite note = true ∨ (startNote c < note < endNote c)%Z)) ∧
  (isWhite (startNote c) = true → isWhite (endNote c) = true →
   (startNote c ≤ note ≤ endNote c)%Z → is_Some (findKey note (keyboard c'))) ∧
  (∀ k, k ∈ keyboard c' →
        k_black k = negb (isWhite (k_note k)) ∧
        k_active k = false ∧ k_isPlaying k = false) ∧
  pianoModel c' = pianoModel c.
Proof.
  intros Hlo c'. subst c'. unfold execC, createVirtualKeyboard, modifyC.
  cbn [snd keyboard set_keyboard pianoModel].
  destruct (keys_of_range (startNote c) (endNote c) note Hlo) as [Hnd Hin].
  split; [| split; [| split; [| split]]].
  - by rewrite k_note_keys.
  - rewrite findKey_is_Some, k_note_keys. exact Hin.
  - intros Ws We Hr. rewrite findKey_is_Some, k_note_keys.
    by apply keys_of_white_range.
  - intros k Hk. apply elem_of_app in Hk as [Hk|Hk];
      apply list_elem_of_fmap in Hk as (n & -> & Hn); simpl.
    + apply elem_of_whiteNotes in Hn as [-> _]. done.
    + apply elem_of_blackNotes in Hn as [-> _]; done.
  - done.
Qed.

(** X16: [updateKeyboardRange] always returns with a keyboard between
    24 and 108 that contains the octave above middle C, on which every
    note of the range has one key and no other note has any; the engine
    and the held computer keys are left alone. *)
Theorem updateKeyboardRange_full_keyboard
    (width : Q) (c : MidiController) (note : Z) :
  let c' := execC (updateKeyboardRange width) c in
  returnsC (updateKeyboardRange width) c = true ∧
  (24 ≤ startNote c' ≤ 60)%Z ∧ (72 ≤ endNote c' ≤ 108)%Z ∧
  NoDup (k_note <$> keyboard c') ∧
  (is_Some (findKey note (keyboard c')) ↔ (startNote c' ≤ note ≤ endNote c')%Z) ∧
  pianoWidth c' = width ∧
  pianoModel c' = pianoModel c ∧ pressedKeys c' = pressedKeys c.
Proof.
  intros c'. subst c'. unfold returnsC, execC, updateKeyboardRange.
  erewrite bindC_returned by reflexivity.
  destruct (keyboardRange_octaves (Qfloor (width / 2.3)))
    as (n & o & _ & _ & Io & ->).
  erewrite bindC_returned by reflexivity.
  erewrite bindC_returned by reflexivity.
  cbn [fst snd consoleC modifyC startNote endNote keyboard pianoModel
       pressedKeys pianoWidth set_consoleLog set_keyboard set_keyboardConfig
       set_pianoWidth].
  set (lo := (60 - o / 2 * 12)%Z). set (hi := (lo + o * 12)%Z).
  assert ((24 ≤ lo ≤ 60)%Z ∧ (72 ≤ hi ≤ 108)%Z ∧
          isWhite lo = true ∧ isWhite hi = true) as (Hlo & Hhi & Wl & Wh).
  { subst lo hi.
    repeat (apply elem_of_cons in Io as [->|Io]);
      try (by apply elem_of_nil in Io); vm_compute; done. }
  clearbody lo hi.
  split; [done |]. split; [done |]. split; [done |].
  rewrite findKey_is_Some, k_note_keys.
  assert (0 ≤ lo)%Z as H0 by lia.
  split; [exact (proj1 (keys_of_range lo hi note H0)) |].
  split; [by apply keys_of_white_range |]. done.
Qed.

(** X17: the keyboard a new controller shows has a key for exactly the
    notes that the computer keyboard can play, the 25 notes from 48 to
    72, each once; it is given the engine as it is. *)
Theorem newMidiController_keys (p : PianoModel) (note : Z) :
  let c := newMidiController p in
  (is_Some (findKey note (keyboard c)) ↔ is_Some (getComputerKeyForNote note)) ∧
  NoDup (k_note <$> keyboard c) ∧
  length (keyboard c) = 25%nat ∧
  pianoModel c = p ∧ startNote c = 48%Z ∧ endNote c = 72%Z.
Proof.
  intros c. subst c. unfold newMidiController, execC, createVirtualKeyboard, modifyC.
  cbn [snd keyboard set_keyboard pianoModel startNote endNote].
  split; [| split; [| done]].
  - rewrite findKey_is_Some, k_note_keys, computer_key_range.
    by apply keys_of_white_range.
  - rewrite k_note_keys. by apply (keys_of_range 48 72 note).
Qed.

(** ** Auto-repeat of the computer keyboard *)

Lemma noteOn_pressedKeys B note v c :
  pressedKeys (execC (noteOn B note v) c) = pressedKeys c.
Proof.
  unfold execC. rewrite noteOn_unfold. destruct (inRange note c); [| done].
  unfold bindC, engine.
  destruct (playNote B note v (pianoModel c)) as [[[]|e] p]; simpl; [| done].
  destruct (updateKeyUI_exec note true (set_pianoModel p c))
    as (c' & -> & _ & _ & _ & Hp).
  done.
Qed.

Lemma noteOff_pressedKeys B note c :
  pressedKeys (execC (noteOff B note) c) = pressedKeys c.
Proof.
  unfold execC. rewrite noteOff_unfold. destruct (inRange note c); [| done].
  match goal with |- context [updateKeyUI note false ?c0] =>
    destruct (updateKeyUI_exec note false c0) as (c' & -> & _ & _ & _ & Hp)
  end.
  done.
Qed.

Lemma noteOff_returns B note c :
  noteOff B note c = (Returned tt, execC (noteOff B note) c).
Proof.
  unfold execC. rewrite noteOff_unfold. destruct (inRange note c); [| done].
  match goal with |- context [updateKeyUI note false ?c0] =>
    destruct (updateKeyUI_exec note false c0) as (c' & -> & _)
  end.
  done.
Qed.

(** X18: the [keydown] listener ignores a key that is held.  A key for
    which the lookup in the table gives [undefined], a key typed into a
    form field and a key that is in [pressedKeys] change nothing.  The
    lookup finds the notes of the table and also what the table
    inherits, which passes the test [if (note)] too: for either, once a
    [keydown] has returned, the key is in [pressedKeys] and a further
    [keydown] of it, as auto-repeat sends, changes nothing, and a
    [keyup] of it that returns takes it out of [pressedKeys] again.
    For a note of the table the [keyup] always returns.  This holds
    whatever [toLowerCase] does to the key and whatever [noteOn] and
    [noteOff] do with an inherited value. *)
Theorem keydown_ignores_held_key
    (toLowerCase : string → string) (noteOnObject noteOffObject : string → MC unit)
    (B : Backend) (key : string) (typing : bool) (c : MidiController) :
  let keydown := keydown toLowerCase noteOnObject in
  let keyup := keyup toLowerCase noteOffObject in
  let c1 := execC (keydown B key false) c in
  let c2 := execC (keyup B key) c1 in
  (keyboardMappingAt (toLowerCase key) = Undefined ∨ typing = true ∨
   key ∈ pressedKeys c →
   keydown B key typing c = (Returned tt, c)) ∧
  (keyboardMappingAt (toLowerCase key) = Undefined →
   keyup B key c = (Returned tt, c)) ∧
  (keyboardMappingAt (toLowerCase key) ≠ Undefined →
   returnsC (keydown B key false) c = true →
   key ∈ pressedKeys c1 ∧
   keydown B key typing c1 = (Returned tt, c1) ∧
   (returnsC (keyup B key) c1 = true → key ∉ pressedKeys c2) ∧
   (is_Some (mappedNote (toLowerCase key)) →
    returnsC (keyup B key) c1 = true)) ∧
  (keyboardMappingAt (toLowerCase key) = Undefined ↔
   mappedNote (toLowerCase key) = None ∧ toLowerCase key ∉ objectPrototype).
Proof.
  intros kd ku c1 c2. subst kd ku.
  assert (∀ c0, key ∈ pressedKeys c0 →
            keydown toLowerCase noteOnObject B key typing c0 = (Returned tt, c0))
    as Hheld.
  { intros c0 Hin. unfold keydown. erewrite bindC_returned by reflexivity.
    by rewrite bool_decide_eq_true_2. }
  split; [| split; [| split]].
  - intros H. destruct (decide (key ∈ pressedKeys c)) as [Hin|Hout]; [auto |].
    unfold keydown. erewrite bindC_returned by reflexivity.
    rewrite bool_decide_eq_false_2 by done.
    destruct typing; [done |]. simpl.
    destruct H as [-> | [? | ?]]; done.
  - intros H. unfold keyup. by rewrite H.
  - intros Hdef Hret.
    assert (key ∈ pressedKeys c1) as Hin.
    { subst c1. revert Hret. unfold returnsC, execC, keydown.
      erewrite bindC_returned by reflexivity.
      destruct (decide (key ∈ pressedKeys c)) as [Hin|Hout].
      { by rewrite bool_decide_eq_true_2. }
      rewrite bool_decide_eq_false_2 by done. simpl.
      destruct (keyboardMappingAt (toLowerCase key)) as [note|name|]; [| | done].
      - unfold bindC.
        destruct (noteOn B note 0.7 c) as [[[]|e] c']; simpl; [| done].
        intros _. by apply elem_of_union_l, elem_of_singleton.
      - unfold bindC.
        destruct (noteOnObject name c) as [[[]|e] c']; simpl; [| done].
        intros _. by apply elem_of_union_l, elem_of_singleton. }
    split; [done |]. split; [by apply Hheld |]. split.
    + subst c2. unfold returnsC, execC, keyup.
      destruct (keyboardMappingAt (toLowerCase key)) as [note|name|]; [| | done].
      * erewrite bindC_returned by apply noteOff_returns. simpl.
        intros _ Hd. apply elem_of_difference in Hd as [_ Hd].
        by apply Hd, elem_of_singleton.
      * unfold bindC.
        destruct (noteOffObject name c1) as [[[]|e] c']; simpl; [| done].
        intros _ Hd. apply elem_of_difference in Hd as [_ Hd].
        by apply Hd, elem_of_singleton.
    + intros [note Hnote]. unfold returnsC, keyup, keyboardMappingAt.
      rewrite Hnote. by erewrite bindC_returned by apply noteOff_returns.
  - unfold keyboardMappingAt.
    destruct (mappedNote (toLowerCase key)) as [note|].
    { split; [done | by intros [? _]]. }
    case_bool_decide as Hin; split; try done.
    by intros [_ ?].
Qed.

(** ** The safety sweep of [main.js] *)

Lemma forEachC_sweep B (ns : list Z) c :
  ∃ cs rs,
    forEachC ns (λ midiNote,
      bindC (engine (forceStopNote B midiNote))
            (λ _, consoleC (SafetyForceStopped midiNote))) c =
    (Returned tt,
     set_consoleLog (consoleLog c ++ map SafetyForceStopped ns)
       (set_pianoModel
          (set_reports rs (set_calls cs
             (set_activeNotes
                (foldl (λ m p, delete p m) (activeNotes (pianoModel c)) ns)
                (pianoModel c)))) c)).
Proof.
  revert c. induction ns as [|n ns IH]; intros c; simpl.
  - exists (calls (pianoModel c)), (reports (pianoModel c)).
    unfold retC. rewrite app_nil_r. destruct c as [[] ? ? ? ? ? ?]. done.
  - erewrite bindC_returned; cycle 1.
    { erewrite bindC_returned
        by (apply engine_returned, forceStopNote_returns).
      reflexivity. }
    destruct (forceStopNote_exec B n (pianoModel c)) as (cs & rs & ->).
    match goal with |- context [forEachC ns _ ?c0] =>
      destruct (IH c0) as (cs' & rs' & ->)
    end.
    exists cs', rs'. simpl. by rewrite <- app_assoc.
Qed.

(** X19: the sweep that [main.js] runs every five seconds always
    returns and leaves the registry empty, without adding a timer; it
    says so on the console, once for the check and once for each note,
    and it leaves the keys on screen as they are.  With an empty registry
    it does nothing at all. *)
Theorem safetySweep_empties_registry (B : Backend) (c : MidiController) :
  let c' := execC (safetySweep B) c in
  let keys := noteNumbers (pianoModel c) in
  returnsC (safetySweep B) c = true ∧
  activeNotes (pianoModel c') = ∅ ∧
  timers (pianoModel c') = timers (pianoModel c) ∧
  keyboard c' = keyboard c ∧
  (activeNotes (pianoModel c) = ∅ → safetySweep B c = (Returned tt, c)) ∧
  (activeNotes (pianoModel c) ≠ ∅ →
   consoleLog c' =
   consoleLog c ++
   SafetyCheckFound (size (activeNotes (pianoModel c))) ::
   map SafetyForceStopped keys).
Proof.
  intros c' keys. subst c'. unfold returnsC, execC, safetySweep.
  erewrite bindC_returned by reflexivity. fold keys.
  assert (length keys = size (activeNotes (pianoModel c))) as Hlen
    by apply length_noteNumbers.
  destruct (decide (activeNotes (pianoModel c) = ∅)) as [He|Hne].
  - assert (keys = []) as ->.
    { apply length_zero_iff_nil. rewrite Hlen, He. apply map_size_empty. }
    simpl. done.
  - assert (0 < length keys)%nat as Hpos.
    { rewrite Hlen. apply Nat.neq_0_lt_0. intros H0.
      by apply map_size_empty_iff in H0. }
    rewrite (proj2 (Nat.ltb_lt _ _) Hpos). rewrite consoleC_bind.
    match goal with |- context [forEachC keys _ ?c0] =>
      destruct (forEachC_sweep B keys c0) as (cs & rs & ->)
    end.
    simpl. split; [done |]. split; [| split; [done | split; [done | split; [done |]]]].
    + apply map_eq. intros k.
      rewrite lookup_foldl_delete, lookup_empty. case_decide as H; [done |].
      subst keys. rewrite elem_of_noteNumbers in H. by apply eq_None_not_Some.
    + intros _. by rewrite Hlen, <- app_assoc.
Qed.

(** ** Mouse and touch *)

Lemma updateKeyUI_flags note b c :
  flags (keyboard (execC (updateKeyUI note b) c)) = flags (keyboard c).
Proof.
  unfold execC. pose proof (updateKeyUI_cases note b c) as H.
  destruct (findKey note (keyboard c)) as [[i k]|] eqn:E; rewrite H; [| done].
  simpl. unfold flags. rewrite list_fmap_insert. apply list_insert_id.
  apply list_find_Some in E as (Hi & _). by rewrite list_lookup_fmap, Hi.
Qed.




Lemma flags_lookup ks i k :
  ks !! i = Some k → flags ks !! i = Some (k_note k, k_isPlaying k).
Proof. intros H. unfold flags. by rewrite list_lookup_fmap, H. Qed.

Lemma lookup_flags ks i n b :
  flags ks !! i = Some (n, b) →
  ∃ k, ks !! i = Some k ∧ k_note k = n ∧ k_isPlaying k = b.
Proof.
  unfold flags. rewrite list_lookup_fmap.
  destruct (ks !! i) as [k|]; [| done]. intros [= <- <-]. eauto.
Qed.


(** ** The editor *)

Lemma damped_between lo hi cur new :
  lo <= cur <= hi → lo <= new <= hi → lo <= cur * 0.7 + new * 0.3 <= hi.
Proof. intros. lra. Qed.

Lemma clamp_between lo hi x : lo <= hi → lo <= Qmax lo (Qmin hi x) <= hi.
Proof.
  intros H. split; [apply Q.le_max_l |].
  apply Q.max_lub; [done | apply Q.le_min_l].
Qed.

Lemma resize_limit size m cap :
  0 < m → m <= size * 0.75 → 120 <= cap →
  120 <= Qmin (size * 0.8 / (m / Qmax 220 160)) cap <= cap.
Proof.
  intros Hm Hle Hc. split; [| apply Q.le_min_r].
  apply Q.min_glb; [| done].
  assert (Qmax 220 160 == 220) as -> by (apply Q.max_l; lra).
  apply Qle_shift_div_l.
  - apply Qlt_shift_div_l; lra.
  - unfold Qdiv. change (/ 220) with (1 # 220). lra.
Qed.

Lemma withinLimits_new : withinLimits newPianoUI.
Proof. unfold withinLimits. simpl. lra. Qed.

Lemma withinLimits_step ui e :
  visible e → withinLimits ui → withinLimits (editor_step ui e).
Proof.
  intros Hv ((Hw & Hl & Hh) & (Hmw & Hml)).
  destruct e as [cw ch | point x y d]; simpl in *.
  - destruct Hv as [Hcw Hch]. unfold withinLimits. simpl.
    split; [done |]. split.
    + apply resize_limit; [apply Q.min_glb_lt; lra | apply Q.le_min_l | lra].
    + apply resize_limit; [apply Q.min_glb_lt; lra | apply Q.le_min_r | lra].
  - unfold drag.
    assert (∀ ui, withinLimits ui →
      withinLimits (set_width
        (Dims.width (pianoParams ui) * 0.7 +
         Qmax 120 (Qmin (maxDimensions_width ui) x) * 0.3) ui)) as Sw.
    { intros u ((Hw' & Hl' & Hh') & (Hmw' & Hml')).
      unfold withinLimits. simpl.
      pose proof (clamp_between 120 (maxDimensions_width u) x ltac:(lra)).
      repeat split; try lra. }
    assert (∀ ui, withinLimits ui →
      withinLimits (set_length
        (Dims.length (pianoParams ui) * 0.7 +
         Qmax 120 (Qmin (maxDimensions_length ui) y) * 0.3) ui)) as Sl.
    { intros u ((Hw' & Hl' & Hh') & (Hmw' & Hml')).
      unfold withinLimits. simpl.
      pose proof (clamp_between 120 (maxDimensions_length u) y ltac:(lra)).
      repeat split; try lra. }
    assert (withinLimits ui) as Hui by done.
    destruct (cp_type point).
    1, 2: cbv zeta;
      destruct (bool_decide (WidthD ∈ cp_affects point));
      destruct (bool_decide (LengthD ∈ cp_affects point)); auto.
    unfold withinLimits. simpl.
    pose proof (clamp_between 30 70 d ltac:(lra)).
    repeat split; try lra.
Qed.

Lemma withinLimits_run events ui :
  Forall visible events → withinLimits ui → withinLimits (editor_run events ui).
Proof.
  intros Hv. revert ui. induction Hv as [|e events He _ IH]; intros ui Hui.
  - done.
  - simpl. apply IH. by apply withinLimits_step.
Qed.

(** X21: the dimensions the editor hands out stay within its limits,
    whatever is dragged and however the window is resized, as long as the
    container has a size: width in 120..320, length in 120..300 and
    height in 30..70.  The pointer positions are arbitrary. *)
Theorem editor_keeps_dimensions_within_limits (events : list EditorEvent) :
  Forall visible events →
  let d := getPianoParams (editor_run events newPianoUI) in
  120 <= Dims.width d <= 320 ∧
  120 <= Dims.length d <= 300 ∧
  30 <= Dims.height d <= 70.
Proof.
  intros Hv d.
  apply (withinLimits_run events newPianoUI Hv withinLimits_new).
Qed.

(** ** From the editor to the engine *)

Lemma setDimensions_time B l w h s :
  currentTime (exec (setDimensions B l w h) s) = currentTime s.
Proof.
  unfold exec. rewrite setDimensions_unfold.
  destruct (isBuilt s); [| done].
  pose proof (stopAllNotes_settles B false (withDimensions l w h s)) as Hs.
  unfold exec in Hs. unfold bind.
  destruct (stopAllNotes B false (withDimensions l w h s)) as [[[]|c] s1];
    simpl in *; [| by destruct Hs].
  destruct (reshape_exec B l w h s1) as [(cs & rs & ->) | (rs & -> & _)];
    simpl; by destruct Hs.
Qed.

Lemma buildClick_exec B l w h s :
  let s' := exec (buildClick B l w h) s in
  isBuilt s' = true ∧
  dimensions s' = {| Dims.length := l; Dims.width := w; Dims.height := h |} ∧
  currentTime s' = currentTime s.
Proof.
  intros s'. subst s'.
  pose proof (setDimensions_dimensions B l w h s) as Hd.
  pose proof (setDimensions_time B l w h s) as Ht.
  pose proof (setDimensions_throws_built B l w h s) as Hr.
  pose proof (setDimensions_evolves B l w h s) as He.
  unfold exec, returns in *. unfold buildClick, bind.
  destruct (setDimensions B l w h s) as [[[]|c] s1]; simpl in *.
  - destruct (buildPiano_state B s1) as (cs & rs & -> & _). simpl. done.
  - split; [apply (evolves_isBuilt _ _ He); by apply Hr | done].
Qed.

Lemma volumeFactor_bounds l w h :
  120 <= w <= 320 → 120 <= l <= 300 → 30 <= h <= 70 →
  0.4 <= volumeFactor l w h <= 56 # 9.
Proof.
  intros Hw Hl Hh. unfold volumeFactor, Qdiv.
  change (/ (180 * 150 * 40)) with (1 # 1080000).
  assert (14400 <= l * w <= 96000) as Hlw by nra.
  split; nra.
Qed.

(** X22: an instrument built from the editor plays.  Whatever was
    dragged and resized in the editor, after a click on the build button
    the engine is built with exactly the dimensions of the editor, and,
    under the rules of Web Audio and with a clock that is not negative,
    [playNote] returns for every pitch and velocity; the volume factor of
    these dimensions lies between 0.4 and 56/9, so the master gain that
    [setDimensions] computes for them lies between 0.28 and 1.2. *)
Theorem built_from_the_editor_plays
    (events : list EditorEvent) (s : PianoModel) (p : Z) (v : Q) :
  Forall visible events →
  0 <= currentTime s →
  let d := getPianoParams (editor_run events newPianoUI) in
  let s' := exec (buildClick strict (Dims.length d) (Dims.width d) (Dims.height d)) s in
  isBuilt s' = true ∧ dimensions s' = d ∧
  returns (playNote strict p v) s' = true ∧
  0.4 <= volumeFactor (Dims.length d) (Dims.width d) (Dims.height d) <= 56 # 9 ∧
  0.28 <= masterGainFor
            (volumeFactor (Dims.length d) (Dims.width d) (Dims.height d)) <= 1.2.
Proof.
  intros Hv Ht d s'.
  destruct (withinLimits_run events newPianoUI Hv withinLimits_new)
    as ((Hw & Hl & Hh) & _).
  unfold getPianoParams in d.
  change (pianoParams (editor_run events newPianoUI)) with d in Hw, Hl, Hh.
  clearbody d.
  destruct (buildClick_exec strict (Dims.length d) (Dims.width d)
              (Dims.height d) s) as (Hb & Hd & Hc).
  fold s' in Hb, Hd, Hc.
  pose proof (volumeFactor_bounds _ _ _ Hw Hl Hh) as Hvf.
  split; [done |]. split; [rewrite Hd; by destruct d |].
  split; [| split; [done |]].
  - rewrite returns_playNote_strict, Hb, Hc, Hd.
    pose proof (attackTime_floor
      {| Dims.length := Dims.length d; Dims.width := Dims.width d;
         Dims.height := Dims.height d |}) as Ha.
    rewrite !andb_true_iff, !negb_true_iff, !Qgtb_0_false.
    unfold decayTime. simpl. qdiv. repeat split; lra.
  - unfold masterGainFor. split.
    + apply Q.min_glb; lra.
    + apply Q.le_min_r.
Qed.

(** ** Losing the focus *)

Lemma list_alter_out {A} (f : A → A) (l : list A) i :
  (length l ≤ i)%nat → alter f i l = l.
Proof.
  intros H. apply list_eq. intros j. destruct (decide (i = j)) as [->|Hne].
  - rewrite list_lookup_alter_eq. by rewrite (lookup_ge_None_2 l j).
  - by rewrite list_lookup_alter_ne.
Qed.

Lemma forEachC_invariant {A} (P : MidiController → Prop) (xs : list A)
    (f : A → MC unit) c :
  (∀ x c, P c → P (execC (f x) c)) → P c → P (execC (forEachC xs f) c).
Proof.
  intros Hf. revert c. induction xs as [|x xs IH]; intros c Hc; [done |].
  unfold execC. simpl. unfold bindC.
  pose proof (Hf x c Hc) as Hx. unfold execC in Hx.
  destruct (f x c) as [[[]|e] c1]; simpl in *; [| done].
  by apply IH.
Qed.

(** The body of the loop of [clearAllPlayingFlags]. *)
Lemma clear_step_voices B (ks : list KeyElement) i c :
  sameVoices c (execC (stopPlayingKey B ks i) c).
Proof.
  unfold sameVoices, execC, stopPlayingKey. destruct (ks !! i) as [k|]; [| done].
  unfold bindC, engine.
  pose proof (stopNote_notes B (k_note k) (pianoModel c)) as Hn. unfold exec in Hn.
  destruct (stopNote B (k_note k) (pianoModel c)) as [[[]|e] p]; simpl in *;
    [| done].
  destruct (updateKeyUI_exec (k_note k) false (set_pianoModel p c))
    as (c1 & -> & Hp & _ & _ & Hk).
  unfold modifyC. simpl in *.
  destruct (keyboard c1 !! i); simpl; by rewrite Hp, Hk.
Qed.

Lemma clear_step_flags B (ks : list KeyElement) i c :
  length (keyboard c) = length ks →
  returnsC (stopPlayingKey B ks i) c = true →
  flags (keyboard (execC (stopPlayingKey B ks i) c)) =
  alter cleared i (flags (keyboard c)).
Proof.
  intros Hlen. unfold returnsC, execC, stopPlayingKey.
  destruct (ks !! i) as [k|] eqn:Ek.
  2: { intros _. simpl. symmetry. apply list_alter_out.
       unfold flags. rewrite length_fmap, Hlen.
       by apply lookup_ge_None. }
  unfold bindC, engine.
  destruct (stopNote B (k_note k) (pianoModel c)) as [[[]|e] p]; simpl;
    [| done].
  pose proof (updateKeyUI_flags (k_note k) false (set_pianoModel p c)) as Hf.
  unfold execC in Hf.
  destruct (updateKeyUI_exec (k_note k) false (set_pianoModel p c))
    as (c1 & E & _).
  rewrite E in *. simpl in *. intros _. unfold modifyC. simpl.
  destruct (keyboard c1 !! i) as [k'|] eqn:Ek'; simpl.
  - rewrite <- Hf. unfold flags. rewrite list_fmap_insert.
    apply list_eq. intros j. destruct (decide (j = i)) as [->|Hne].
    + rewrite list_lookup_insert_eq
        by (rewrite length_fmap; by eapply lookup_lt_Some).
      by rewrite list_lookup_alter_eq, list_lookup_fmap, Ek'.
    + by rewrite list_lookup_insert_ne, list_lookup_alter_ne by congruence.
  - rewrite <- Hf. symmetry. apply list_alter_out.
    unfold flags. rewrite length_fmap. by apply lookup_ge_None.
Qed.

Lemma lookup_foldl_alter (xs : list nat) (F : list (Z * bool)) (j : nat) :
  foldl (λ F i, alter cleared i F) F xs !! j =
  (if decide (j ∈ xs) then cleared else λ nb, nb) <$> F !! j.
Proof.
  revert F. induction xs as [|x xs IH]; intros F.
  - simpl. destruct (decide (j ∈ [])) as [H|_]; [by apply elem_of_nil in H |].
    by destruct (F !! j).
  - simpl. rewrite IH.
    destruct (decide (j = x)) as [->|Hne].
    + rewrite list_lookup_alter_eq.
      destruct (decide (x ∈ x :: xs)) as [_|H]; [| exfalso; apply H; by left].
      destruct (F !! x) as [[n b]|]; simpl; [| by destruct (decide (x ∈ xs))].
      by destruct (decide (x ∈ xs)).
    + rewrite list_lookup_alter_ne by congruence.
      destruct (decide (j ∈ xs)) as [Hin|Hout];
        destruct (decide (j ∈ x :: xs)) as [Hin'|Hout']; try done.
      * exfalso. apply Hout'. by right.
      * apply elem_of_cons in Hin' as [?|?]; done.
Qed.

Lemma clear_loop_flags B (ks : list KeyElement) (xs : list nat) c :
  length (keyboard c) = length ks →
  returnsC (forEachC xs (stopPlayingKey B ks)) c = true →
  flags (keyboard (execC (forEachC xs (stopPlayingKey B ks)) c)) =
  foldl (λ F i, alter cleared i F) (flags (keyboard c)) xs.
Proof.
  revert c. induction xs as [|x xs IH]; intros c Hlen; [done |].
  pose proof (clear_step_flags B ks x c Hlen) as Hs.
  unfold returnsC, execC in *. simpl. unfold bindC.
  destruct (stopPlayingKey B ks x c) as [[[]|e] c1]; simpl in *; [| done].
  intros Hret. specialize (Hs eq_refl).
  rewrite <- Hs. apply IH; [| done].
  apply (f_equal length) in Hs. unfold flags in Hs.
  rewrite length_alter, !length_fmap in Hs. congruence.
Qed.

Lemma elem_of_playingKeys ks i :
  i ∈ playingKeys ks ↔ ∃ k, ks !! i = Some k ∧ k_isPlaying k = true.
Proof.
  unfold playingKeys. rewrite list_elem_of_In, List.filter_In, <- list_elem_of_In.
  rewrite elem_of_seq. split.
  - intros [_ H]. destruct (ks !! i) as [k|]; [eauto | done].
  - intros (k & Hk & Hp). rewrite Hk. split; [| done].
    apply lookup_lt_Some in Hk. lia.
Qed.

Lemma clearAllPlayingFlags_sameVoices B c :
  sameVoices c (execC (clearAllPlayingFlags B) c).
Proof.
  unfold clearAllPlayingFlags, execC.
  erewrite bindC_returned by reflexivity.
  apply (forEachC_invariant (sameVoices c)); [| done].
  intros i c1 [H1 H2].
  destruct (clear_step_voices B (keyboard c) i c1) as [H3 H4].
  split; congruence.
Qed.

(** X23: [clearAllPlayingFlags] releases, it does not cut: whatever the
    backend does, no entry leaves the registry and the held computer keys
    stay held; when no key is marked as playing it does nothing; and when
    it returns, no key is marked as playing any more. *)
Theorem clearAllPlayingFlags_clears (B : Backend) (c : MidiController) :
  let c' := execC (clearAllPlayingFlags B) c in
  activeNotes (pianoModel c') = activeNotes (pianoModel c) ∧
  pressedKeys c' = pressedKeys c ∧
  (playingKeys (keyboard c) = [] → clearAllPlayingFlags B c = (Returned tt, c)) ∧
  (returnsC (clearAllPlayingFlags B) c = true →
   ∀ k, k ∈ keyboard c' → k_isPlaying k = false).
Proof.
  intros c'. subst c'.
  destruct (clearAllPlayingFlags_sameVoices B c) as [Hn Hp].
  split; [done |]. split; [done |]. clear Hn Hp.
  unfold clearAllPlayingFlags, execC, returnsC.
  erewrite bindC_returned by reflexivity.
  split.
  - by intros ->.
  - intros Hret k Hk.
    pose proof (clear_loop_flags B (keyboard c) (playingKeys (keyboard c)) c
                  eq_refl) as Hf.
    unfold returnsC, execC in Hf. specialize (Hf Hret).
    apply list_elem_of_lookup in Hk as [j Hj].
    pose proof (flags_lookup _ _ _ Hj) as Hfj.
    rewrite Hf, lookup_foldl_alter in Hfj.
    destruct (decide (j ∈ playingKeys (keyboard c))) as [Hin|Hout].
    + destruct (flags (keyboard c) !! j) as [[n b]|]; [| done].
      simpl in Hfj. by injection Hfj as _ <-.
    + destruct (flags (keyboard c) !! j) as [[n b]|] eqn:E; [| done].
      simpl in Hfj. injection Hfj as _ <-.
      destruct (lookup_flags _ _ _ _ E) as (k0 & Hk0 & _ & Hp).
      destruct b; [| done]. exfalso. apply Hout.
      apply elem_of_playingKeys. eauto.
Qed.

(** X24: when the window loses the focus the voices are released, not
    removed: whatever the backend does, the registry holds the same
    entries after [blur] as before, and no computer key counts as held
    any more; with no voice registered and no key marked as playing,
    forgetting the held keys is all that happens. *)
Theorem blur_releases (B : Backend) (c : MidiController) :
  let c' := execC (blur B) c in
  activeNotes (pianoModel c') = activeNotes (pianoModel c) ∧
  pressedKeys c' = ∅ ∧
  (activeNotes (pianoModel c) = ∅ → playingKeys (keyboard c) = [] →
   blur B c = (Returned tt, set_pressedKeys ∅ c)).
Proof.
  intros c'. subst c'. unfold blur, execC.
  erewrite bindC_returned by reflexivity.
  split; [| split].
  - unfold bindC, engine.
    change (pianoModel (set_pressedKeys ∅ c)) with (pianoModel c).
    pose proof (stopAllNotes_release_notes B (pianoModel c)) as Hn.
    unfold exec in Hn.
    destruct (stopAllNotes B false (pianoModel c)) as [[[]|e] p]; simpl in *;
      [| done].
    destruct (clearAllPlayingFlags_sameVoices B
                (set_pianoModel p (set_pressedKeys ∅ c))) as [H _].
    unfold execC in H. simpl in H. congruence.
  - unfold bindC, engine.
    change (pianoModel (set_pressedKeys ∅ c)) with (pianoModel c).
    destruct (stopAllNotes B false (pianoModel c)) as [[[]|e] p]; simpl;
      [| done].
    destruct (clearAllPlayingFlags_sameVoices B
                (set_pianoModel p (set_pressedKeys ∅ c))) as [_ H].
    unfold execC in H. simpl in H. done.
  - intros He Hp.
    erewrite bindC_returned
      by (apply engine_returned; simpl; by apply stopAllNotes_release_empty).
    unfold clearAllPlayingFlags.
    erewrite bindC_returned by reflexivity.
    simpl. rewrite Hp. simpl. unfold retC. by destruct c.
Qed.

(** ** The theorems at concrete instruments *)

Lemma forceStopNote_always_removes_witness :
  returns (forceStopNote hostile 60) sounding = true ∧
  activeNotes (exec (forceStopNote hostile 60) sounding) !! 60%Z = None ∧
  forceStopNote hostile 61 sounding = (Returned tt, sounding) ∧
  stopNote hostile 61 sounding = (Returned tt, sounding).
Proof.
  destruct (forceStopNote_always_removes hostile 60 sounding) as (H1 & H2 & _).
  destruct (forceStopNote_always_removes hostile 61 sounding)
    as (_ & _ & _ & _ & H5).
  destruct H5 as [H6 H7]; [vm_compute; reflexivity |].
  repeat split; assumption.
Defined.

Lemma setDimensions_master_gain_witness :
  masterGain (exec (setDimensions quiet 80 280 40) sounding) =
  Qmin (0.7 * ((80 * 280 * 40) / (180 * 150 * 40))) 1.2.
Proof.
  destruct (setDimensions_master_gain quiet 80 280 40 sounding) as [H _].
  apply H; vm_compute; reflexivity.
Defined.

Lemma playNote_not_built_witness :
  playNote hostile 60 0.7 constructor =
  (Returned tt,
   set_reports (reports constructor ++ [(WarnLevel, PianoNotBuilt)]) constructor).
Proof.
  destruct (playNote_not_built hostile 60 0.7 constructor) as (_ & _ & _ & _ & _ & H);
    [reflexivity |].
  apply H. by exists [].
Defined.


Lemma equal_tempered_frequency_witness :
  SetFrequency (node 1 OscillatorN) 69 1 ∈ calls (exec (playNote quiet 69 0.7) sounding) ∧
  hertz (SetFrequency (node 1 OscillatorN) 69 1) =
    Some (440 * Rpower 2 ((IZR 69 - 69) / 12))%R.
Proof.
  destruct equal_tempered_frequency as [H _].
  apply (H quiet 69%Z 0.7 sounding). reflexivity.
Defined.

Lemma fourth_oscillator_never_starts_witness :
  started (calls (exec (playNote quiet 60 0.7) plasticPiano)) =
    [node 0 OscillatorN; node 0 Oscillator2N; node 0 Oscillator3N] ∧
  node 0 Oscillator4N ∈ created (calls (exec (playNote quiet 60 0.7) plasticPiano)) ∧
  Connect (node 0 Oscillator4N) (ToNode (node 0 ExperimentalGainN))
    ∈ calls (exec (playNote quiet 60 0.7) plasticPiano).
Proof.
  destruct (fourth_oscillator_never_starts quiet 60 0.7 plasticPiano)
    as (H1 & _ & H2 & _ & H4); [reflexivity | reflexivity |].
  destruct H2 as [H2 _]; [reflexivity |].
  destruct H4 as [H4 _];
    [apply list_elem_of_In; do 3 right; left; reflexivity |].
  repeat split; assumption.
Defined.

Lemma stopNote_schedules_cleanup_witness :
  activeNotes (exec (stopNote quiet 60) sounding) = activeNotes sounding ∧
  t_kind <$> timers (exec (stopNote quiet 60) sounding) =
    [Primary; Backup; Emergency].
Proof.
  pose proof (stopNote_schedules_cleanup quiet 60 sounding
                (newVoice "wood" (dimensions constructor) 0)) as H.
  destruct H as (H1 & H2 & _); [vm_compute; reflexivity |].
  split; [exact H1 |].
  rewrite H2 by (vm_compute; reflexivity). reflexivity.
Defined.

Lemma release_timers_remove_entry_witness :
  activeNotes (exec (fireTimer 2) (exec (stopNote quiet 60) sounding)) =
    delete 60%Z (activeNotes sounding) ∧
  timers (exec (fireTimer 0) (exec (fireTimer 0) (exec (fireTimer 0)
    (exec (stopNote quiet 60) sounding)))) = timers sounding.
Proof.
  pose proof (release_timers_remove_entry quiet 60 sounding
                (newVoice "wood" (dimensions constructor) 0)) as H.
  destruct H as (H1 & _ & _ & _ & H5);
    [vm_compute; reflexivity | vm_compute; reflexivity |].
  split; [apply (H1 2%nat); lia | exact H5].
Defined.

Lemma first_build_keeps_master_gain_witness :
  masterGain (exec (buildClick webAudio 160 220 40) constructor) = 0.7 ∧
  returns (buildClick webAudio 160 220 40)
    (exec (buildClick webAudio 160 220 40) constructor) = true ∧
  masterGain (exec (buildClick webAudio 160 220 40)
                (exec (buildClick webAudio 160 220 40) constructor)) =
    masterGainFor (volumeFactor 160 220 40).
Proof.
  destruct (first_build_keeps_master_gain webAudio 160 220 40 constructor)
    as (_ & _ & _ & H4 & _ & H6 & H7); [reflexivity |].
  split; [exact H4 |]. split; [apply H6; reflexivity | exact H7].
Defined.

Lemma wave_shaper_follows_volume_witness :
  distortion (exec (setDimensions quiet 300 320 70) sounding) =
    Some (volumeFactor 300 320 70 * 30) ∧
  distortion (exec (setDimensions quiet 120 120 30) sounding) = None.
Proof.
  destruct (wave_shaper_follows_volume quiet 300 320 70 sounding)
    as [H1 _]; [vm_compute; reflexivity | vm_compute; reflexivity |].
  destruct (wave_shaper_follows_volume quiet 120 120 30 sounding)
    as [_ H2]; [vm_compute; reflexivity | vm_compute; reflexivity |].
  split; [apply H1; vm_compute; reflexivity | apply H2; vm_compute; discriminate].
Defined.

Lemma playNote_throws_on_negative_time_only_witness :
  returns (playNote strict 60 0.7) builtPiano = true ∧
  returns (playNote strict 60 0.7)
    (run strict [Advance (-1)] builtPiano) = false.
Proof.
  split.
  - apply (playNote_throws_on_negative_time_only 60 0.7 builtPiano);
      [vm_compute; reflexivity |].
    split; vm_compute; discriminate.
  - destruct (returns (playNote strict 60 0.7)
                (run strict [Advance (-1)] builtPiano)) eqn:E; [| reflexivity].
    apply (playNote_throws_on_negative_time_only 60 0.7) in E as [E _];
      [| vm_compute; reflexivity].
    exfalso. apply E. vm_compute. reflexivity.
Defined.

Lemma handleMIDIMessage_ignores_channel_witness :
  handleMIDIMessage quiet (16 * 9 + 3) 60 100 stage =
    handleMIDIMessage quiet (16 * 9) 60 100 stage ∧
  handleMIDIMessage quiet (16 * 11 + 3) 64 127 stage = (Returned tt, stage).
Proof.
  destruct (handleMIDIMessage_ignores_channel quiet 9 3 60 100 stage)
    as [H1 _]; [lia | lia |].
  destruct (handleMIDIMessage_ignores_channel quiet 11 3 64 127 stage)
    as [_ H2]; [lia | lia |].
  split; [exact H1 | apply H2; lia].
Defined.

Lemma createVirtualKeyboard_keys_witness :
  is_Some (findKey 51 (keyboard (execC createVirtualKeyboard blackEnded))) ∧
  ¬ is_Some (findKey 49 (keyboard (execC createVirtualKeyboard blackEnded))).
Proof.
  split.
  - destruct (createVirtualKeyboard_keys blackEnded 51) as (_ & H & _);
      [simpl; lia |].
    apply H. simpl. split; [lia | right; lia].
  - destruct (createVirtualKeyboard_keys blackEnded 49) as (_ & H & _);
      [simpl; lia |].
    intros Hs. apply H in Hs as [_ [Hw | Hr]]; [discriminate | simpl in Hr; lia].
Defined.

Lemma editor_keeps_dimensions_within_limits_witness :
  let d := getPianoParams (editor_run dragging newPianoUI) in
  120 <= Dims.width d <= 320 ∧ 120 <= Dims.length d <= 300 ∧
  30 <= Dims.height d <= 70.
Proof.
  apply (editor_keeps_dimensions_within_limits dragging).
  repeat constructor; simpl; lra.
Defined.

Lemma built_from_the_editor_plays_witness :
  let d := getPianoParams (editor_run dragging newPianoUI) in
  returns (playNote strict 60 0.7)
    (exec (buildClick strict (Dims.length d) (Dims.width d) (Dims.height d))
       constructor) = true.
Proof.
  intros d.
  destruct (built_from_the_editor_plays dragging constructor 60 0.7)
    as (_ & _ & H & _).
  - repeat constructor; simpl; lra.
  - simpl. lra.
  - exact H.
Defined.

